(** * Base58 encoding: a shallow embedding of [lib/index.mjs]

    The development follows the source file top to bottom: the JavaScript
    values the program manipulates, the two capacity functions, the eight
    byte/string conversion routines, the text and integer codecs, the
    [Base58Encoding] constructor with its methods, and the two presets.
    The theorems come last.

    Conventions of the embedding.
    - A JavaScript string is the list of its UTF-16 code units ([jsstring]).
    - A [Uint8Array] is a list of integers in [0, 255]; reading outside the
      array gives [undefined] ([None]) and writing outside is ignored, as for
      every integer-indexed exotic object.
    - A value that is either a number or [undefined] (or [NaN], which the
      program only ever meets where [undefined] has been coerced) is an
      [option Z]; a value that is a string or [undefined] is an
      [option jsstring].
    - A [Map] is a [gmap] keyed by such values.
    - Numbers are IEEE doubles in the source.  The conversion routines only
      compute with integers below [2 ^ 16] and the integer codec with the
      integers it is given; on integers of magnitude below [2 ^ 53] the
      operations used ([+], [*], [%], a division followed by [Math.floor] or
      [| 0]) are exact in double precision, so numbers are integers here.
      The 32-bit coercions of [<<], [>>], [&] and [|] are written out
      ([ToInt32]).  The capacities alone are not integer arithmetic: they
      are computed in double precision, rounding included ([double]).
    - A call either returns or throws ([Completion]); the [while] loops whose
      trip count is not a syntactic bound are given fuel, and [Diverge] is the
      completion of a run whose fuel ran out.  The fuel of the carry loops is
      never used up ([routines_complete]). *)

From Stdlib Require Import ZArith QArith Reals Lra.
From stdpp Require Import base numbers list option gmap strings.

#[local] Open Scope Z_scope.

(** ** JavaScript values *)

Module JS.

(** A string as its UTF-16 code units. *)
Abbreviation jsstring := (list Z) (only parsing).

(** The code units of an ASCII literal. *)
Definition lit (s : string) : jsstring :=
  (fun a => Z.of_nat (Ascii.nat_of_ascii a)) <$> String.list_ascii_of_string s.

Inductive Error : Type :=
| TypeError (message : string)
| RangeError (message : string).

Inductive Completion (A : Type) : Type :=
| Return (a : A)
| Throw (e : Error)
| Diverge.
Arguments Return {A} a.
Arguments Throw {A} e.
Arguments Diverge {A}.

#[export] Instance Completion_bind : MBind Completion := fun A B k c =>
  match c with
  | Return a => k a
  | Throw e => Throw e
  | Diverge => Diverge
  end.

(** [ToInt32]: the coercion applied by the bitwise operators. *)
Definition ToInt32 (z : Z) : Z := (z + 2 ^ 31) mod 2 ^ 32 - 2 ^ 31.

(** [ToNumber] followed by [ToInt32]: [undefined] becomes [NaN], and [NaN]
    becomes 0. *)
Definition ToInt32V (v : option Z) : Z :=
  match v with
  | Some z => ToInt32 z
  | None => 0
  end.

(** [v << n] for a value that may be [undefined]; [x >> n] and [x & y] on
    numbers ([n] below 32). *)
Definition shl (v : option Z) (n : Z) : Z := ToInt32 (Z.shiftl (ToInt32V v) n).
Definition shr (x n : Z) : Z := Z.shiftr (ToInt32 x) n.
Definition band (x y : Z) : Z := Z.land (ToInt32 x) (ToInt32 y).

(** [s[i]] for a string [s] and a numeric index [i]: the one-unit string at
    that position, or [undefined]. *)
Definition charAt (s : jsstring) (i : Z) : option jsstring :=
  if i <? 0 then None else (fun c => [c]) <$> s !! Z.to_nat i.

(** [s[v]] where the index itself may be [undefined] (the property named
    ["undefined"] does not exist on a string). *)
Definition charAtV (s : jsstring) (v : option Z) : option jsstring :=
  match v with
  | Some i => charAt s i
  | None => None
  end.

(** [StringCharCodeAt(s, i)]: the code unit, or [NaN] ([None]). *)
Definition StringCharCodeAt (s : jsstring) (i : Z) : option Z :=
  if i <? 0 then None else s !! Z.to_nat i.

(** [ToString] of a value that is a string or [undefined], as performed by
    [+=] on a string and by a template literal. *)
Definition ToStringV (v : option jsstring) : jsstring :=
  match v with
  | Some s => s
  | None => lit "undefined"
  end.

(** [StringFromCharCode(v)]: one code unit, [ToUint16] of the argument. *)
Definition StringFromCharCode (v : option Z) : jsstring :=
  match v with
  | Some z => [z mod 2 ^ 16]
  | None => [0]
  end.

(** *** Uint8Array *)

Abbreviation Uint8Array := (list Z) (only parsing).

(** [new Uint8Array(n)] for a non-negative length. *)
Definition newUint8Array (n : Z) : Uint8Array := replicate (Z.to_nat n) 0.

(** [a[i]] *)
Definition get (a : Uint8Array) (i : Z) : option Z :=
  if i <? 0 then None else a !! Z.to_nat i.

(** [a[i] = v] for a number [v]: stored modulo 256, ignored out of range. *)
Definition set (a : Uint8Array) (i : Z) (v : Z) : Uint8Array :=
  if i <? 0 then a else <[Z.to_nat i := v mod 256]> a.

(** [a[i] = v] for a value that may be [undefined] (stored as 0). *)
Definition setV (a : Uint8Array) (i : Z) (v : option Z) : Uint8Array :=
  set a i (default 0 v).

Definition TypedArrayLength (a : Uint8Array) : Z := Z.of_nat (length a).

Definition lengthOf (s : jsstring) : Z := Z.of_nat (length s).

(** *** Double precision

    A finite double that is not negative is [mantissa * 2 ^ exponent] with a
    mantissa below [2 ^ 53].  A product or a quotient is the exact result
    rounded to 53 significant bits, to nearest, ties to even; no value of
    the program comes near the subnormal or the overflow range. *)

Record double : Type := mkDouble { mantissa : Z; exponent : Z }.

(** The double nearest to [N * 2 ^ e], for [N >= 0]. *)
Definition roundToDouble (N e : Z) : double :=
  let s := Z.log2 N + 1 - 53 in
  if s <=? 0 then mkDouble N e else
  let q := N / 2 ^ s in
  let r := N mod 2 ^ s in
  let half := 2 ^ (s - 1) in
  let q := if (half <? r) || ((r =? half) && Z.odd q) then q + 1 else q in
  mkDouble q (e + s).

(** An integer as a Number: exact below [2 ^ 53], which every length is. *)
Definition ofInteger (n : Z) : double := mkDouble n 0.

(** [a * b] *)
Definition multiply (a b : double) : double :=
  roundToDouble (mantissa a * mantissa b) (exponent a + exponent b).

(** [a / b] for mantissas of 53 bits: 56 bits of the quotient and a sticky
    bit for the remainder decide the rounding. *)
Definition divide (a b : double) : double :=
  let n := mantissa a * 2 ^ 56 in
  let q := n / mantissa b in
  let sticky := if n mod mantissa b =? 0 then 0 else 1 in
  roundToDouble (2 * q + sticky) (exponent a - exponent b - 57).

(** [MathCeil(d)] *)
Definition MathCeil (d : double) : Z :=
  if 0 <=? exponent d then mantissa d * 2 ^ exponent d
  else - ((- mantissa d) / 2 ^ (- exponent d)).

(** [MathLog(256)] and [MathLog(58)]: the doubles nearest to the two
    logarithms, [0x1.62e42fefa39efp+2] and [0x1.03de4c5c6464dp+2]. *)
Definition MathLog_256 : double := mkDouble 0x162e42fefa39ef (-50).
Definition MathLog_58 : double := mkDouble 0x103de4c5c6464d (-50).

End JS.
Import JS.

(** ** Capacities

    [FACTOR] is [1.365658237309761] ([0x1.5d9bc73ac2288p+0]) and
    [INVERSE_FACTOR] is [0.7322476243909465] ([0x1.76e9291eaa65bp-1]).  A
    capacity is the ceiling of the rounded product, which is not always the
    ceiling of the exact product. *)

Definition FACTOR : double := Eval cbv in divide MathLog_256 MathLog_58.
Definition INVERSE_FACTOR : double := Eval cbv in divide MathLog_58 MathLog_256.

Definition GetCapacity (length : Z) : Z := MathCeil (multiply (ofInteger length) FACTOR).

Definition GetInverseCapacity (length : Z) : Z :=
  MathCeil (multiply (ofInteger length) INVERSE_FACTOR).

(** ** Internal slots of a [Base58Encoding] *)

Record Target : Type := mkTarget {
  Alphabet : jsstring;
  AlphabetLookup : gmap (option jsstring) Z;
  BaseMap : gmap (option Z) Z;
  BaseMapLookup : gmap (option Z) Z
}.

Definition MapGet {K} `{Countable K} (m : gmap K Z) (key : K) : option Z := m !! key.
Definition MapHas {K} `{Countable K} (m : gmap K Z) (key : K) : bool :=
  bool_decide (is_Some (m !! key)).
Definition MapSet {K} `{Countable K} (m : gmap K Z) (key : K) (v : Z) : gmap K Z :=
  <[key := v]> m.

(** ** The shared loops

    The eight conversion routines repeat the same three loops; each is
    written once. *)

(** [while (leadingZeros < length && input[leadingZeros] === zero)
      leadingZeros++]: the length of the longest prefix of [zero]s. *)
Fixpoint countLeading {A} (isZero : A -> bool) (input : list A) : Z :=
  match input with
  | x :: rest => if isZero x then 1 + countLeading isZero rest else 0
  | [] => 0
  end.

(** The state of a conversion once its [for] loop is over. *)
Record Work : Type := mkWork {
  leadingZeros : Z;
  capacity : Z;
  bytes : Uint8Array;
  offset : Z
}.

(** Fuel of one run of a carry loop on a buffer of [capacity] cells: the loop
    visits each cell at most once, and below index 0 the carry is gone after
    at most three more rounds. *)
Definition carryFuel (capacity : Z) : nat := Z.to_nat capacity + 5.

(** The two carry loops have one shape,
<<
    while (carry || index >= offset) {
      ... one round on bytes[index] and carry ...
      index--;
    }
>>
    and differ by the round.  The result is the buffer and the value of
    [index] on exit. *)
Fixpoint carryLoop (round : Uint8Array -> Z -> Z -> Uint8Array * Z)
    (fuel : nat) (bytes : Uint8Array) (offset carry index : Z)
  : Completion (Uint8Array * Z) :=
  match fuel with
  | O => Diverge
  | S fuel' =>
      if bool_decide (carry ≠ 0) || bool_decide (index >= offset) then
        let '(bytes, carry) := round bytes carry index in
        carryLoop round fuel' bytes offset carry (index - 1)
      else Return (bytes, index)
  end.

(** The round of the encoders, base 256 to base 58:
<<
      carry += bytes[index] << 8;
      bytes[index] = carry % 58;
      carry = (carry / 58) | 0;
>> *)
Definition encodeRound (bytes : Uint8Array) (carry index : Z) : Uint8Array * Z :=
  let carry := carry + shl (get bytes index) 8 in
  let bytes := set bytes index (Z.rem carry 58) in
  let carry := ToInt32 (Z.quot carry 58) in
  (bytes, carry).

(** The round of the decoders, base 58 to base 256:
<<
      carry += bytes[index] * 58;
      bytes[index] = carry & 0xff;
      carry >>= 8;
>>
    Outside the buffer [bytes[index]] is [undefined], the sum is [NaN], the
    store is ignored and [NaN >> 8] is 0. *)
Definition decodeRound (bytes : Uint8Array) (carry index : Z) : Uint8Array * Z :=
  match get bytes index with
  | Some b =>
      let carry := carry + b * 58 in
      let bytes := set bytes index (band carry 255) in
      let carry := shr carry 8 in
      (bytes, carry)
  | None => (bytes, 0)
  end.

Definition encodeCarry := carryLoop encodeRound.
Definition decodeCarry := carryLoop decodeRound.

(** [for (let i = leadingZeros; i < length; i++) { ... }]: [units] is the
    input from position [leadingZeros] on, [digit] reads one unit (and may
    throw), [carryLoop] is one of the two loops above.  Each round ends with
    [offset = ++index]. *)
Fixpoint convert {A} (digit : A -> Completion Z)
    (carryLoop : nat -> Uint8Array -> Z -> Z -> Z -> Completion (Uint8Array * Z))
    (capacity : Z) (units : list A) (bytes : Uint8Array) (offset : Z)
  : Completion (Uint8Array * Z) :=
  match units with
  | [] => Return (bytes, offset)
  | u :: rest =>
      carry ← digit u;
      let lastIndex := capacity - 1 in
      '(bytes, index) ← carryLoop (carryFuel capacity) bytes offset carry lastIndex;
      convert digit carryLoop capacity rest bytes (index + 1)
  end.

(** The part of a routine between its empty-input test and its output:
    count the leading zeros, allocate the buffer, run the [for] loop. *)
Definition run {A} (isZero : A -> bool) (getCapacity : Z -> Z)
    (digit : A -> Completion Z)
    (carryLoop : nat -> Uint8Array -> Z -> Z -> Z -> Completion (Uint8Array * Z))
    (input : list A) : Completion Work :=
  let length := Z.of_nat (length input) in
  let leadingZeros := countLeading isZero input in
  let capacity := getCapacity (length - leadingZeros) in
  let bytes := newUint8Array capacity in
  let lastIndex := capacity - 1 in
  let offset := lastIndex in
  '(bytes, offset) ← convert digit carryLoop capacity
                       (drop (Z.to_nat leadingZeros) input) bytes offset;
  Return (mkWork leadingZeros capacity bytes offset).

(** [while (offset < capacity) { result += f(bytes[offset++]) }], run
    [capacity - offset] times. *)
Fixpoint emitString (n : nat) (f : option Z -> jsstring) (bytes : Uint8Array)
    (offset : Z) (result : jsstring) : jsstring :=
  match n with
  | O => result
  | S n' => emitString n' f bytes (offset + 1) (result ++ f (get bytes offset))
  end.

(** [while (index < size) { result[index++] = f(bytes[offset++]) }], run
    [size - index] times. *)
Fixpoint emitBytes (n : nat) (f : option Z -> option Z) (bytes : Uint8Array)
    (offset : Z) (result : Uint8Array) (index : Z) : Uint8Array :=
  match n with
  | O => result
  | S n' => emitBytes n' f bytes (offset + 1) (setV result index (f (get bytes offset))) (index + 1)
  end.

(** [while (index < leadingZeros) { result[index++] = v }] from [index = 0]. *)
Fixpoint fillBytes (n : nat) (v : option Z) (result : Uint8Array) (index : Z) : Uint8Array :=
  match n with
  | O => result
  | S n' => fillBytes n' v (setV result index v) (index + 1)
  end.

(** [while (--leadingZeros >= 0) { result += zeroChar }]. *)
Fixpoint repeatString (n : nat) (zeroChar : jsstring) (result : jsstring) : jsstring :=
  match n with
  | O => result
  | S n' => repeatString n' zeroChar (result ++ zeroChar)
  end.

(** ** The string and byte conversion routines *)

(** The digit of an input unit of the encoders that read a string. *)
Definition asciiDigit (carry : Z) : Completion Z :=
  if bool_decide (carry > 255) then Throw (RangeError "Invalid ASCII encoding")
  else Return carry.

(** The digit of an input unit of the decoders. *)
Definition base58Digit (baseMapLookup : gmap (option Z) Z) (charCode : Z) : Completion Z :=
  match MapGet baseMapLookup (Some charCode) with
  | None => Throw (RangeError "Invalid Base58 encoding")
  | Some carry => Return carry
  end.

(** The conversion phase of each pair of routines (the text between the
    empty-input test and the construction of the result is the same in both
    routines of a pair, up to the slots they fetch). *)

Definition encodeStringWork (string : jsstring) : Completion Work :=
  run (fun c => bool_decide (c = 0)) GetCapacity asciiDigit encodeCarry string.

Definition encodeBytesWork (source : Uint8Array) : Completion Work :=
  run (fun b => bool_decide (b = 0)) GetCapacity Return encodeCarry source.

Definition decodeStringWork (target : Target) (encodedString : jsstring) : Completion Work :=
  let alphabet := Alphabet target in
  let baseMapLookup := BaseMapLookup target in
  let zeroChar := charAt alphabet 0 in
  run (fun c => bool_decide (Some [c] = zeroChar)) GetCapacity
    (base58Digit baseMapLookup) decodeCarry encodedString.

Definition decodeBytesWork (target : Target) (source : Uint8Array) : Completion Work :=
  let baseMapLookup := BaseMapLookup target in
  let zeroCharCode := MapGet baseMapLookup (Some 0) in
  run (fun b => bool_decide (Some b = zeroCharCode)) GetInverseCapacity
    (base58Digit baseMapLookup) decodeCarry source.

Definition Encode (target : Target) (string : jsstring) : Completion jsstring :=
  let length := lengthOf string in
  if bool_decide (length = 0) then Return [] else
  let alphabet := Alphabet target in
  w ← encodeStringWork string;
  let result :=
    if bool_decide (leadingZeros w ≠ 0) then
      let zeroChar := charAt alphabet 0 in
      repeatString (Z.to_nat (leadingZeros w)) (ToStringV zeroChar) []
    else [] in
  Return (emitString (Z.to_nat (capacity w - offset w))
            (fun charIndex => ToStringV (charAtV alphabet charIndex))
            (bytes w) (offset w) result).

Definition EncodeToBytes (target : Target) (string : jsstring) : Completion Uint8Array :=
  let length := lengthOf string in
  if bool_decide (length = 0) then Return (newUint8Array 0) else
  let baseMap := BaseMap target in
  w ← encodeStringWork string;
  let size := capacity w - offset w + leadingZeros w in
  let result := newUint8Array size in
  let result :=
    if bool_decide (leadingZeros w ≠ 0) then
      let zeroCharCode := MapGet baseMap (Some 0) in
      fillBytes (Z.to_nat (leadingZeros w)) zeroCharCode result 0
    else result in
  let index := leadingZeros w in
  Return (emitBytes (Z.to_nat (size - index))
            (fun charIndex => MapGet baseMap charIndex)
            (bytes w) (offset w) result index).

Definition Decode (target : Target) (encodedString : jsstring) : Completion jsstring :=
  let length := lengthOf encodedString in
  if bool_decide (length = 0) then Return [] else
  w ← decodeStringWork target encodedString;
  let result := repeatString (Z.to_nat (leadingZeros w)) [0] [] in
  Return (emitString (Z.to_nat (capacity w - offset w)) StringFromCharCode
            (bytes w) (offset w) result).

Definition DecodeToBytes (target : Target) (encodedString : jsstring) : Completion Uint8Array :=
  let length := lengthOf encodedString in
  if bool_decide (length = 0) then Return (newUint8Array 0) else
  w ← decodeStringWork target encodedString;
  let size := capacity w - offset w + leadingZeros w in
  let result := newUint8Array size in
  let index := leadingZeros w in
  Return (emitBytes (Z.to_nat (size - index)) (fun b => b)
            (bytes w) (offset w) result index).

Definition EncodeBytes (target : Target) (source : Uint8Array) : Completion Uint8Array :=
  let length := TypedArrayLength source in
  if bool_decide (length = 0) then Return (newUint8Array 0) else
  let baseMap := BaseMap target in
  w ← encodeBytesWork source;
  let size := capacity w - offset w + leadingZeros w in
  let result := newUint8Array size in
  let result :=
    if bool_decide (leadingZeros w ≠ 0) then
      let zeroCharCode := MapGet baseMap (Some 0) in
      fillBytes (Z.to_nat (leadingZeros w)) zeroCharCode result 0
    else result in
  let index := leadingZeros w in
  Return (emitBytes (Z.to_nat (size - index))
            (fun charIndex => MapGet baseMap charIndex)
            (bytes w) (offset w) result index).

Definition EncodeBytesToString (target : Target) (source : Uint8Array) : Completion jsstring :=
  let length := TypedArrayLength source in
  if bool_decide (length = 0) then Return [] else
  let alphabet := Alphabet target in
  w ← encodeBytesWork source;
  let result :=
    if bool_decide (leadingZeros w ≠ 0) then
      let zeroChar := charAt alphabet 0 in
      repeatString (Z.to_nat (leadingZeros w)) (ToStringV zeroChar) []
    else [] in
  Return (emitString (Z.to_nat (capacity w - offset w))
            (fun charIndex => ToStringV (charAtV alphabet charIndex))
            (bytes w) (offset w) result).

Definition DecodeBytes (target : Target) (source : Uint8Array) : Completion Uint8Array :=
  let length := TypedArrayLength source in
  if bool_decide (length = 0) then Return (newUint8Array 0) else
  w ← decodeBytesWork target source;
  let size := capacity w - offset w + leadingZeros w in
  let result := newUint8Array size in
  let index := leadingZeros w in
  Return (emitBytes (Z.to_nat (size - index)) (fun b => b)
            (bytes w) (offset w) result index).

Definition DecodeBytesToString (target : Target) (source : Uint8Array) : Completion jsstring :=
  let length := TypedArrayLength source in
  if bool_decide (length = 0) then Return [] else
  w ← decodeBytesWork target source;
  let result := repeatString (Z.to_nat (leadingZeros w)) [0] [] in
  Return (emitString (Z.to_nat (capacity w - offset w)) StringFromCharCode
            (bytes w) (offset w) result).

(** ** Text

    [UTF8Encode] and [UTF8Decode] come from the package [@dwlib/utf8]; the
    text routines take them as parameters. *)

Section Text.
Variable UTF8Encode : jsstring -> Completion Uint8Array.
Variable UTF8Decode : Uint8Array -> Completion jsstring.

Definition EncodeText (target : Target) (text : jsstring) : Completion jsstring :=
  buffer ← UTF8Encode text;
  EncodeBytesToString target buffer.

Definition EncodeTextToBytes (target : Target) (text : jsstring) : Completion Uint8Array :=
  buffer ← UTF8Encode text;
  EncodeBytes target buffer.

Definition DecodeText (target : Target) (encodedString : jsstring) : Completion jsstring :=
  buffer ← DecodeToBytes target encodedString;
  UTF8Decode buffer.

Definition DecodeBytesToText (target : Target) (buffer : Uint8Array) : Completion jsstring :=
  bytes ← DecodeBytes target buffer;
  UTF8Decode bytes.
End Text.

(** ** Integers *)

(** A JavaScript number, as far as the integer codec tells numbers apart: a
    finite value, the two infinities, [NaN]. *)
Inductive Number : Type :=
| Finite (q : Q)
| Infinity
| NegInfinity
| NaN.

Definition Integer (z : Z) : Number := Finite (inject_Z z).

(** Fuel of the digit loops of the integer encoders: a division by 58 at
    least halves its argument. *)
Definition digitFuel (integer : Z) : nat := Z.to_nat (Z.log2 integer) + 2.

(** The loop of [EncodeInt]:
<<
    while (carry) {
      const charIndex = carry % 58;
      const char = alphabet[charIndex];
      result = `${char}${result}`;
      carry = MathFloor(carry / 58);
    }
>>
    On a negative [carry] the floor never reaches 0. *)
Fixpoint encodeIntLoop (fuel : nat) (alphabet : jsstring) (carry : Z) (result : jsstring)
  : Completion jsstring :=
  match fuel with
  | O => Diverge
  | S fuel' =>
      if bool_decide (carry ≠ 0) then
        let charIndex := Z.rem carry 58 in
        let char := charAt alphabet charIndex in
        let result := ToStringV char ++ result in
        let carry := carry `div` 58 in
        encodeIntLoop fuel' alphabet carry result
      else Return result
  end.

(** [EncodeInt] returns [alphabet[0]] or a string. *)
Definition EncodeInt (target : Target) (integer : Z) : Completion (option jsstring) :=
  let alphabet := Alphabet target in
  if bool_decide (integer = 0) then Return (charAt alphabet 0) else
  result ← encodeIntLoop (digitFuel integer) alphabet integer [];
  Return (Some result).

(** The [for] loop shared by [DecodeInt] and [DecodeBigInt]; [None] when a
    character is not a key of [alphabetLookup]. *)
Fixpoint decodeIntLoop (alphabetLookup : gmap (option jsstring) Z)
    (chars : jsstring) (result : Z) : option Z :=
  match chars with
  | [] => Some result
  | c :: rest =>
      let char := Some [c] in
      match MapGet alphabetLookup char with
      | None => None
      | Some charIndex => decodeIntLoop alphabetLookup rest (result * 58 + charIndex)
      end
  end.

Definition DecodeInt (target : Target) (encodedInteger : jsstring) : Completion Number :=
  let length := lengthOf encodedInteger in
  if bool_decide (length = 0) then Return NaN else
  let alphabet := Alphabet target in
  let alphabetLookup := AlphabetLookup target in
  let zeroChar := charAt alphabet 0 in
  let leadingZeros := countLeading (fun c => bool_decide (Some [c] = zeroChar)) encodedInteger in
  match decodeIntLoop alphabetLookup (drop (Z.to_nat leadingZeros) encodedInteger) 0 with
  | None => Return NaN
  | Some result => Return (Integer result)
  end.

(** The loop of [EncodeBigInt]; BigInt division rounds toward zero. *)
Fixpoint encodeBigIntLoop (fuel : nat) (alphabet : jsstring) (carry : Z) (result : jsstring)
  : Completion jsstring :=
  match fuel with
  | O => Diverge
  | S fuel' =>
      if bool_decide (carry ≠ 0) then
        let charIndex := Z.rem carry 58 in
        let char := charAt alphabet charIndex in
        let result := ToStringV char ++ result in
        let carry := Z.quot carry 58 in
        encodeBigIntLoop fuel' alphabet carry result
      else Return result
  end.

Definition EncodeBigInt (target : Target) (bigint : Z) : Completion (option jsstring) :=
  let alphabet := Alphabet target in
  if bool_decide (bigint = 0) then Return (charAt alphabet 0) else
  result ← encodeBigIntLoop (digitFuel (Z.abs bigint)) alphabet bigint [];
  Return (Some result).

Definition DecodeBigInt (target : Target) (encodedInteger : jsstring) : Completion Z :=
  let length := lengthOf encodedInteger in
  if bool_decide (length = 0) then Throw (RangeError "Invalid Base58 encoded integer") else
  let alphabet := Alphabet target in
  let alphabetLookup := AlphabetLookup target in
  let zeroChar := charAt alphabet 0 in
  let leadingZeros := countLeading (fun c => bool_decide (Some [c] = zeroChar)) encodedInteger in
  match decodeIntLoop alphabetLookup (drop (Z.to_nat leadingZeros) encodedInteger) 0 with
  | None => Throw (RangeError "Invalid Base58 encoded integer")
  | Some result => Return result
  end.

(** ** The class [Base58Encoding] *)

(** [NaN] (the code of a missing character) fails every comparison. *)
Definition IsBase58CharCode (charCode : option Z) : bool :=
  match charCode with
  | None => false
  | Some charCode =>
      bool_decide (charCode >= 0x31) && bool_decide (charCode <= 0x39) ||
      bool_decide (charCode >= 0x41) && bool_decide (charCode <= 0x4e) ||
      bool_decide (charCode >= 0x50) && bool_decide (charCode <= 0x5a) ||
      bool_decide (charCode >= 0x61) && bool_decide (charCode <= 0x7a)
  end.

(** [for (let i = 0; i < 58; i++) { ... }] of the constructor, with [n]
    rounds left.  A code that passes [IsBase58CharCode] is a number, which is
    what the three [MapSet] store. *)
Fixpoint constructorLoop (n : nat) (alphabet : jsstring) (i : Z)
    (alphabetLookup : gmap (option jsstring) Z) (baseMap baseMapLookup : gmap (option Z) Z)
  : Completion Target :=
  match n with
  | O => Return (mkTarget alphabet alphabetLookup baseMap baseMapLookup)
  | S n' =>
      let char := charAt alphabet i in
      if MapHas alphabetLookup char then Throw (RangeError "Invalid alphabet") else
      let charCode := StringCharCodeAt alphabet i in
      if negb (IsBase58CharCode charCode) then Throw (RangeError "Invalid alphabet") else
      let code := default 0 charCode in
      let alphabetLookup := MapSet alphabetLookup char i in
      let baseMap := MapSet baseMap (Some i) code in
      let baseMapLookup := MapSet baseMapLookup charCode i in
      constructorLoop n' alphabet (i + 1) alphabetLookup baseMap baseMapLookup
  end.

(** [new Base58Encoding(alphabet)] for a string [alphabet]. *)
Definition Base58Encoding (alphabet : jsstring) : Completion Target :=
  let length := lengthOf alphabet in
  if bool_decide (length = 0) || bool_decide (length > 58) then
    Throw (RangeError "Alphabet length out of range")
  else constructorLoop 58 alphabet 0 ∅ ∅ ∅.

(** The methods.  [this] is an instance ([RequireThis] passes), string
    arguments are strings ([ToString] is the identity), buffer arguments are
    byte arrays ([RequireBuffer] passes). *)

Definition encode (this : Target) (string : jsstring) := Encode this string.
Definition encodeToBytes (this : Target) (string : jsstring) := EncodeToBytes this string.
Definition decode (this : Target) (encodedString : jsstring) := Decode this encodedString.
Definition decodeToBytes (this : Target) (encodedString : jsstring) :=
  DecodeToBytes this encodedString.
Definition encodeBytes (this : Target) (buffer : Uint8Array) := EncodeBytes this buffer.
Definition encodeBytesToString (this : Target) (buffer : Uint8Array) :=
  EncodeBytesToString this buffer.
Definition decodeBytes (this : Target) (buffer : Uint8Array) := DecodeBytes this buffer.
Definition decodeBytesToString (this : Target) (buffer : Uint8Array) :=
  DecodeBytesToString this buffer.
Definition decodeInt (this : Target) (encodedInteger : jsstring) :=
  DecodeInt this encodedInteger.
Definition decodeBigInt (this : Target) (encodedInteger : jsstring) :=
  DecodeBigInt this encodedInteger.

(** The result of [ToIntegerOrInfinity]. *)
Inductive IntegerOrInfinity : Type :=
| Int (z : Z)
| PlusInfinity
| MinusInfinity.

(** Modelled from the spec: [ToIntegerOrInfinity] is imported from
    [@dwlib/abstract], which is not part of the sources; the spec only
    names a generic coercion of caller inputs to an integer.  This is the
    ECMAScript abstract operation of that name: [NaN] becomes 0, the
    infinities are kept, a finite number is truncated toward zero. *)
Definition ToIntegerOrInfinity (argument : Number) : IntegerOrInfinity :=
  match argument with
  | NaN => Int 0
  | Infinity => PlusInfinity
  | NegInfinity => MinusInfinity
  | Finite q => Int (Z.quot (Qnum q) (Z.pos (Qden q)))
  end.

Definition encodeInt (this : Target) (integer : Number) : Completion (option jsstring) :=
  match ToIntegerOrInfinity integer with
  | MinusInfinity => Throw (RangeError "`integer` cannot be negative")
  | PlusInfinity => Throw (RangeError "`integer` is not finite")
  | Int integer' =>
      if bool_decide (integer' < 0) then Throw (RangeError "`integer` cannot be negative")
      else EncodeInt this integer'
  end.

(** [ToBigInt] is the identity on a BigInt. *)
Definition encodeBigInt (this : Target) (bigint : Z) : Completion (option jsstring) :=
  if bool_decide (bigint < 0) then Throw (RangeError "`bigint` cannot be negative")
  else EncodeBigInt this bigint.

(** ** The presets *)

(** The instance a [new] expression evaluates to. *)
Definition instance (c : Completion Target) : Target :=
  match c with
  | Return target => target
  | _ => mkTarget [] ∅ ∅ ∅
  end.

Definition BASIC_alphabet : jsstring :=
  lit "123456789ABCDEFGHJKLMNPQRSTUVWXYZabcdefghijkmnopqrstuvwxyz".
Definition DARKWOLF_alphabet : jsstring :=
  lit "AveDarkwo1f23456789BCEFGHJKLMNPQRSTUVWXYZbcdghijmnpqstuxyz".

Definition BASIC : Target := instance (Base58Encoding BASIC_alphabet).
Definition DARKWOLF : Target := instance (Base58Encoding DARKWOLF_alphabet).

(** ** UTF-8

    Modelled from the spec: the package [@dwlib/utf8] is not part of the
    sources.  The spec asks of it [textToBytes(text) -> bytes] and
    [bytesToText(bytes) -> text], failing on invalid sequences; this is
    UTF-8 over the code points of a UTF-16 string (the kind of error it
    raises is not specified). *)

Module UTF8.

Definition invalid {A} : Completion A := Throw (RangeError "Invalid UTF-8 encoding").

Definition continuation (codePoint shift : Z) : Z :=
  0x80 + Z.land (Z.shiftr codePoint shift) 0x3f.

Fixpoint encode (text : jsstring) : Completion Uint8Array :=
  match text with
  | [] => Return []
  | c :: rest =>
      if bool_decide (c < 0x80) then
        tail ← encode rest; Return (c :: tail)
      else if bool_decide (c < 0x800) then
        tail ← encode rest;
        Return (0xc0 + Z.shiftr c 6 :: continuation c 0 :: tail)
      else if bool_decide (0xd800 <= c < 0xdc00) then
        match rest with
        | d :: rest' =>
            if bool_decide (0xdc00 <= d < 0xe000) then
              let codePoint := 0x10000 + (c - 0xd800) * 0x400 + (d - 0xdc00) in
              tail ← encode rest';
              Return (0xf0 + Z.shiftr codePoint 18 :: continuation codePoint 12
                      :: continuation codePoint 6 :: continuation codePoint 0 :: tail)
            else invalid
        | [] => invalid
        end
      else if bool_decide (0xdc00 <= c < 0xe000) then invalid
      else
        tail ← encode rest;
        Return (0xe0 + Z.shiftr c 12 :: continuation c 6 :: continuation c 0 :: tail)
  end.

Definition isContinuation (b : Z) : bool := bool_decide (0x80 <= b < 0xc0).

Definition units (codePoint : Z) : jsstring :=
  if bool_decide (codePoint < 0x10000) then [codePoint]
  else [0xd800 + Z.shiftr (codePoint - 0x10000) 10;
        0xdc00 + Z.land (codePoint - 0x10000) 0x3ff].

Fixpoint decode (buffer : Uint8Array) : Completion jsstring :=
  match buffer with
  | [] => Return []
  | b0 :: rest =>
      if bool_decide (b0 < 0x80) then
        tail ← decode rest; Return (b0 :: tail)
      else if bool_decide (0xc2 <= b0 < 0xe0) then
        match rest with
        | b1 :: rest' =>
            if isContinuation b1 then
              tail ← decode rest';
              Return (units ((b0 - 0xc0) * 0x40 + (b1 - 0x80)) ++ tail)
            else invalid
        | _ => invalid
        end
      else if bool_decide (0xe0 <= b0 < 0xf0) then
        match rest with
        | b1 :: b2 :: rest' =>
            let codePoint := (b0 - 0xe0) * 0x1000 + (b1 - 0x80) * 0x40 + (b2 - 0x80) in
            if isContinuation b1 && isContinuation b2
               && bool_decide (0x800 <= codePoint)
               && negb (bool_decide (0xd800 <= codePoint < 0xe000)) then
              tail ← decode rest';
              Return (units codePoint ++ tail)
            else invalid
        | _ => invalid
        end
      else if bool_decide (0xf0 <= b0 < 0xf5) then
        match rest with
        | b1 :: b2 :: b3 :: rest' =>
            let codePoint := (b0 - 0xf0) * 0x40000 + (b1 - 0x80) * 0x1000
                             + (b2 - 0x80) * 0x40 + (b3 - 0x80) in
            if isContinuation b1 && isContinuation b2 && isContinuation b3
               && bool_decide (0x10000 <= codePoint < 0x110000) then
              tail ← decode rest';
              Return (units codePoint ++ tail)
            else invalid
        | _ => invalid
        end
      else invalid
  end.

End UTF8.

Definition encodeText (this : Target) (text : jsstring) := EncodeText UTF8.encode this text.
Definition decodeText (this : Target) (encodedString : jsstring) :=
  DecodeText UTF8.decode this encodedString.

(** The text of the README: ["Ave, Darkwolf!"] followed by three U+1F43A
    (a surrogate pair each). *)
Definition wolf : jsstring := [0xd83d; 0xdc3a].
Definition ave : jsstring := lit "Ave, Darkwolf!" ++ wolf ++ wolf ++ wolf.

(** * Vocabulary of the statements *)

(** ** Alphabets and instances *)

(** [c] is the symbol of digit [i]. *)
Definition symbolAt (alphabet : list Z) (i c : Z) : Prop :=
  0 <= i /\ alphabet !! Z.to_nat i = Some c.

(** The three maps once the first [i] symbols have been entered. *)
Record slots (alphabet : list Z) (i : Z) (alphabetLookup : gmap (option (list Z)) Z)
    (baseMap baseMapLookup : gmap (option Z) Z) : Prop := {
  slots_range : 0 <= i <= lengthOf alphabet;
  slots_NoDup : NoDup (take (Z.to_nat i) alphabet);
  slots_alphabetLookup : forall k v,
    alphabetLookup !! k = Some v <->
    exists c, k = Some [c] /\ v < i /\ symbolAt alphabet v c;
  slots_baseMap : forall k v,
    baseMap !! k = Some v <-> exists j, k = Some j /\ j < i /\ symbolAt alphabet j v;
  slots_baseMapLookup : forall k v,
    baseMapLookup !! k = Some v <-> exists c, k = Some c /\ v < i /\ symbolAt alphabet v c
}.

(** What makes a round of the constructor's loop throw at position [j]. *)
Definition rejectedAt (alphabet : list Z) (j : Z) : Prop :=
  lengthOf alphabet <= j \/
  exists c, symbolAt alphabet j c /\
    (IsBase58CharCode (Some c) = false \/ c ∈ take (Z.to_nat j) alphabet).

(** An alphabet the constructor accepts: 58 distinct characters from the
    ranges of [IsBase58CharCode]. *)
Definition validAlphabet (alphabet : jsstring) : Prop :=
  length alphabet = 58%nat /\ NoDup alphabet /\
  Forall (fun c => IsBase58CharCode (Some c) = true) alphabet.

(** An instance made from [alphabet]: its slots hold all 58 symbols. *)
Definition instanceOf (alphabet : jsstring) (target : Target) : Prop :=
  Alphabet target = alphabet /\
  slots alphabet 58 (AlphabetLookup target) (BaseMap target) (BaseMapLookup target).

(** The allowed characters in the words of the specification: digits 1-9,
    uppercase A-N and P-Z, lowercase a-k and m-z, and none of [0], [O], [I],
    [l]. *)
Definition specBase58Char (c : Z) : bool :=
  (bool_decide (0x31 <= c <= 0x39) || bool_decide (0x41 <= c <= 0x4e) ||
   bool_decide (0x50 <= c <= 0x5a) || bool_decide (0x61 <= c <= 0x6b) ||
   bool_decide (0x6d <= c <= 0x7a))
  && negb (bool_decide (c ∈ [0x30; 0x4f; 0x49; 0x6c])).

(** An alphabet of 58 distinct characters with [I] for [1] and [l] for [z]. *)
Definition alphabet_with_I_and_l : jsstring :=
  lit "I23456789ABCDEFGHJKLMNPQRSTUVWXYZabcdefghijkmnopqrstuvwxyl".

(** The zero symbol. *)
Definition zero (alphabet : list Z) : Z := default 0 (alphabet !! 0%nat).

(** The symbols of a list of digits. *)
Definition symbols (alphabet : list Z) (digits : list Z) : list Z :=
  (fun d => default 0 (alphabet !! Z.to_nat d)) <$> digits.

(** ** Positional notation

    The conversion routines rewrite a number from base 256 to base 58 or
    back; [valueOf b digits] is the number that a big-endian list of digits
    denotes in base [b]. *)

Definition valueOf (b : Z) (digits : list Z) : Z :=
  foldl (fun acc d => acc * b + d) 0 digits.

Definition digitsIn (b : Z) (digits : list Z) : Prop :=
  Forall (fun d => 0 <= d < b) digits.

(** No leading zero digit. *)
Definition canonical (digits : list Z) : Prop :=
  match digits with
  | [] => True
  | d :: _ => d <> 0
  end.

(** [digits] is the notation of [V] in base [b], without leading zero. *)
Definition notation (b V : Z) (digits : list Z) : Prop :=
  digitsIn b digits /\ canonical digits /\ valueOf b digits = V.

(** [digit] reads [units] as the digits [ds] of base [Bin]. *)
Definition reads {A} (Bin : Z) (digit : A -> Completion Z)
    (units : list A) (ds : list Z) : Prop :=
  Forall2 (fun u d => digit u = Return d /\ 0 <= d < Bin) units ds.

(** After the units read so far, the buffer holds their value [V] in the
    output base, in the cells from [offset] on, without a leading zero cell
    (a single zero cell when [V] is 0). *)
Definition buffer (Bout : Z) (cap : nat) (V : Z) (bytes : list Z) (offset : Z) : Prop :=
  exists (off : nat) (used : list Z),
    offset = Z.of_nat off /\ bytes = replicate off 0 ++ used /\
    (off + length used = cap)%nat /\ (off < cap)%nat /\
    digitsIn Bout used /\ valueOf Bout used = V /\
    (V = 0 -> S off = cap) /\
    (0 < V -> Bout ^ (Z.of_nat (length used) - 1) <= V).

(** ** The capacity a conversion needs

    The ceiling of [n * log a / log b] is the least [k] with
    [a ^ n <= b ^ k]: the number of digits of base [b] that hold every number
    of [n] digits of base [a].  It is computed here on integers ([k <= 2 n]
    for the two pairs of bases used, hence the bound of the search). *)

Fixpoint least_power (fuel : nat) (b x k : Z) : Z :=
  match fuel with
  | O => k
  | S fuel' => if x <=? b ^ k then k else least_power fuel' b x (k + 1)
  end.

Definition ceil_log_ratio (a b n : Z) : Z :=
  least_power (2 * Z.to_nat n) b (a ^ n) 0.

(** [cap] gives the least sufficient capacity at each of the lengths
    [n + 1], ..., [n + fuel]; [pa] is [a ^ n], [c] is [cap n] and [pb] is
    [b ^ c]. *)
Fixpoint capacitiesExact (a b : Z) (cap : Z -> Z) (fuel : nat) (n pa c pb : Z) : bool :=
  match fuel with
  | O => true
  | S fuel' =>
      let n' := n + 1 in
      let pa' := pa * a in
      let c' := cap n' in
      let pb' := pb * b ^ (c' - c) in
      (c <=? c') && (pa' <=? pb') && (pb' <? pa' * b) &&
      capacitiesExact a b cap fuel' n' pa' c' pb'
  end.

(** * Properties *)

Lemma BASIC_constructed : Base58Encoding BASIC_alphabet = Return BASIC.
Proof. vm_cast_no_check (eq_refl (Return BASIC)). Qed.

Lemma DARKWOLF_constructed : Base58Encoding DARKWOLF_alphabet = Return DARKWOLF.
Proof. vm_cast_no_check (eq_refl (Return DARKWOLF)). Qed.

(** ** Strings and arrays *)

Lemma bind_Return {A B} (a : A) (k : A -> Completion B) : (Return a ≫= k) = k a.
Proof. done. Qed.

Lemma charAt_Some (s : jsstring) (i : Z) (c : Z) :
  charAt s i = Some [c] <-> 0 <= i /\ s !! Z.to_nat i = Some c.
Proof.
  unfold charAt. destruct (Z.ltb_spec i 0) as [Hi|Hi].
  - split; [discriminate | lia].
  - destruct (s !! Z.to_nat i) as [d|]; simpl; split.
    + intros [= ->]. done.
    + intros [_ [= ->]]. done.
    + discriminate.
    + intros [_ [=]].
Qed.

Lemma charAt_inv (s : jsstring) (i : Z) (k : jsstring) :
  charAt s i = Some k -> exists c, k = [c] /\ 0 <= i /\ s !! Z.to_nat i = Some c.
Proof.
  unfold charAt. destruct (Z.ltb_spec i 0) as [Hi|Hi]; [discriminate|].
  destruct (s !! Z.to_nat i) as [d|]; simpl; [|discriminate].
  intros [= <-]. eauto.
Qed.

Lemma charAt_None (s : jsstring) (i : Z) :
  charAt s i = None <-> i < 0 \/ lengthOf s <= i.
Proof.
  unfold charAt, lengthOf. destruct (Z.ltb_spec i 0) as [Hi|Hi].
  - split; [auto | done].
  - rewrite fmap_None, lookup_ge_None. lia.
Qed.

Lemma StringCharCodeAt_of_nat (s : jsstring) (i : nat) :
  StringCharCodeAt s (Z.of_nat i) = s !! i.
Proof.
  unfold StringCharCodeAt. destruct (Z.ltb_spec (Z.of_nat i) 0); [lia|].
  by rewrite Nat2Z.id.
Qed.

(** ** The constructor *)

Section Constructor.
Variable alphabet : jsstring.

Lemma symbolAt_charAt i c : symbolAt alphabet i c <-> charAt alphabet i = Some [c].
Proof. unfold symbolAt. by rewrite charAt_Some. Qed.

Lemma symbolAt_lt i c : symbolAt alphabet i c -> i < lengthOf alphabet.
Proof. intros [? ?%lookup_lt_Some]. unfold lengthOf. lia. Qed.

Lemma symbolAt_fun i c d : symbolAt alphabet i c -> symbolAt alphabet i d -> c = d.
Proof. intros [_ ?] [_ ?]. congruence. Qed.

Lemma slots_empty : slots alphabet 0 ∅ ∅ ∅.
Proof.
  split.
  - unfold lengthOf. lia.
  - simpl. constructor.
  - intros k v. rewrite lookup_empty. split; [done|]. intros (c & _ & ? & [? _]). lia.
  - intros k v. rewrite lookup_empty. split; [done|]. intros (c & _ & ? & [? _]). lia.
  - intros k v. rewrite lookup_empty. split; [done|]. intros (c & _ & ? & [? _]). lia.
Qed.

Lemma in_prefix i c :
  0 <= i -> c ∈ take (Z.to_nat i) alphabet <-> exists v, v < i /\ symbolAt alphabet v c.
Proof.
  intros Hi. rewrite elem_of_take. split.
  - intros (n & Hn & Hlt). exists (Z.of_nat n). split; [lia|].
    split; [lia|]. by rewrite Nat2Z.id.
  - intros (v & Hlt & Hv & Hc). exists (Z.to_nat v). split; [done|lia].
Qed.

Lemma slots_step i c al bm bml :
  slots alphabet i al bm bml -> symbolAt alphabet i c -> c ∉ take (Z.to_nat i) alphabet ->
  slots alphabet (i + 1) (MapSet al (Some [c]) i) (MapSet bm (Some i) c) (MapSet bml (Some c) i).
Proof.
  intros [Hr Hnd Hal Hbm Hbml] Hc Hfresh.
  pose proof (symbolAt_lt _ _ Hc) as Hlt.
  assert (Hnew : forall v d, v < i -> symbolAt alphabet v d -> d <> c).
  { intros v d Hv Hd ->. apply Hfresh. apply in_prefix; [lia|]. eauto. }
  unfold MapSet. split.
  - lia.
  - replace (Z.to_nat (i + 1)) with (S (Z.to_nat i)) by lia.
    rewrite (take_S_r _ _ c) by apply Hc.
    apply NoDup_app. split; [done|]. split; [|apply NoDup_singleton].
    intros x Hx ->%list_elem_of_singleton. done.
  - intros k v. rewrite lookup_insert_Some, Hal. split.
    + intros [[<- <-]|[_ (d & -> & Hv & Hd)]].
      * exists c. split; [done|]. split; [lia|done].
      * exists d. split; [done|]. split; [lia|done].
    + intros (d & -> & Hv & Hd). destruct (decide (v = i)) as [->|Hne].
      * left. by rewrite (symbolAt_fun _ _ _ Hc Hd).
      * right. split.
        -- intros [= <-]. apply (Hnew v c); [lia|done|done].
        -- exists d. split; [done|]. split; [lia|done].
  - intros k v. rewrite lookup_insert_Some, Hbm. split.
    + intros [[<- <-]|[_ (j & -> & Hj & Hd)]].
      * exists i. split; [done|]. split; [lia|done].
      * exists j. split; [done|]. split; [lia|done].
    + intros (j & -> & Hj & Hd). destruct (decide (j = i)) as [->|Hne].
      * left. by rewrite (symbolAt_fun _ _ _ Hc Hd).
      * right. split; [congruence|].
        exists j. split; [done|]. split; [lia|done].
  - intros k v. rewrite lookup_insert_Some, Hbml. split.
    + intros [[<- <-]|[_ (d & -> & Hv & Hd)]].
      * exists c. split; [done|]. split; [lia|done].
      * exists d. split; [done|]. split; [lia|done].
    + intros (d & -> & Hv & Hd). destruct (decide (v = i)) as [->|Hne].
      * left. by rewrite (symbolAt_fun _ _ _ Hc Hd).
      * right. split.
        -- intros [= <-]. apply (Hnew v c); [lia|done|done].
        -- exists d. split; [done|]. split; [lia|done].
Qed.

Lemma StringCharCodeAt_symbolAt i c : symbolAt alphabet i c -> StringCharCodeAt alphabet i = Some c.
Proof.
  intros [Hi Hc]. unfold StringCharCodeAt.
  destruct (Z.ltb_spec i 0); [lia|done].
Qed.

Lemma StringCharCodeAt_None i :
  charAt alphabet i = None -> StringCharCodeAt alphabet i = None.
Proof.
  unfold charAt, StringCharCodeAt. destruct (i <? 0); [done|].
  by intros ->%fmap_None.
Qed.

Lemma constructorLoop_spec n : forall i al bm bml,
  slots alphabet i al bm bml -> i + Z.of_nat n = 58 ->
  match constructorLoop n alphabet i al bm bml with
  | Return target =>
      Alphabet target = alphabet /\
      slots alphabet 58 (AlphabetLookup target) (BaseMap target) (BaseMapLookup target) /\
      (forall j c, i <= j < 58 -> symbolAt alphabet j c -> IsBase58CharCode (Some c) = true)
  | Throw e => e = RangeError "Invalid alphabet" /\ exists j, i <= j < 58 /\ rejectedAt alphabet j
  | Diverge => False
  end.
Proof.
  induction n as [|n IH]; intros i al bm bml Hs Hn; simpl.
  - assert (i = 58) as -> by lia. split; [done|]. split; [done|].
    intros j c Hj _. lia.
  - pose proof (slots_range _ _ _ _ _ Hs) as Hr.
    destruct (charAt alphabet i) as [k|] eqn:Hk.
    + apply charAt_inv in Hk as (c & -> & Hi & Hc).
      assert (Hsym : symbolAt alphabet i c) by done.
      unfold MapHas. case_bool_decide as Hhas.
      * split; [done|]. exists i. split; [lia|]. right. exists c. split; [done|].
        right. destruct Hhas as [v Hv].
        apply (slots_alphabetLookup _ _ _ _ _ Hs) in Hv as (d & [= <-] & Hlt & Hd).
        apply in_prefix; [lia|]. eauto.
      * rewrite (StringCharCodeAt_symbolAt _ _ Hsym).
        destruct (IsBase58CharCode (Some c)) eqn:Hok; simpl.
        -- assert (Hfresh : c ∉ take (Z.to_nat i) alphabet).
           { intros (v & Hlt & Hv)%in_prefix; [|lia]. apply Hhas. exists v.
             apply (slots_alphabetLookup _ _ _ _ _ Hs). eauto. }
           specialize (IH (i + 1) _ _ _ (slots_step _ _ _ _ _ Hs Hsym Hfresh)).
           destruct (constructorLoop n alphabet (i + 1) _ _ _) as [target|e|].
           ++ destruct IH as (Ha & Hs' & Hall); [lia|]. split; [done|]. split; [done|].
              intros j d Hj Hd. destruct (decide (j = i)) as [->|Hne].
              ** by rewrite <- (symbolAt_fun _ _ _ Hsym Hd).
              ** apply (Hall j); [lia|done].
           ++ destruct IH as (He & j & Hj & Hrej); [lia|]. split; [done|].
              exists j. split; [lia|done].
           ++ apply IH. lia.
        -- split; [done|]. exists i. split; [lia|]. right. exists c. eauto.
    + unfold MapHas. case_bool_decide as Hhas.
      * destruct Hhas as [v Hv].
        apply (slots_alphabetLookup _ _ _ _ _ Hs) in Hv as (d & [=] & _).
      * rewrite (StringCharCodeAt_None _ Hk). simpl. split; [done|].
        exists i. split; [lia|]. left. apply charAt_None in Hk. lia.
Qed.

End Constructor.

Lemma Base58Encoding_Return alphabet target :
  Base58Encoding alphabet = Return target ->
  validAlphabet alphabet /\ instanceOf alphabet target.
Proof.
  unfold Base58Encoding.
  destruct (bool_decide (lengthOf alphabet = 0) || bool_decide (lengthOf alphabet > 58)) eqn:Hlen;
    [discriminate|].
  apply orb_false_iff in Hlen as [_ Hle%bool_decide_eq_false].
  pose proof (constructorLoop_spec alphabet 58 0 ∅ ∅ ∅ (slots_empty alphabet) eq_refl) as Hspec.
  intros Hret. rewrite Hret in Hspec. destruct Hspec as (Ha & Hs & Hall).
  pose proof (slots_range _ _ _ _ _ Hs) as Hr. unfold lengthOf in *.
  assert (Hl : length alphabet = 58%nat) by lia.
  split; [|done]. split; [done|]. split.
  - pose proof (slots_NoDup _ _ _ _ _ Hs) as Hnd.
    by rewrite take_ge in Hnd by (rewrite Hl; simpl; lia).
  - apply Forall_lookup. intros n c Hc. apply (Hall (Z.of_nat n)).
    { apply lookup_lt_Some in Hc. lia. }
    split; [lia|]. by rewrite Nat2Z.id.
Qed.

Lemma Base58Encoding_complete alphabet :
  validAlphabet alphabet -> exists target, Base58Encoding alphabet = Return target.
Proof.
  intros (Hl & Hnd & Hall). unfold Base58Encoding.
  rewrite orb_false_intro; cycle 1.
  { apply bool_decide_eq_false. unfold lengthOf. lia. }
  { apply bool_decide_eq_false. unfold lengthOf. lia. }
  pose proof (constructorLoop_spec alphabet 58 0 ∅ ∅ ∅ (slots_empty alphabet) eq_refl) as Hspec.
  destruct (constructorLoop 58 alphabet 0 ∅ ∅ ∅) as [target|e|]; [eauto| |done].
  exfalso. destruct Hspec as (_ & j & Hj & [Hlen|(c & Hc & [Hbad|Hdup])]).
  - unfold lengthOf in Hlen. lia.
  - destruct Hc as [_ Hc]. rewrite Forall_lookup in Hall.
    rewrite (Hall _ _ Hc) in Hbad. discriminate.
  - destruct Hc as [_ Hc]. apply elem_of_take in Hdup as (n & Hn & Hlt).
    pose proof (NoDup_lookup _ _ _ _ Hnd Hn Hc). lia.
Qed.

Lemma Base58Encoding_completion alphabet :
  (exists target, Base58Encoding alphabet = Return target) \/
  (exists message, Base58Encoding alphabet = Throw (RangeError message)).
Proof.
  unfold Base58Encoding.
  destruct (bool_decide (lengthOf alphabet = 0) || bool_decide (lengthOf alphabet > 58));
    [eauto|].
  pose proof (constructorLoop_spec alphabet 58 0 ∅ ∅ ∅ (slots_empty alphabet) eq_refl) as Hspec.
  destruct (constructorLoop 58 alphabet 0 ∅ ∅ ∅) as [target|e|]; [eauto| |done].
  destruct Hspec as [-> _]. eauto.
Qed.

Lemma IsBase58CharCode_ranges (c : Z) :
  IsBase58CharCode (Some c) = true <->
  0x31 <= c <= 0x39 \/ 0x41 <= c <= 0x4e \/ 0x50 <= c <= 0x5a \/ 0x61 <= c <= 0x7a.
Proof.
  unfold IsBase58CharCode.
  rewrite !orb_true_iff, !andb_true_iff, !bool_decide_eq_true. lia.
Qed.

(** C3: the constructor does not reject [I] and [l].  [IsBase58CharCode]
    takes the letters from the whole ranges A-N and a-z, so a 58-character
    alphabet that contains [I] and [l], both outside the Base58 ranges
    ([specBase58Char]), is accepted. *)
Lemma alphabet_with_I_and_l_accepted :
  length alphabet_with_I_and_l = 58%nat /\
  0x49 ∈ alphabet_with_I_and_l /\ specBase58Char 0x49 = false /\
  0x6c ∈ alphabet_with_I_and_l /\ specBase58Char 0x6c = false /\
  exists target, Base58Encoding alphabet_with_I_and_l = Return target.
Proof.
  split; [reflexivity|].
  split; [apply (list_elem_of_lookup_2 _ 0%nat); reflexivity|].
  split; [reflexivity|].
  split; [apply (list_elem_of_lookup_2 _ 57%nat); reflexivity|].
  split; [reflexivity|].
  apply Base58Encoding_complete. split; [reflexivity|]. split.
  - apply (bool_decide_unpack (NoDup alphabet_with_I_and_l)). vm_compute. exact I.
  - apply (bool_decide_unpack
             (Forall (fun c => IsBase58CharCode (Some c) = true) alphabet_with_I_and_l)).
    vm_compute. exact I.
Qed.

(** What the constructor does reject: every alphabet with a character
    outside the four ranges of [IsBase58CharCode], among them [0] and [O]. *)
Theorem disallowed_character_rejected (alphabet : jsstring) (c : Z) :
  c ∈ alphabet ->
  ~ (0x31 <= c <= 0x39 \/ 0x41 <= c <= 0x4e \/ 0x50 <= c <= 0x5a \/ 0x61 <= c <= 0x7a) ->
  exists message, Base58Encoding alphabet = Throw (RangeError message).
Proof.
  intros Hc Hbad.
  destruct (Base58Encoding_completion alphabet) as [[target Hret]|]; [|done].
  exfalso. apply Base58Encoding_Return in Hret as [(_ & _ & Hall) _].
  rewrite Forall_forall in Hall. apply Hbad, IsBase58CharCode_ranges, Hall, Hc.
Qed.

Lemma disallowed_character_rejected_witness :
  exists message,
    Base58Encoding (lit "O23456789ABCDEFGHJKLMNPQRSTUVWXYZabcdefghijkmnopqrstuvwxyz")
    = Throw (RangeError message).
Proof.
  apply (disallowed_character_rejected _ 0x4f).
  - apply (list_elem_of_lookup_2 _ 0%nat). reflexivity.
  - lia.
Defined.



(** ** Facts about an instance *)

Section Instance.
Variables (alphabet : jsstring) (target : Target).
Hypothesis Hvalid : validAlphabet alphabet.
Hypothesis Hinst : instanceOf alphabet target.

Lemma symbolAt_total d : 0 <= d < 58 -> exists c, symbolAt alphabet d c.
Proof.
  intros Hd. destruct Hvalid as (Hl & _).
  destruct (lookup_lt_is_Some_2 alphabet (Z.to_nat d)) as [c Hc]; [lia|].
  exists c. split; [lia|done].
Qed.

Lemma symbolAt_range d c : symbolAt alphabet d c -> 0 <= d < 58.
Proof.
  intros Hc. pose proof (symbolAt_lt _ _ _ Hc) as Hlt. destruct Hc as [? _].
  destruct Hvalid as (Hl & _). unfold lengthOf in Hlt. lia.
Qed.

Lemma symbolAt_inj d e c : symbolAt alphabet d c -> symbolAt alphabet e c -> d = e.
Proof.
  intros [Hd Hc] [He Hc']. destruct Hvalid as (_ & Hnd & _).
  pose proof (NoDup_lookup _ _ _ _ Hnd Hc Hc'). lia.
Qed.

Lemma symbolAt_elem c : c ∈ alphabet <-> exists d, symbolAt alphabet d c.
Proof.
  rewrite list_elem_of_lookup. split.
  - intros [n Hn]. exists (Z.of_nat n). split; [lia|]. by rewrite Nat2Z.id.
  - intros (d & _ & Hd). eauto.
Qed.

Lemma Alphabet_eq : Alphabet target = alphabet.
Proof. apply Hinst. Qed.

Lemma AlphabetLookup_Some c d :
  MapGet (AlphabetLookup target) (Some [c]) = Some d <-> symbolAt alphabet d c.
Proof.
  destruct Hinst as [_ Hs]. unfold MapGet. rewrite (slots_alphabetLookup _ _ _ _ _ Hs).
  split.
  - by intros (c' & [= <-] & _ & Hc).
  - intros Hc. exists c. split; [done|]. split; [|done]. apply symbolAt_range in Hc. lia.
Qed.

Lemma AlphabetLookup_None c :
  MapGet (AlphabetLookup target) (Some [c]) = None <-> c ∉ alphabet.
Proof.
  rewrite symbolAt_elem. split.
  - intros Hn (d & Hd%AlphabetLookup_Some). congruence.
  - intros Hn. destruct (MapGet _ _) as [d|] eqn:Hd; [|done].
    exfalso. apply Hn. exists d. by apply AlphabetLookup_Some.
Qed.

Lemma BaseMapLookup_Some c d :
  MapGet (BaseMapLookup target) (Some c) = Some d <-> symbolAt alphabet d c.
Proof.
  destruct Hinst as [_ Hs]. unfold MapGet. rewrite (slots_baseMapLookup _ _ _ _ _ Hs).
  split.
  - by intros (c' & [= <-] & _ & Hc).
  - intros Hc. exists c. split; [done|]. split; [|done]. apply symbolAt_range in Hc. lia.
Qed.

Lemma BaseMapLookup_None c :
  MapGet (BaseMapLookup target) (Some c) = None <-> c ∉ alphabet.
Proof.
  rewrite symbolAt_elem. split.
  - intros Hn (d & Hd%BaseMapLookup_Some). congruence.
  - intros Hn. destruct (MapGet _ _) as [d|] eqn:Hd; [|done].
    exfalso. apply Hn. exists d. by apply BaseMapLookup_Some.
Qed.

Lemma BaseMap_Some d c :
  MapGet (BaseMap target) (Some d) = Some c <-> symbolAt alphabet d c.
Proof.
  destruct Hinst as [_ Hs]. unfold MapGet. rewrite (slots_baseMap _ _ _ _ _ Hs).
  split.
  - by intros (d' & [= <-] & _ & Hc).
  - intros Hc. exists d. split; [done|]. split; [|done]. apply symbolAt_range in Hc. lia.
Qed.

(** No character of an alphabet has code 0, so [MapGet(baseMapLookup, 0)] is
    [undefined]. *)
Lemma BaseMapLookup_zero : MapGet (BaseMapLookup target) (Some 0) = None.
Proof.
  apply BaseMapLookup_None. intros H0. destruct Hvalid as (_ & _ & Hall).
  rewrite Forall_forall in Hall. apply Hall in H0. discriminate.
Qed.

(** The zero symbol. *)
Lemma zeroChar_Some : exists c, charAt alphabet 0 = Some [c] /\ symbolAt alphabet 0 c.
Proof.
  destruct (symbolAt_total 0) as [c Hc]; [lia|]. exists c. split; [|done].
  by apply symbolAt_charAt.
Qed.

(** *** Skipping the leading zeros *)

Lemma countLeading_bound {A} (isZero : A -> bool) (input : list A) :
  0 <= countLeading isZero input <= Z.of_nat (length input).
Proof. induction input as [|x l IH]; simpl; [lia|]. destruct (isZero x); lia. Qed.

Lemma countLeading_false {A} (isZero : A -> bool) (input : list A) :
  (forall x, isZero x = false) -> countLeading isZero input = 0.
Proof. intros Hz. destruct input as [|x l]; simpl; [done|]. by rewrite Hz. Qed.

Lemma countLeading_drop {A} (isZero : A -> bool) (input : list A) (x : A) :
  x ∈ input -> isZero x = false ->
  x ∈ drop (Z.to_nat (countLeading isZero input)) input.
Proof.
  intros Hx Hz. induction input as [|y l IH]; simpl; [done|].
  destruct (isZero y) eqn:Hy.
  - pose proof (countLeading_bound isZero l).
    replace (Z.to_nat (1 + countLeading isZero l))
      with (S (Z.to_nat (countLeading isZero l))) by lia.
    simpl. apply IH. apply elem_of_cons in Hx as [->|Hx]; [congruence|done].
  - done.
Qed.

Lemma not_member_not_zero c :
  c ∉ alphabet -> bool_decide (Some [c] = charAt alphabet 0) = false.
Proof.
  intros Hc. apply bool_decide_eq_false. destruct zeroChar_Some as (z & -> & Hz).
  intros [= ->]. apply Hc, symbolAt_elem. eauto.
Qed.

(** *** The integer decoders *)

Lemma decodeIntLoop_app chars1 chars2 result :
  decodeIntLoop (AlphabetLookup target) (chars1 ++ chars2) result =
  decodeIntLoop (AlphabetLookup target) chars1 result
    ≫= decodeIntLoop (AlphabetLookup target) chars2.
Proof.
  revert result. induction chars1 as [|c l IH]; intros result; simpl; [done|].
  destruct (MapGet _ _); [apply IH|done].
Qed.

Lemma decodeIntLoop_None chars result c :
  c ∈ chars -> c ∉ alphabet ->
  decodeIntLoop (AlphabetLookup target) chars result = None.
Proof.
  intros Hc Hn. revert result. induction chars as [|d l IH]; intros result; simpl.
  - by apply elem_of_nil in Hc.
  - apply elem_of_cons in Hc as [<-|Hc].
    + by rewrite (proj2 (AlphabetLookup_None c) Hn).
    + destruct (MapGet _ _); [by apply IH|done].
Qed.

End Instance.

(** ** The integer codec *)

(** C8: on the empty string and on a string with a character that is not in
    the alphabet, [decodeInt] returns [NaN] and [decodeBigInt] throws. *)
Theorem decodeInt_NaN_decodeBigInt_throws
    (alphabet : jsstring) (this : Target) (encodedInteger : jsstring) :
  Base58Encoding alphabet = Return this ->
  encodedInteger = [] \/ (exists c, c ∈ encodedInteger /\ c ∉ alphabet) ->
  decodeInt this encodedInteger = Return NaN /\
  decodeBigInt this encodedInteger = Throw (RangeError "Invalid Base58 encoded integer").
Proof.
  intros [Hvalid Hinst]%Base58Encoding_Return [->|(c & Hc & Hn)]; [done|].
  unfold decodeInt, decodeBigInt, DecodeInt, DecodeBigInt.
  assert (Hlen : lengthOf encodedInteger <> 0).
  { destruct encodedInteger; [by apply elem_of_nil in Hc|]. unfold lengthOf. simpl. lia. }
  rewrite (bool_decide_eq_false_2 _ Hlen), (Alphabet_eq _ _ Hinst).
  rewrite (decodeIntLoop_None alphabet this Hvalid Hinst _ _ c); [done| |done].
  apply countLeading_drop; [done|]. by apply not_member_not_zero.
Qed.

Lemma decodeInt_NaN_decodeBigInt_throws_witness :
  decodeInt BASIC (lit "2l") = Return NaN /\
  decodeBigInt BASIC (lit "2l") = Throw (RangeError "Invalid Base58 encoded integer").
Proof.
  apply (decodeInt_NaN_decodeBigInt_throws BASIC_alphabet BASIC (lit "2l")).
  - apply BASIC_constructed.
  - right. exists 0x6c. split.
    + apply (list_elem_of_lookup_2 _ 1%nat). reflexivity.
    + apply (bool_decide_unpack (0x6c ∉ BASIC_alphabet)). vm_compute. exact I.
Defined.


(** A negative fraction above -1 is truncated to 0 as well. *)
Lemma encodeInt_minus_half : encodeInt BASIC (Finite (-1 # 2)) = Return (Some (lit "1")).
Proof. vm_compute. reflexivity. Qed.



Section IntegerRoundTrip.
Variables (alphabet : jsstring) (target : Target).
Hypothesis Hvalid : validAlphabet alphabet.
Hypothesis Hinst : instanceOf alphabet target.

(** The digits written by the loop of [EncodeInt], read back by the loop of
    [DecodeInt]; the first of them is not the zero symbol. *)
Lemma encodeIntLoop_spec fuel : forall carry result,
  0 <= carry < 2 ^ (Z.of_nat fuel - 1) ->
  exists s,
    encodeIntLoop fuel alphabet carry result = Return (s ++ result) /\
    (forall acc, decodeIntLoop (AlphabetLookup target) s acc
                 = Some (acc * 58 ^ Z.of_nat (length s) + carry)) /\
    (0 < carry -> exists c rest, s = c :: rest /\ Some [c] <> charAt alphabet 0) /\
    (carry = 0 -> s = []).
Proof.
  induction fuel as [|fuel IH]; intros carry result Hc.
  { simpl in Hc. lia. }
  simpl encodeIntLoop. destruct (decide (carry = 0)) as [->|Hz].
  { rewrite bool_decide_eq_false_2 by tauto. exists [].
    split; [done|]. split; [|split; [lia|done]].
    intros acc. simpl. f_equal. lia. }
  rewrite bool_decide_eq_true_2 by done.
  assert (Hpos : 0 < carry) by lia.
  rewrite Z.rem_mod_nonneg by lia.
  pose proof (Z.mod_pos_bound carry 58 eq_refl) as Hd.
  pose proof (Z.div_mod carry 58 ltac:(lia)) as Hdm.
  destruct (symbolAt_total alphabet Hvalid (carry `mod` 58) Hd) as [c Hsym].
  rewrite (proj1 (symbolAt_charAt _ _ _) Hsym). simpl ToStringV.
  assert (Hfuel : 0 < Z.of_nat fuel).
  { destruct fuel; [simpl in Hc|]; lia. }
  destruct (IH (carry `div` 58) ([c] ++ result)) as (s & Hs & Hdec & Hhead & Hnil).
  { split; [apply Z.div_pos; lia|].
    apply Z.div_lt_upper_bound; [lia|].
    replace (Z.of_nat (S fuel) - 1) with (Z.succ (Z.of_nat fuel - 1)) in Hc by lia.
    rewrite Z.pow_succ_r in Hc by lia. lia. }
  exists (s ++ [c]). split; [by rewrite <- app_assoc|]. split; [|split; [|lia]].
  - intros acc. rewrite decodeIntLoop_app, Hdec. simpl.
    rewrite (proj2 (AlphabetLookup_Some alphabet target Hvalid Hinst _ _) Hsym).
    f_equal. rewrite length_app, Nat2Z.inj_add. simpl length.
    rewrite Z.pow_add_r, Z.pow_1_r by lia. lia.
  - intros _. destruct (decide (carry `div` 58 = 0)) as [Hq|Hq].
    + rewrite (Hnil Hq). exists c, []. split; [done|].
      destruct (zeroChar_Some alphabet Hvalid) as (z & -> & Hzero). intros [= ->].
      pose proof (symbolAt_inj alphabet Hvalid _ _ _ Hsym Hzero). lia.
    + destruct Hhead as (c' & rest & -> & Hne).
      { pose proof (Z.div_pos carry 58). lia. }
      exists c', (rest ++ [c]). done.
Qed.

Lemma digitFuel_enough integer :
  0 < integer -> 0 <= integer < 2 ^ (Z.of_nat (digitFuel integer) - 1).
Proof.
  intros Hpos. unfold digitFuel.
  pose proof (Z.log2_nonneg integer).
  replace (Z.of_nat (Z.to_nat (Z.log2 integer) + 2) - 1) with (Z.succ (Z.log2 integer)) by lia.
  pose proof (Z.log2_spec integer Hpos). lia.
Qed.

Lemma DecodeInt_EncodeInt integer :
  0 <= integer ->
  exists s, EncodeInt target integer = Return (Some s) /\
            DecodeInt target s = Return (Integer integer).
Proof.
  intros Hnn. unfold EncodeInt, DecodeInt. rewrite (Alphabet_eq _ _ Hinst).
  destruct (zeroChar_Some alphabet Hvalid) as (z & Hz & Hzero).
  case_bool_decide as H0.
  - subst integer. rewrite Hz. exists [z]. split; [done|].
    simpl. rewrite bool_decide_eq_true_2 by done. done.
  - destruct (encodeIntLoop_spec (digitFuel integer) integer [])
      as (s & Hs & Hdec & Hhead & _).
    { apply digitFuel_enough. lia. }
    rewrite Hs, app_nil_r. simpl. exists s. split; [done|].
    destruct Hhead as (c & rest & -> & Hne); [lia|].
    rewrite bool_decide_eq_false_2 by (unfold lengthOf; simpl; lia).
    simpl countLeading. rewrite bool_decide_eq_false_2 by done. simpl drop.
    by rewrite Hdec, Z.mul_0_l, Z.add_0_l.
Qed.

End IntegerRoundTrip.

(** C7: [decodeInt(encodeInt(n)) = n] for every integer [n] from 0 to
    [Number.MAX_SAFE_INTEGER] (the integers on which the arithmetic of
    Numbers is exact), and [encodeInt(0)] is the symbol of digit 0. *)
Theorem decodeInt_encodeInt (alphabet : jsstring) (this : Target) (n : Z) :
  Base58Encoding alphabet = Return this ->
  0 <= n <= 2 ^ 53 - 1 ->
  (exists s, encodeInt this (Integer n) = Return (Some s) /\
             decodeInt this s = Return (Integer n)) /\
  (exists zero, alphabet !! 0%nat = Some zero /\
                encodeInt this (Integer 0) = Return (Some [zero])).
Proof.
  intros [Hvalid Hinst]%Base58Encoding_Return Hn. split.
  - unfold encodeInt, decodeInt, Integer, inject_Z, ToIntegerOrInfinity. simpl.
    rewrite Z.quot_1_r, bool_decide_eq_false_2 by lia.
    apply (DecodeInt_EncodeInt alphabet); [done|done|lia].
  - destruct (zeroChar_Some alphabet Hvalid) as (z & Hz & _ & Hzero).
    exists z. split; [done|].
    unfold encodeInt, EncodeInt. simpl. by rewrite (Alphabet_eq _ _ Hinst), Hz.
Qed.

Lemma decodeInt_encodeInt_witness :
  (exists s, encodeInt BASIC (Integer 2024) = Return (Some s) /\
             decodeInt BASIC s = Return (Integer 2024)) /\
  (exists zero, BASIC_alphabet !! 0%nat = Some zero /\
                encodeInt BASIC (Integer 0) = Return (Some [zero])).
Proof.
  apply (decodeInt_encodeInt BASIC_alphabet BASIC 2024).
  - apply BASIC_constructed.
  - lia.
Defined.

(** ** Capacities are not negative *)

Lemma least_power_ge fuel b x : forall k, k <= least_power fuel b x k.
Proof.
  induction fuel as [|fuel IH]; intros k; simpl; [lia|].
  destruct (x <=? b ^ k); [lia|]. specialize (IH (k + 1)). lia.
Qed.

(** Rounding moves a number by at most one part in [2 ^ 52]. *)
Lemma roundToDouble_spec N e :
  0 <= N ->
  exists s q, 0 <= s /\ 0 <= q /\ roundToDouble N e = mkDouble q (e + s) /\
    2 ^ 52 * (N - q * 2 ^ s) <= N /\ 2 ^ 52 * (q * 2 ^ s - N) <= N.
Proof.
  intros HN. unfold roundToDouble.
  destruct (Z.leb_spec (Z.log2 N + 1 - 53) 0) as [Hs|Hs].
  - exists 0, N. rewrite Z.add_0_r, Z.pow_0_r. repeat split; lia.
  - set (s := Z.log2 N + 1 - 53) in *.
    assert (Hpos : 0 < N).
    { destruct (Z.eq_dec N 0) as [->|]; [|lia]. unfold s in Hs. simpl in Hs. lia. }
    pose proof (Z.log2_spec N Hpos) as [Hlow _].
    replace (Z.log2 N) with (s + 52) in Hlow by (unfold s; lia).
    rewrite Z.pow_add_r in Hlow by lia.
    assert (H2s : 0 < 2 ^ s) by (apply Z.pow_pos_nonneg; lia).
    pose proof (Z.div_mod N (2 ^ s) ltac:(lia)) as Hdm.
    pose proof (Z.mod_pos_bound N (2 ^ s) H2s) as Hr.
    assert (Hq : 0 <= N / 2 ^ s) by (apply Z.div_pos; lia).
    set (up := (2 ^ (s - 1) <? N mod 2 ^ s)
               || ((N mod 2 ^ s =? 2 ^ (s - 1)) && Z.odd (N / 2 ^ s))).
    exists s, (if up then N / 2 ^ s + 1 else N / 2 ^ s).
    split; [lia|]. split; [destruct up; lia|]. split; [reflexivity|].
    destruct up; nia.
Qed.

(** [MathCeil] is the ceiling, on a scale of [2 ^ E] that makes the double an
    integer. *)
Lemma MathCeil_spec q x E :
  0 <= q -> 0 <= E -> 0 <= x + E ->
  q * 2 ^ (x + E) <= MathCeil (mkDouble q x) * 2 ^ E /\
  (MathCeil (mkDouble q x) - 1) * 2 ^ E < q * 2 ^ (x + E).
Proof.
  intros Hq HE Hx. unfold MathCeil. cbn [mantissa exponent].
  assert (HE2 : 0 < 2 ^ E) by (apply Z.pow_pos_nonneg; lia).
  destruct (Z.leb_spec 0 x) as [Hx0|Hx0].
  - rewrite Z.pow_add_r by lia. nia.
  - assert (HD : 0 < 2 ^ (- x)) by (apply Z.pow_pos_nonneg; lia).
    replace (2 ^ E) with (2 ^ (- x) * 2 ^ (x + E)) in *
      by (rewrite <- Z.pow_add_r by lia; f_equal; lia).
    assert (HR : 0 < 2 ^ (x + E)) by (apply Z.pow_pos_nonneg; lia).
    pose proof (Z.div_mod (- q) (2 ^ (- x)) ltac:(lia)) as Hdm.
    pose proof (Z.mod_pos_bound (- q) (2 ^ (- x)) HD) as Hr.
    set (c := - (- q / 2 ^ (- x))) in *.
    assert (H1 : q <= c * 2 ^ (- x)) by (unfold c; nia).
    assert (H2 : (c - 1) * 2 ^ (- x) < q) by (unfold c; nia).
    split; nia.
Qed.

(** The ceiling of the rounded product of a length [n] and a factor
    [m * 2 ^ - E]. *)
Lemma capacity_bounds (n m E : Z) :
  0 <= n -> 0 <= m -> 0 <= E ->
  let c := MathCeil (multiply (ofInteger n) (mkDouble m (- E))) in
  (2 ^ 52 - 1) * (n * m) <= 2 ^ 52 * (c * 2 ^ E) /\
  2 ^ 52 * ((c - 1) * 2 ^ E) < (2 ^ 52 + 1) * (n * m).
Proof.
  intros Hn Hm HE c. unfold multiply, ofInteger in c. cbn [mantissa exponent] in c.
  destruct (roundToDouble_spec (n * m) (0 + - E) ltac:(nia))
    as (s & q & Hs & Hq & Hround & Hlo & Hhi).
  subst c. rewrite Hround.
  destruct (MathCeil_spec q (0 + - E + s) E Hq HE ltac:(lia)) as [Hc1 Hc2].
  replace (0 + - E + s + E) with s in * by lia.
  set (c := MathCeil _) in *.
  assert (0 < 2 ^ E) by (apply Z.pow_pos_nonneg; lia).
  split; [lia|].
  destruct (Z.eq_dec (n * m) 0) as [H0|H0]; [|lia].
  rewrite H0 in *. assert (q * 2 ^ s = 0) by lia. lia.
Qed.

Lemma FACTOR_value : FACTOR = mkDouble 0x15d9bc73ac2288 (- 52).
Proof. vm_compute. reflexivity. Qed.

Lemma INVERSE_FACTOR_value : INVERSE_FACTOR = mkDouble 0x176e9291eaa65b (- 53).
Proof. vm_compute. reflexivity. Qed.

Lemma GetCapacity_nonneg length : 0 <= length -> 0 <= GetCapacity length.
Proof.
  intros Hn. unfold GetCapacity. rewrite FACTOR_value.
  destruct (capacity_bounds length 0x15d9bc73ac2288 52 Hn ltac:(lia) ltac:(lia)) as [Hlo _].
  set (c := MathCeil _) in *. lia.
Qed.

(** [FACTOR] is above 1, rounding included. *)
Lemma GetCapacity_gt length : 1 <= length -> length < GetCapacity length.
Proof.
  intros Hn. unfold GetCapacity. rewrite FACTOR_value.
  destruct (capacity_bounds length 0x15d9bc73ac2288 52 ltac:(lia) ltac:(lia) ltac:(lia))
    as [Hlo _].
  set (c := MathCeil _) in *. lia.
Qed.

Lemma GetInverseCapacity_nonneg length : 0 <= length -> 0 <= GetInverseCapacity length.
Proof.
  intros Hn. unfold GetInverseCapacity. rewrite INVERSE_FACTOR_value.
  destruct (capacity_bounds length 0x176e9291eaa65b 53 Hn ltac:(lia) ltac:(lia)) as [Hlo _].
  set (c := MathCeil _) in *. lia.
Qed.

(** [INVERSE_FACTOR] is below 1, rounding included. *)
Lemma GetInverseCapacity_le length : 0 <= length -> GetInverseCapacity length <= length.
Proof.
  intros Hn. unfold GetInverseCapacity. rewrite INVERSE_FACTOR_value.
  destruct (capacity_bounds length 0x176e9291eaa65b 53 Hn ltac:(lia) ltac:(lia)) as [_ Hhi].
  set (c := MathCeil _) in *. lia.
Qed.

(** ** The decoders reject foreign characters *)

(** The carry loop of the decoders returns: it leaves the buffer after at
    most one round below index 0. *)
Lemma decodeRound_length bytes carry index :
  length (decodeRound bytes carry index).1 = length bytes.
Proof.
  unfold decodeRound. destruct (get bytes index); [|done]. simpl.
  unfold set. destruct (index <? 0); [done|]. apply length_insert.
Qed.

Lemma decodeRound_outside bytes carry index :
  index < 0 -> (decodeRound bytes carry index).2 = 0.
Proof.
  intros Hi. unfold decodeRound, get. by destruct (Z.ltb_spec index 0); [|lia].
Qed.

Lemma decodeCarry_returns fuel : forall bytes offset carry index,
  -1 <= offset ->
  -1 <= index \/ (index = -2 /\ carry = 0) ->
  (Z.to_nat (index + 3) <= fuel)%nat ->
  exists bytes' index',
    decodeCarry fuel bytes offset carry index = Return (bytes', index') /\
    -2 <= index' /\ length bytes' = length bytes.
Proof.
  unfold decodeCarry.
  induction fuel as [|fuel IH]; intros bytes offset carry index Hoff Hidx Hfuel.
  { lia. }
  simpl. destruct (bool_decide (carry <> 0) || bool_decide (index >= offset)) eqn:Hcond.
  - assert (Hi : -1 <= index).
    { destruct Hidx as [?|[-> ->]]; [done|].
      rewrite bool_decide_eq_false_2 in Hcond by tauto.
      rewrite bool_decide_eq_false_2 in Hcond by lia. done. }
    pose proof (decodeRound_length bytes carry index) as Hlen.
    pose proof (decodeRound_outside bytes carry index) as Hout.
    destruct (decodeRound bytes carry index) as [bytes1 carry1]. simpl in Hlen, Hout.
    destruct (IH bytes1 offset carry1 (index - 1)) as (bytes' & index' & -> & ? & Hlen');
      [lia|lia|lia|].
    exists bytes', index'. split; [done|]. split; [done|]. congruence.
  - apply orb_false_iff in Hcond as [_ Hge%bool_decide_eq_false].
    exists bytes, index. split; [done|]. split; [lia|done].
Qed.

Section DecodeRejects.
Variables (alphabet : jsstring) (target : Target).
Hypothesis Hvalid : validAlphabet alphabet.
Hypothesis Hinst : instanceOf alphabet target.

Lemma base58Digit_member c :
  c ∈ alphabet -> exists d, base58Digit (BaseMapLookup target) c = Return d /\ 0 <= d < 58.
Proof.
  intros (d & Hd)%symbolAt_elem. exists d. unfold base58Digit.
  rewrite (proj2 (BaseMapLookup_Some alphabet target Hvalid Hinst _ _) Hd).
  split; [done|]. by apply (symbolAt_range alphabet Hvalid d c).
Qed.

Lemma base58Digit_foreign c :
  c ∉ alphabet ->
  base58Digit (BaseMapLookup target) c = Throw (RangeError "Invalid Base58 encoding").
Proof.
  intros Hc. unfold base58Digit.
  by rewrite (proj2 (BaseMapLookup_None alphabet target Hvalid Hinst _) Hc).
Qed.

Lemma convert_decode_foreign capacity units : forall bytes offset,
  0 <= capacity -> -1 <= offset ->
  (exists c, c ∈ units /\ c ∉ alphabet) ->
  convert (base58Digit (BaseMapLookup target)) decodeCarry capacity units bytes offset
  = Throw (RangeError "Invalid Base58 encoding").
Proof.
  induction units as [|u rest IH]; intros bytes offset Hcap Hoff (c & Hc & Hn).
  { by apply elem_of_nil in Hc. }
  simpl. destruct (decide (u ∈ alphabet)) as [Hu|Hu].
  - destruct (base58Digit_member u Hu) as (d & -> & _). simpl.
    destruct (decodeCarry_returns (carryFuel capacity) bytes offset d (capacity - 1))
      as (bytes' & index' & -> & ? & _); [done|lia|unfold carryFuel; lia|].
    simpl. apply IH; [done|lia|]. exists c. split; [|done].
    apply elem_of_cons in Hc as [->|Hc]; done.
  - by rewrite (base58Digit_foreign u Hu).
Qed.

Lemma decodeStringWork_foreign encodedString :
  (exists c, c ∈ encodedString /\ c ∉ alphabet) ->
  decodeStringWork target encodedString = Throw (RangeError "Invalid Base58 encoding").
Proof.
  intros (c & Hc & Hn). unfold decodeStringWork, run.
  pose proof (countLeading_bound
    (fun c => bool_decide (Some [c] = charAt alphabet 0)) encodedString) as Hcount.
  rewrite (Alphabet_eq _ _ Hinst), convert_decode_foreign; [done| | |].
  - apply GetCapacity_nonneg. lia.
  - pose proof (GetCapacity_nonneg
      (Z.of_nat (length encodedString) -
       countLeading (fun c => bool_decide (Some [c] = charAt alphabet 0)) encodedString)).
    lia.
  - exists c. split; [|done]. apply countLeading_drop; [done|].
    by apply (not_member_not_zero alphabet).
Qed.

End DecodeRejects.

(** C6: a string with a character that is not in the alphabet makes [decode]
    and [decodeToBytes] throw; nothing is returned. *)
Theorem decode_rejects_foreign_character
    (alphabet : jsstring) (this : Target) (encodedString : jsstring) :
  Base58Encoding alphabet = Return this ->
  (exists c, c ∈ encodedString /\ c ∉ alphabet) ->
  decode this encodedString = Throw (RangeError "Invalid Base58 encoding") /\
  decodeToBytes this encodedString = Throw (RangeError "Invalid Base58 encoding").
Proof.
  intros [Hvalid Hinst]%Base58Encoding_Return Hforeign.
  assert (Hlen : lengthOf encodedString <> 0).
  { destruct Hforeign as (c & Hc & _).
    destruct encodedString; [by apply elem_of_nil in Hc|]. unfold lengthOf. simpl. lia. }
  unfold decode, decodeToBytes, Decode, DecodeToBytes.
  rewrite (bool_decide_eq_false_2 _ Hlen).
  by rewrite (decodeStringWork_foreign alphabet this Hvalid Hinst _ Hforeign).
Qed.

Lemma decode_rejects_foreign_character_witness :
  decode BASIC (lit "12l4") = Throw (RangeError "Invalid Base58 encoding") /\
  decodeToBytes BASIC (lit "12l4") = Throw (RangeError "Invalid Base58 encoding").
Proof.
  apply (decode_rejects_foreign_character BASIC_alphabet BASIC (lit "12l4")).
  - apply BASIC_constructed.
  - exists 0x6c. split.
    + apply (list_elem_of_lookup_2 _ 2%nat). reflexivity.
    + apply (bool_decide_unpack (0x6c ∉ BASIC_alphabet)). vm_compute. exact I.
Defined.

(** ** The vector of the README *)

(** C5: with the preset [BASIC], the UTF-8 bytes of the text encode to
    [31GEC6Z1ppWwvCikxA5J7EaPFzPWhoJejFpV], and that string decodes, as
    text, to the text. *)
Theorem BASIC_vector :
  UTF8.encode ave =
    Return (lit "Ave, Darkwolf!" ++ [0xf0; 0x9f; 0x90; 0xba; 0xf0; 0x9f; 0x90; 0xba;
                                     0xf0; 0x9f; 0x90; 0xba]) /\
  encodeText BASIC ave = Return (lit "31GEC6Z1ppWwvCikxA5J7EaPFzPWhoJejFpV") /\
  decodeText BASIC (lit "31GEC6Z1ppWwvCikxA5J7EaPFzPWhoJejFpV") = Return ave.
Proof. split; [|split]; vm_compute; reflexivity. Qed.

Lemma DARKWOLF_vector :
  encodeText DARKWOLF ave = Return (lit "eA642rRAjjNut2bdx1a8k4SF5zFNZi8Wc5jM") /\
  decodeText DARKWOLF (lit "eA642rRAjjNut2bdx1a8k4SF5zFNZi8Wc5jM") = Return ave.
Proof. split; vm_compute; reflexivity. Qed.

(** ** Leading zeros *)

(** The byte decoders never count a leading zero: they look the zero symbol
    up in [baseMapLookup], under the key 0, where [baseMap] has it. *)
Lemma decodeBytesWork_leadingZeros (alphabet : jsstring) (this : Target)
    (source : Uint8Array) (w : Work) :
  Base58Encoding alphabet = Return this ->
  decodeBytesWork this source = Return w ->
  leadingZeros w = 0 /\ capacity w = GetInverseCapacity (TypedArrayLength source).
Proof.
  intros [Hvalid Hinst]%Base58Encoding_Return. unfold decodeBytesWork, run.
  rewrite (BaseMapLookup_zero alphabet this Hvalid Hinst).
  rewrite countLeading_false by (intros b; by apply bool_decide_eq_false).
  rewrite Z.sub_0_r. destruct (convert _ _ _ _ _ _) as [[bytes' offset']|e|]; [|done|done].
  by intros [= <-].
Qed.

(** C1, on the failing inputs.  [decodeBytes(encodeBytes([0, 1]))] is [[1]]:
    the leading zero byte is lost.  [encodeBytesToString([0])] is
    ["1undefined"] (the output loop reads the empty buffer at index -1), which
    [decodeToBytes] turns into eight bytes. *)
Theorem round_trip_fails_on_zero_bytes :
  (encoded ← encodeBytes BASIC [0; 1]; decodeBytes BASIC encoded) = Return [1] /\
  encodeBytesToString BASIC [0] = Return (lit "1undefined") /\
  decodeToBytes BASIC (lit "1undefined") = Return [0; 24; 4; 55; 60; 240; 230; 66].
Proof. split; [|split]; vm_compute; reflexivity. Qed.

(** C2, on the failing input.  Two zero bytes before a 1 are encoded with
    two zero symbols, and the byte decoders give back no zero byte at all. *)
Theorem leading_zeros_lost_by_byte_decoders :
  encodeBytes BASIC [0; 0; 1] = Return (lit "112") /\
  decodeBytes BASIC (lit "112") = Return [1] /\
  decodeBytesToString BASIC (lit "112") = Return [1].
Proof. split; [|split]; vm_compute; reflexivity. Qed.

(** The string decoders do give them back. *)
Lemma leading_zeros_kept_by_string_decoders :
  encodeBytesToString BASIC [0; 0; 1] = Return (lit "112") /\
  decodeToBytes BASIC (lit "112") = Return [0; 0; 1] /\
  decode BASIC (lit "112") = Return [0; 0; 1].
Proof. split; [|split]; vm_compute; reflexivity. Qed.

(** ** Working buffers *)

(** C4, on the failing inputs.  The string decoders size their buffer with
    [GetCapacity]: one symbol gets two cells, where
    [ceil(1 * log 58 / log 256)] is 1.  The byte decoders use
    [GetInverseCapacity], on the whole length: the zero symbol in front of
    ["12"] is not subtracted. *)
Theorem decode_capacity :
  decodeStringWork BASIC (lit "2") = Return (mkWork 0 2 [0; 1] 1) /\
  GetInverseCapacity (1 - 0) = 1 /\
  decodeBytesWork BASIC (lit "12") = Return (mkWork 0 2 [0; 1] 1) /\
  GetInverseCapacity (2 - 1) = 1.
Proof. repeat split; vm_compute; reflexivity. Qed.

(** ** Positional notation *)

Section Positional.
Variable b : Z.
Hypothesis Hb : 1 < b.

Lemma valueOf_acc digits : forall acc,
  foldl (fun acc d => acc * b + d) acc digits
  = acc * b ^ Z.of_nat (length digits) + valueOf b digits.
Proof.
  unfold valueOf. induction digits as [|d l IH]; intros acc; simpl foldl.
  - simpl. lia.
  - rewrite IH, (IH (0 * b + d)). simpl length. rewrite Nat2Z.inj_succ, Z.pow_succ_r by lia. lia.
Qed.

Lemma valueOf_nil : valueOf b [] = 0.
Proof. done. Qed.

Lemma valueOf_cons d digits :
  valueOf b (d :: digits) = d * b ^ Z.of_nat (length digits) + valueOf b digits.
Proof. unfold valueOf at 1. simpl foldl. rewrite valueOf_acc. lia. Qed.

Lemma valueOf_app digits1 digits2 :
  valueOf b (digits1 ++ digits2)
  = valueOf b digits1 * b ^ Z.of_nat (length digits2) + valueOf b digits2.
Proof. unfold valueOf at 1. by rewrite foldl_app, valueOf_acc. Qed.

Lemma valueOf_zeros n : valueOf b (replicate n 0) = 0.
Proof. induction n as [|n IH]; [done|]. simpl replicate. rewrite valueOf_cons, IH. lia. Qed.

Lemma valueOf_zeros_app n digits : valueOf b (replicate n 0 ++ digits) = valueOf b digits.
Proof. rewrite valueOf_app, valueOf_zeros. lia. Qed.

Lemma valueOf_bound digits :
  digitsIn b digits -> 0 <= valueOf b digits < b ^ Z.of_nat (length digits).
Proof.
  induction 1 as [|d l Hd _ IH].
  - rewrite valueOf_nil. simpl. lia.
  - rewrite valueOf_cons. simpl length. rewrite Nat2Z.inj_succ, Z.pow_succ_r by lia.
    pose proof (Z.pow_pos_nonneg b (Z.of_nat (length l))). nia.
Qed.

(** The first digit is not 0 exactly when the value needs all the digits. *)
Lemma valueOf_head d digits :
  digitsIn b (d :: digits) ->
  d <> 0 <-> b ^ Z.of_nat (length digits) <= valueOf b (d :: digits).
Proof.
  intros [Hd Hl]%Forall_cons. rewrite valueOf_cons.
  pose proof (valueOf_bound digits Hl).
  pose proof (Z.pow_pos_nonneg b (Z.of_nat (length digits))). nia.
Qed.

Lemma valueOf_inj digits1 : forall digits2,
  length digits1 = length digits2 ->
  digitsIn b digits1 -> digitsIn b digits2 ->
  valueOf b digits1 = valueOf b digits2 -> digits1 = digits2.
Proof.
  induction digits1 as [|d1 l1 IH]; intros [|d2 l2] Hlen H1 H2 Hv; try done.
  apply Forall_cons in H1 as [Hd1 H1]. apply Forall_cons in H2 as [Hd2 H2].
  injection Hlen as Hlen. rewrite !valueOf_cons, Hlen in Hv.
  pose proof (valueOf_bound l1 H1) as B1. pose proof (valueOf_bound l2 H2) as B2.
  rewrite Hlen in B1.
  assert (d1 = d2) as -> by nia.
  f_equal. apply IH; [done|done|done|lia].
Qed.

(** A number has one canonical notation. *)
Lemma canonical_unique digits1 digits2 :
  digitsIn b digits1 -> digitsIn b digits2 ->
  canonical digits1 -> canonical digits2 ->
  valueOf b digits1 = valueOf b digits2 -> digits1 = digits2.
Proof.
  intros H1 H2 C1 C2 Hv. apply valueOf_inj; [|done|done|done].
  pose proof (valueOf_bound _ H1) as B1. pose proof (valueOf_bound _ H2) as B2.
  destruct digits1 as [|d1 l1], digits2 as [|d2 l2]; simpl in *.
  - done.
  - apply (valueOf_head d2 l2 H2) in C2. rewrite valueOf_nil in *.
    pose proof (Z.pow_pos_nonneg b (Z.of_nat (length l2))). lia.
  - apply (valueOf_head d1 l1 H1) in C1. rewrite valueOf_nil in *.
    pose proof (Z.pow_pos_nonneg b (Z.of_nat (length l1))). lia.
  - apply (valueOf_head d1 l1 H1) in C1. apply (valueOf_head d2 l2 H2) in C2.
    f_equal. rewrite Hv in *.
    destruct (decide (length l1 = length l2)) as [|Hne]; [done|exfalso].
    destruct (decide (length l1 < length l2)%nat).
    + assert (b ^ Z.of_nat (S (length l1)) <= b ^ Z.of_nat (length l2))
        by (apply Z.pow_le_mono_r; lia). lia.
    + assert (b ^ Z.of_nat (S (length l2)) <= b ^ Z.of_nat (length l1))
        by (apply Z.pow_le_mono_r; lia). lia.
Qed.

End Positional.

(** ** The carry loop

    One run of the loop multiplies the number in the buffer by the input base
    and adds the new unit, provided the result fits in the buffer.  [old] is
    the buffer on entry, zero below [off]; the cells above the current index
    have been rewritten into [done]. *)

Section CarryLoop.
Variables (Bin Bout : Z) (round : Uint8Array -> Z -> Z -> Uint8Array * Z).
Hypothesis HBin : 1 < Bin.
Hypothesis HBout : 1 < Bout.
Hypothesis round_spec : forall bytes carry (i : nat) cell,
  bytes !! i = Some cell -> 0 <= cell < Bout -> 0 <= carry < Bin ->
  round bytes carry (Z.of_nat i)
  = (<[i := (carry + cell * Bin) `mod` Bout]> bytes, (carry + cell * Bin) `div` Bout).

Lemma carryLoop_spec (old : list Z) (off : nat) (u : Z) :
  digitsIn Bout old ->
  take off old = replicate off 0 ->
  valueOf Bout old * Bin + u < Bout ^ Z.of_nat (length old) ->
  forall (n fuel : nat) (done : list Z) (carry : Z),
    (n + length done = length old)%nat ->
    digitsIn Bout done -> 0 <= carry < Bin ->
    valueOf Bout done + carry * Bout ^ Z.of_nat (length done)
      = valueOf Bout (drop n old) * Bin + u ->
    ((n < off)%nat -> carry = 0 -> exists d rest, done = d :: rest /\ d <> 0) ->
    (n < fuel)%nat ->
    exists (n' : nat) (done' : list Z),
      carryLoop round fuel (take n old ++ done) (Z.of_nat off) carry (Z.of_nat n - 1)
        = Return (replicate n' 0 ++ done', Z.of_nat n' - 1) /\
      (n' <= off)%nat /\ (n' <= n)%nat /\ (n' + length done' = length old)%nat /\
      digitsIn Bout done' /\
      valueOf Bout done' = valueOf Bout old * Bin + u /\
      ((n' < off)%nat -> exists d rest, done' = d :: rest /\ d <> 0).
Proof.
  intros Hold Hzero Hfits.
  assert (Hprefix : forall k, (k <= off)%nat -> take k old = replicate k 0).
  { intros k Hk. by rewrite <- (Nat.min_l k off Hk), <- take_take, Hzero, take_replicate. }
  assert (Hwhole : forall k, (k <= off)%nat -> valueOf Bout (drop k old) = valueOf Bout old).
  { intros k Hk. rewrite <- (take_drop k old) at 2.
    by rewrite (Hprefix k Hk), valueOf_zeros_app. }
  induction n as [|m IH]; intros fuel done carry Hlen Hdone Hcarry Hval Htop Hfuel;
    (destruct fuel as [|fuel]; [lia|]); simpl carryLoop.
  - (* index -1: the carry is gone, or the number would not fit *)
    assert (carry = 0) as ->.
    { destruct (decide (carry = 0)) as [|Hne]; [done|exfalso].
      pose proof (valueOf_bound Bout HBout done Hdone) as Hb.
      assert (Hl : length done = length old) by lia.
      rewrite drop_0, Hl in Hval. rewrite Hl in Hb.
      pose proof (Z.pow_pos_nonneg Bout (Z.of_nat (length old))). nia. }
    rewrite bool_decide_eq_false_2 by tauto.
    rewrite bool_decide_eq_false_2 by lia. simpl.
    exists 0%nat, done. split; [done|]. split; [lia|]. split; [lia|]. split; [lia|].
    split; [done|]. split; [|intros; apply Htop; [lia|done]].
    rewrite drop_0 in Hval. lia.
  - destruct (decide (carry = 0 /\ (m < off)%nat)) as [[-> Hm]|Hgo].
    + (* exit *)
      rewrite bool_decide_eq_false_2 by tauto.
      rewrite bool_decide_eq_false_2 by lia. simpl.
      exists (S m), done. rewrite (Hprefix (S m)) by lia.
      replace (Z.pos (Pos.of_succ_nat m)) with (Z.of_nat (S m)) by lia.
      split; [done|]. split; [lia|]. split; [lia|]. split; [lia|]. split; [done|].
      split; [|intros; apply Htop; [lia|done]].
      rewrite <- (Hwhole (S m)) by lia. rewrite <- Hval. lia.
    + (* one round on cell m *)
      rewrite (orb_true_intro (bool_decide _) (bool_decide _)); cycle 1.
      { destruct (decide (carry = 0)) as [->|Hne].
        - right. apply bool_decide_eq_true_2. lia.
        - left. by apply bool_decide_eq_true_2. }
      destruct (lookup_lt_is_Some_2 old m) as [cell Hcell]; [lia|].
      assert (Hrange : 0 <= cell < Bout).
      { unfold digitsIn in Hold. rewrite Forall_lookup in Hold. by apply (Hold m). }
      replace (Z.of_nat (S m) - 1) with (Z.of_nat m) by lia.
      rewrite (round_spec _ carry m cell); [|by rewrite lookup_app_l, lookup_take_lt
        by (rewrite ?length_take; lia)|done|done].
      set (s := carry + cell * Bin).
      assert (Hs : 0 <= s < Bin * Bout) by (unfold s; nia).
      assert (Hnew : <[m := s `mod` Bout]> (take (S m) old ++ done)
                     = take m old ++ s `mod` Bout :: done).
      { rewrite (take_S_r _ _ _ Hcell), <- app_assoc. simpl.
        rewrite insert_app_r_alt by (rewrite length_take; lia).
        rewrite length_take, Nat.min_l by lia. by rewrite Nat.sub_diag. }
      rewrite Hnew.
      pose proof (Z.mod_pos_bound s Bout ltac:(lia)) as Hmod.
      pose proof (Z.div_mod s Bout ltac:(lia)) as Hdm.
      replace (Z.of_nat m - 1) with (Z.of_nat m - 1) by lia.
      destruct (IH fuel (s `mod` Bout :: done) (s `div` Bout))
        as (n' & done' & Hrun & ? & ? & ? & ? & ? & ?).
      * simpl. lia.
      * by apply Forall_cons.
      * split; [apply Z.div_pos; lia|apply Z.div_lt_upper_bound; lia].
      * rewrite valueOf_cons by done. rewrite (drop_S _ _ _ Hcell), valueOf_cons by done.
        rewrite length_drop. simpl length.
        replace (length old - S m)%nat with (length done) by lia.
        rewrite Nat2Z.inj_succ, Z.pow_succ_r by lia.
        unfold s in *. nia.
      * intros Hm Hq. exists (s `mod` Bout), done. split; [done|].
        assert (cell = 0) as ->.
        { pose proof (Hprefix (S m) ltac:(lia)) as Hp.
          apply (f_equal (fun l => l !! m)) in Hp.
          rewrite lookup_take_lt, Hcell, lookup_replicate_2 in Hp by lia. congruence. }
        assert (carry <> 0) by (intros ->; apply Hgo; split; [done|lia]).
        unfold s in *. lia.
      * lia.
      * exists n', done'. rewrite Hrun. repeat split; try done. lia.
Qed.

End CarryLoop.

(** *** The two rounds *)

Lemma ToInt32_small (z : Z) : - 2 ^ 31 <= z < 2 ^ 31 -> ToInt32 z = z.
Proof. intros Hz. unfold ToInt32. rewrite Z.mod_small; lia. Qed.

Lemma get_of_nat (a : list Z) (i : nat) : get a (Z.of_nat i) = a !! i.
Proof. unfold get. destruct (Z.ltb_spec (Z.of_nat i) 0); [lia|]. by rewrite Nat2Z.id. Qed.

Lemma set_of_nat (a : list Z) (i : nat) (v : Z) :
  0 <= v < 256 -> set a (Z.of_nat i) v = <[i := v]> a.
Proof.
  intros Hv. unfold set. destruct (Z.ltb_spec (Z.of_nat i) 0); [lia|].
  by rewrite Nat2Z.id, Z.mod_small.
Qed.

Lemma encodeRound_spec (bytes : list Z) (carry : Z) (i : nat) (cell : Z) :
  bytes !! i = Some cell -> 0 <= cell < 58 -> 0 <= carry < 256 ->
  encodeRound bytes carry (Z.of_nat i)
  = (<[i := (carry + cell * 256) `mod` 58]> bytes, (carry + cell * 256) `div` 58).
Proof.
  intros Hcell Hc Hcarry. unfold encodeRound, shl. rewrite get_of_nat, Hcell. simpl ToInt32V.
  rewrite (ToInt32_small cell) by lia.
  rewrite Z.shiftl_mul_pow2 by lia. change (2 ^ 8) with 256.
  rewrite (ToInt32_small (cell * 256)) by lia.
  rewrite Z.rem_mod_nonneg, Z.quot_div_nonneg by lia.
  pose proof (Z.mod_pos_bound (carry + cell * 256) 58 eq_refl).
  assert (0 <= (carry + cell * 256) `div` 58 < 256).
  { split; [apply Z.div_pos; lia|apply Z.div_lt_upper_bound; lia]. }
  rewrite set_of_nat, ToInt32_small by lia. done.
Qed.

Lemma decodeRound_spec (bytes : list Z) (carry : Z) (i : nat) (cell : Z) :
  bytes !! i = Some cell -> 0 <= cell < 256 -> 0 <= carry < 58 ->
  decodeRound bytes carry (Z.of_nat i)
  = (<[i := (carry + cell * 58) `mod` 256]> bytes, (carry + cell * 58) `div` 256).
Proof.
  intros Hcell Hc Hcarry. unfold decodeRound, band, shr. rewrite get_of_nat, Hcell.
  rewrite (ToInt32_small (carry + cell * 58)), (ToInt32_small 255) by lia.
  change 255 with (Z.ones 8). rewrite Z.land_ones, Z.shiftr_div_pow2 by lia.
  change (2 ^ 8) with 256.
  pose proof (Z.mod_pos_bound (carry + cell * 58) 256 eq_refl).
  by rewrite set_of_nat by lia.
Qed.

(** ** The [for] loop *)

Section Convert.
Variables (Bin Bout : Z) (round : Uint8Array -> Z -> Z -> Uint8Array * Z).
Hypothesis HBin : 1 < Bin.
Hypothesis HBout : 1 < Bout.
Hypothesis round_spec : forall bytes carry (i : nat) cell,
  bytes !! i = Some cell -> 0 <= cell < Bout -> 0 <= carry < Bin ->
  round bytes carry (Z.of_nat i)
  = (<[i := (carry + cell * Bin) `mod` Bout]> bytes, (carry + cell * Bin) `div` Bout).
Context {A : Type} (digit : A -> Completion Z).

Lemma digitsIn_zeros_app n used :
  digitsIn Bout used -> digitsIn Bout (replicate n 0 ++ used).
Proof.
  intros Hu. apply Forall_app. split; [|done].
  apply Forall_replicate. lia.
Qed.

Lemma one_round_spec (cap : nat) (V d : Z) (bytes : list Z) (offset : Z) :
  buffer Bout cap V bytes offset -> 0 <= d < Bin ->
  V * Bin + d < Bout ^ Z.of_nat cap ->
  exists bytes' index',
    carryLoop round (carryFuel (Z.of_nat cap)) bytes offset d (Z.of_nat cap - 1)
      = Return (bytes', index') /\
    buffer Bout cap (V * Bin + d) bytes' (index' + 1).
Proof.
  intros (off & used & -> & -> & Hlen & Hoff & Hused & HV & Hzero & Htop) Hd Hfits.
  set (old := replicate off 0 ++ used).
  assert (Hold : length old = cap) by (unfold old; rewrite length_app, length_replicate; lia).
  assert (Hval : valueOf Bout old = V) by (unfold old; by rewrite valueOf_zeros_app).
  destruct (carryLoop_spec Bin Bout round HBin HBout round_spec old off d) with
    (n := cap) (fuel := carryFuel (Z.of_nat cap)) (done := @nil Z) (carry := d)
    as (n' & done' & Hrun & Hn' & _ & Hlen' & Hdone' & Hval' & Htop').
  - by apply digitsIn_zeros_app.
  - unfold old. by rewrite take_app_length' by (by rewrite length_replicate).
  - by rewrite Hold, Hval.
  - simpl. lia.
  - constructor.
  - done.
  - rewrite drop_ge by lia. rewrite !valueOf_nil. simpl. lia.
  - lia.
  - unfold carryFuel. lia.
  - rewrite take_ge, app_nil_r in Hrun by lia.
    exists (replicate n' 0 ++ done'), (Z.of_nat n' - 1). split; [done|].
    exists n', done'. rewrite Hval' , Hval.
    pose proof (valueOf_bound Bout HBout _ Hused) as Hb. rewrite HV in Hb.
    split; [lia|]. split; [done|]. split; [lia|]. split; [lia|]. split; [done|].
    split; [done|]. split.
    + intros H0. assert (V = 0) by nia. destruct (decide (n' < off)%nat) as [Hlt|]; [|lia].
      destruct (Htop' Hlt) as (h & rest & -> & Hh).
      apply (proj1 (valueOf_head Bout HBout h rest Hdone')) in Hh.
      pose proof (Z.pow_pos_nonneg Bout (Z.of_nat (length rest))). lia.
    + intros Hpos. destruct (decide (n' < off)%nat) as [Hlt|Hge].
      * destruct (Htop' Hlt) as (h & rest & -> & Hh).
        apply (proj1 (valueOf_head Bout HBout h rest Hdone')) in Hh. simpl length.
        replace (Z.of_nat (S (length rest)) - 1) with (Z.of_nat (length rest)) by lia.
        lia.
      * assert (length done' = length used) as -> by lia.
        destruct (decide (V = 0)) as [HV0|HV0].
        -- specialize (Hzero HV0). replace (length used) with 1%nat by lia. simpl. lia.
        -- specialize (Htop ltac:(lia)). nia.
Qed.

Lemma convert_spec (cap : nat) (units : list A) (ds : list Z) :
  reads Bin digit units ds ->
  forall (V : Z) (bytes : list Z) (offset : Z),
    buffer Bout cap V bytes offset ->
    V * Bin ^ Z.of_nat (length ds) + valueOf Bin ds < Bout ^ Z.of_nat cap ->
    exists bytes' offset',
      convert digit (carryLoop round) (Z.of_nat cap) units bytes offset
        = Return (bytes', offset') /\
      buffer Bout cap (V * Bin ^ Z.of_nat (length ds) + valueOf Bin ds) bytes' offset'.
Proof.
  induction 1 as [|u d units ds [Hu Hd] Hrest IH]; intros V bytes offset Hbuf Hfits.
  - simpl. exists bytes, offset. split; [done|].
    rewrite valueOf_nil, Z.mul_1_r, Z.add_0_r. done.
  - simpl length in *. rewrite Nat2Z.inj_succ, Z.pow_succ_r in * by lia.
    rewrite valueOf_cons in * by done.
    pose proof (valueOf_bound Bin HBin ds) as Hb.
    assert (HV : 0 <= V).
    { destruct Hbuf as (off & used & _ & _ & _ & _ & Hused & <- & _).
      by apply valueOf_bound. }
    assert (Hds : digitsIn Bin ds).
    { clear -Hrest. induction Hrest as [|???? []]; constructor; done. }
    specialize (Hb Hds).
    set (P := Bin ^ Z.of_nat (length ds)) in *.
    assert (HP : 1 <= P) by (pose proof (Z.pow_pos_nonneg Bin (Z.of_nat (length ds))); lia).
    destruct (one_round_spec cap V d bytes offset Hbuf Hd) as (bytes1 & index1 & Hrun & Hbuf1).
    { nia. }
    destruct (IH (V * Bin + d) bytes1 (index1 + 1) Hbuf1) as (bytes' & offset' & Hconv & Hbuf').
    { fold P. nia. }
    exists bytes', offset'. simpl convert. rewrite Hu. simpl.
    rewrite Hrun. simpl. rewrite Hconv. split; [done|].
    replace (V * (Bin * P) + (d * P + valueOf Bin ds))
      with ((V * Bin + d) * P + valueOf Bin ds) by lia.
    done.
Qed.

End Convert.

(** ** The exact ceiling *)

Lemma least_power_reaches fuel b x : forall k,
  1 <= b -> 0 <= k -> x <= b ^ (k + Z.of_nat fuel) -> x <= b ^ least_power fuel b x k.
Proof.
  induction fuel as [|fuel IH]; intros k Hb Hk Hx; simpl.
  - by rewrite Z.add_0_r in Hx.
  - destruct (Z.leb_spec x (b ^ k)); [done|].
    apply IH; [done|lia|]. by replace (k + 1 + Z.of_nat fuel) with (k + Z.of_nat (S fuel)) by lia.
Qed.

Lemma least_power_least fuel b x : forall k,
  (forall j, 0 <= j < k -> b ^ j < x) ->
  forall j, 0 <= j < least_power fuel b x k -> b ^ j < x.
Proof.
  induction fuel as [|fuel IH]; intros k Hk; simpl; [done|].
  destruct (Z.leb_spec x (b ^ k)); [done|].
  apply IH. intros j Hj. destruct (decide (j = k)) as [->|]; [done|]. apply Hk. lia.
Qed.

(** [ceil_log_ratio a b n] is the ceiling of [n * log a / log b]: the least
    [k] with [a ^ n <= b ^ k]. *)
Lemma ceil_log_ratio_spec a b n :
  1 < a -> 1 < b -> a <= b ^ 2 -> 0 <= n ->
  a ^ n <= b ^ ceil_log_ratio a b n /\
  forall j, 0 <= j < ceil_log_ratio a b n -> b ^ j < a ^ n.
Proof.
  intros Ha Hb Hab Hn. unfold ceil_log_ratio. split.
  - apply least_power_reaches; [lia|lia|].
    replace (0 + Z.of_nat (2 * Z.to_nat n)) with (2 * n) by lia.
    rewrite Z.pow_mul_r by lia. apply Z.pow_le_mono_l. lia.
  - apply least_power_least. lia.
Qed.

(** The same, with the real logarithm. *)
Lemma ln_pow_Z (a k : Z) :
  0 < a -> 0 <= k -> ln (IZR (a ^ k)) = (IZR k * ln (IZR a))%R.
Proof.
  intros Ha Hk. rewrite <- (Z2Nat.id k Hk) at 1. rewrite <- pow_IZR.
  rewrite ln_pow by (apply IZR_lt; lia). by rewrite INR_IZR_INZ, Z2Nat.id.
Qed.

Lemma ceil_log_ratio_is_ceiling (a b n : Z) :
  1 < a -> 1 < b -> a <= b ^ 2 -> 0 <= n ->
  (IZR (ceil_log_ratio a b n) - 1 < IZR n * (ln (IZR a) / ln (IZR b))
   <= IZR (ceil_log_ratio a b n))%R.
Proof.
  intros Ha Hb Hab Hn.
  destruct (ceil_log_ratio_spec a b n Ha Hb Hab Hn) as [Hle Hleast].
  assert (Hk : 0 <= ceil_log_ratio a b n) by apply least_power_ge.
  set (k := ceil_log_ratio a b n) in *.
  assert (Hlna : (0 < ln (IZR a))%R).
  { rewrite <- ln_1. apply ln_increasing; [lra|]. apply IZR_lt. lia. }
  assert (Hlnb : (0 < ln (IZR b))%R).
  { rewrite <- ln_1. apply ln_increasing; [lra|]. apply IZR_lt. lia. }
  assert (Hpa : (0 < IZR (a ^ n))%R) by (apply IZR_lt, Z.pow_pos_nonneg; lia).
  split.
  - destruct (decide (k = 0)) as [->|Hk0].
    + assert (0 <= IZR n)%R by (apply IZR_le; lia).
      assert (0 <= IZR n * (ln (IZR a) / ln (IZR b)))%R.
      { apply Rmult_le_pos; [done|]. apply Rlt_le, Rdiv_lt_0_compat; done. }
      lra.
    + specialize (Hleast (k - 1) ltac:(lia)).
      assert (Hlt : (ln (IZR (b ^ (k - 1))) < ln (IZR (a ^ n)))%R).
      { apply ln_increasing; [apply IZR_lt, Z.pow_pos_nonneg; lia|by apply IZR_lt]. }
      rewrite !ln_pow_Z in Hlt by lia. rewrite minus_IZR in Hlt.
      apply (Rmult_lt_reg_r (ln (IZR b))); [done|].
      unfold Rdiv. rewrite Rmult_assoc, Rmult_assoc, Rinv_l by lra. lra.
  - assert (Hle' : (ln (IZR (a ^ n)) <= ln (IZR (b ^ k)))%R).
    { destruct (decide (a ^ n = b ^ k)) as [->|Hne]; [lra|].
      apply Rlt_le, ln_increasing; [done|]. apply IZR_lt. lia. }
    rewrite !ln_pow_Z in Hle' by lia.
    apply (Rmult_le_reg_r (ln (IZR b))); [done|].
    unfold Rdiv. rewrite Rmult_assoc, Rmult_assoc, Rinv_l by lra. lra.
Qed.

(** *** Lengths up to 1024

    Up to this length the rounding does no harm: each capacity is the least
    sufficient one, checked length by length. *)

Lemma capacitiesExact_spec a b cap fuel : forall n pa c pb,
  1 <= b -> 0 <= n -> pa = a ^ n -> pb = b ^ c -> 0 <= c -> c = cap n ->
  capacitiesExact a b cap fuel n pa c pb = true ->
  forall m, n < m <= n + Z.of_nat fuel ->
    0 <= cap m /\ a ^ m <= b ^ cap m /\ b ^ cap m < a ^ m * b.
Proof.
  induction fuel as [|fuel IH]; intros n pa c pb Hb Hn Hpa Hpb Hc Hcap Hcheck m Hm; [lia|].
  cbn [capacitiesExact] in Hcheck.
  apply andb_prop in Hcheck as [Hcheck Hrest].
  apply andb_prop in Hcheck as [Hcheck H3].
  apply andb_prop in Hcheck as [H1 H2].
  apply Z.leb_le in H1, H2. apply Z.ltb_lt in H3.
  assert (Hpa' : pa * a = a ^ (n + 1)) by (rewrite Z.pow_add_r, Z.pow_1_r by lia; congruence).
  assert (Hpb' : pb * b ^ (cap (n + 1) - c) = b ^ cap (n + 1)).
  { rewrite Hpb, <- Z.pow_add_r by lia. f_equal. lia. }
  rewrite Hpa', Hpb' in H2, H3, Hrest.
  assert (Hc' : 0 <= cap (n + 1)) by lia.
  destruct (Z.eq_dec m (n + 1)) as [->|Hne].
  - split; [lia|]. split; assumption.
  - apply (IH (n + 1) _ _ _ Hb ltac:(lia) eq_refl eq_refl Hc' eq_refl Hrest). lia.
Qed.

Lemma capacitiesExact_least a b cap (N : nat) :
  1 < b -> 0 < a -> cap 0 = 0 ->
  capacitiesExact a b cap N 0 1 0 1 = true ->
  forall n, 0 <= n <= Z.of_nat N ->
    0 <= cap n /\ a ^ n <= b ^ cap n /\ forall j, 0 <= j < cap n -> b ^ j < a ^ n.
Proof.
  intros Hb Ha H0 Hcheck n Hn.
  destruct (Z.eq_dec n 0) as [->|Hpos].
  { rewrite H0. split; [lia|]. split; [done|]. lia. }
  destruct (capacitiesExact_spec a b cap N 0 1 0 1 ltac:(lia) ltac:(lia) eq_refl eq_refl
              ltac:(lia) (eq_sym H0) Hcheck n ltac:(lia)) as (Hc & Hle & Hlt).
  split; [done|]. split; [done|]. intros j Hj.
  assert (Hpow : b ^ cap n = b ^ (cap n - 1) * b).
  { rewrite <- (Z.pow_1_r b) at 3. rewrite <- Z.pow_add_r by lia. f_equal. lia. }
  assert (b ^ j <= b ^ (cap n - 1)) by (apply Z.pow_le_mono_r; lia).
  assert (0 < a ^ n) by (apply Z.pow_pos_nonneg; lia).
  nia.
Qed.

Lemma GetCapacity_checked : capacitiesExact 256 58 GetCapacity 1024 0 1 0 1 = true.
Proof. vm_compute. reflexivity. Qed.

Lemma GetInverseCapacity_checked :
  capacitiesExact 58 256 GetInverseCapacity 1024 0 1 0 1 = true.
Proof. vm_compute. reflexivity. Qed.

Lemma GetCapacity_least n :
  0 <= n <= 1024 ->
  256 ^ n <= 58 ^ GetCapacity n /\ forall j, 0 <= j < GetCapacity n -> 58 ^ j < 256 ^ n.
Proof.
  intros Hn.
  apply (capacitiesExact_least 256 58 GetCapacity 1024 eq_refl eq_refl eq_refl
           GetCapacity_checked n). lia.
Qed.

Lemma GetInverseCapacity_least n :
  0 <= n <= 1024 ->
  58 ^ n <= 256 ^ GetInverseCapacity n /\
  forall j, 0 <= j < GetInverseCapacity n -> 256 ^ j < 58 ^ n.
Proof.
  intros Hn.
  apply (capacitiesExact_least 58 256 GetInverseCapacity 1024 eq_refl eq_refl eq_refl
           GetInverseCapacity_checked n). lia.
Qed.

(** The least sufficient capacity is the exact ceiling. *)
Lemma ceil_log_ratio_unique a b n c :
  1 < a -> 1 < b -> a <= b ^ 2 -> 0 <= n -> 0 <= c ->
  a ^ n <= b ^ c -> (forall j, 0 <= j < c -> b ^ j < a ^ n) ->
  c = ceil_log_ratio a b n.
Proof.
  intros Ha Hb Hab Hn Hc Hle Hleast.
  destruct (ceil_log_ratio_spec a b n Ha Hb Hab Hn) as [Hle' Hleast'].
  assert (Hk : 0 <= ceil_log_ratio a b n) by apply least_power_ge.
  destruct (Z.lt_trichotomy c (ceil_log_ratio a b n)) as [Hlt|[Heq|Hgt]]; [|done|].
  - specialize (Hleast' c ltac:(lia)). lia.
  - specialize (Hleast (ceil_log_ratio a b n) ltac:(lia)). lia.
Qed.

Lemma GetCapacity_exact n : 0 <= n <= 1024 -> GetCapacity n = ceil_log_ratio 256 58 n.
Proof.
  intros Hn. destruct (GetCapacity_least n Hn) as [Hle Hleast].
  apply ceil_log_ratio_unique; [done|done|done|lia| |done|done].
  apply GetCapacity_nonneg. lia.
Qed.

Lemma GetInverseCapacity_exact n :
  0 <= n <= 1024 -> GetInverseCapacity n = ceil_log_ratio 58 256 n.
Proof.
  intros Hn. destruct (GetInverseCapacity_least n Hn) as [Hle Hleast].
  apply ceil_log_ratio_unique; [done|done|done|lia| |done|done].
  apply GetInverseCapacity_nonneg. lia.
Qed.

Lemma GetCapacity_enough n : 0 <= n <= 1024 -> 256 ^ n <= 58 ^ GetCapacity n.
Proof. intros Hn. by apply GetCapacity_least. Qed.

Lemma GetInverseCapacity_enough n : 0 <= n <= 1024 -> 58 ^ n <= 256 ^ GetInverseCapacity n.
Proof. intros Hn. by apply GetInverseCapacity_least. Qed.

(** *** Every length *)

(** [GetCapacity] is more than the decoders need, at every length. *)
Lemma GetCapacity_enough_to_decode n : 0 <= n -> 58 ^ n <= 256 ^ GetCapacity n.
Proof.
  intros Hn. destruct (decide (n = 0)) as [->|Hpos]; [done|].
  pose proof (GetCapacity_gt n ltac:(lia)).
  transitivity (256 ^ n); [apply Z.pow_le_mono_l; lia|apply Z.pow_le_mono_r; lia].
Qed.

(** For one symbol or more the two capacities differ. *)
Lemma capacities_differ n : 1 <= n -> GetInverseCapacity n <= n < GetCapacity n.
Proof.
  intros Hn. split; [apply GetInverseCapacity_le; lia|by apply GetCapacity_gt].
Qed.

(** Two lengths at which the product rounds to an integer. *)
Lemma capacities_rounded :
  GetCapacity 10837877 = 14800836 /\ GetInverseCapacity 1337982041 = 979734171.
Proof. split; vm_compute; reflexivity. Qed.

(** ** The conversion phase *)

(** What [run] allocates, whatever the input. *)
Lemma run_capacity {A} (isZero : A -> bool) (getCapacity : Z -> Z)
    (digit : A -> Completion Z)
    (loop : nat -> list Z -> Z -> Z -> Z -> Completion (list Z * Z))
    (input : list A) (w : Work) :
  run isZero getCapacity digit loop input = Return w ->
  leadingZeros w = countLeading isZero input /\
  capacity w = getCapacity (Z.of_nat (length input) - leadingZeros w).
Proof.
  unfold run. destruct (convert _ _ _ _ _ _) as [[bytes' offset']|e|]; [|done|done].
  by intros [= <-].
Qed.

(** The string decoders allocate [GetCapacity] cells (for the byte decoders
    see [decodeBytesWork_leadingZeros]). *)
Lemma decodeStringWork_capacity (this : Target) (encodedString : list Z) (w : Work) :
  decodeStringWork this encodedString = Return w ->
  capacity w = GetCapacity (lengthOf encodedString - leadingZeros w).
Proof. intros Hw. by apply run_capacity in Hw as [_ ?]. Qed.

Lemma countLeading_app {A} (isZero : A -> bool) (zeros units : list A) :
  Forall (fun x => isZero x = true) zeros ->
  match units with u :: _ => isZero u = false | [] => True end ->
  countLeading isZero (zeros ++ units) = Z.of_nat (length zeros).
Proof.
  intros Hz Hu. induction Hz as [|z zeros Hz _ IH]; simpl.
  - destruct units as [|u ?]; [done|]. simpl. by rewrite Hu.
  - rewrite Hz, IH. lia.
Qed.

Section Run.
Variables (Bin Bout : Z) (round : Uint8Array -> Z -> Z -> Uint8Array * Z).
Hypothesis HBin : 1 < Bin.
Hypothesis HBout : 1 < Bout.
Hypothesis round_spec : forall bytes carry (i : nat) cell,
  bytes !! i = Some cell -> 0 <= cell < Bout -> 0 <= carry < Bin ->
  round bytes carry (Z.of_nat i)
  = (<[i := (carry + cell * Bin) `mod` Bout]> bytes, (carry + cell * Bin) `div` Bout).
Context {A : Type} (isZero : A -> bool) (getCapacity : Z -> Z) (digit : A -> Completion Z).

(** An input of leading zeros followed by at least one unit, the first of
    which is not a zero: when the buffer is large enough for the units, it
    ends up holding their value. *)
Lemma run_spec (zeros units : list A) (u : A) (rest : list A) (ds : list Z) :
  Forall (fun x => isZero x = true) zeros ->
  units = u :: rest -> isZero u = false ->
  reads Bin digit units ds ->
  Bin ^ Z.of_nat (length units) <= Bout ^ getCapacity (Z.of_nat (length units)) ->
  0 <= getCapacity (Z.of_nat (length units)) ->
  exists bytes' offset',
    run isZero getCapacity digit (carryLoop round) (zeros ++ units)
      = Return (mkWork (Z.of_nat (length zeros)) (getCapacity (Z.of_nat (length units)))
                  bytes' offset') /\
    buffer Bout (Z.to_nat (getCapacity (Z.of_nat (length units)))) (valueOf Bin ds)
      bytes' offset'.
Proof.
  intros Hzeros Hunits Hu Hreads Henough Hnonneg. unfold run.
  rewrite (countLeading_app isZero zeros units Hzeros) by (by rewrite Hunits).
  rewrite Nat2Z.id, drop_app_length, length_app, Nat2Z.inj_add.
  replace (Z.of_nat (length zeros) + Z.of_nat (length units) - Z.of_nat (length zeros))
    with (Z.of_nat (length units)) by lia.
  set (n := Z.of_nat (length units)).
  fold n in Henough, Hnonneg.
  set (capacity := getCapacity n) in *.
  assert (Hcap : 1 <= capacity).
  { destruct (decide (capacity = 0)) as [H0|]; [exfalso|lia].
    rewrite H0 in Henough. simpl in Henough.
    assert (Bin ^ 1 <= Bin ^ n).
    { apply Z.pow_le_mono_r; [lia|]. unfold n. rewrite Hunits. simpl length. lia. }
    lia. }
  set (cap := Z.to_nat capacity).
  assert (Hlen : length ds = length units) by (symmetry; by eapply Forall2_length).
  assert (Hds : digitsIn Bin ds).
  { clear -Hreads. induction Hreads as [|???? []]; constructor; done. }
  pose proof (valueOf_bound Bin HBin ds Hds) as Hb. rewrite Hlen in Hb. fold n in Hb.
  destruct (convert_spec Bin Bout round HBin HBout round_spec digit cap units ds Hreads
              0 (newUint8Array capacity) (capacity - 1))
    as (bytes' & offset' & Hconv & Hbuf).
  - exists (cap - 1)%nat, [0]. unfold newUint8Array. fold cap.
    split; [lia|]. split.
    { replace cap with ((cap - 1) + 1)%nat at 1 by lia. by rewrite replicate_add. }
    split; [simpl; lia|]. split; [lia|]. split; [repeat constructor; lia|].
    split; [done|]. split; [lia|lia].
  - rewrite Hlen. fold n. replace (Z.of_nat cap) with capacity by lia. lia.
  - replace (Z.of_nat cap) with capacity in Hconv by lia.
    rewrite Hconv. simpl. exists bytes', offset'. split; [done|].
    by rewrite Z.mul_0_l, Z.add_0_l in Hbuf.
Qed.

End Run.

(** ** The output loops *)

Lemma get_app_length (pre used : list Z) (d : Z) :
  get (pre ++ d :: used) (Z.of_nat (length pre)) = Some d.
Proof. by rewrite get_of_nat, list_lookup_middle. Qed.

Lemma emitString_spec (f : option Z -> list Z) (used : list Z) : forall pre result,
  emitString (length used) f (pre ++ used) (Z.of_nat (length pre)) result
  = result ++ (used ≫= fun d => f (Some d)).
Proof.
  induction used as [|d used IH]; intros pre result; simpl.
  - by rewrite app_nil_r.
  - rewrite get_app_length.
    replace (Z.of_nat (length pre) + 1) with (Z.of_nat (length (pre ++ [d])))
      by (rewrite length_app; simpl; lia).
    rewrite (cons_middle d pre used), app_assoc, IH. by rewrite <- app_assoc.
Qed.

Lemma setV_app_length (front : list Z) (r : Z) (back : list Z) (x : Z) :
  0 <= x < 256 ->
  setV (front ++ r :: back) (Z.of_nat (length front)) (Some x) = front ++ x :: back.
Proof.
  intros Hx. unfold setV. simpl. rewrite set_of_nat by done.
  rewrite insert_app_r_alt by lia. by rewrite Nat.sub_diag.
Qed.

Lemma emitBytes_spec (f : option Z -> option Z) (g : Z -> Z) (used : list Z) :
  Forall (fun d => f (Some d) = Some (g d) /\ 0 <= g d < 256) used ->
  forall pre front,
    emitBytes (length used) f (pre ++ used) (Z.of_nat (length pre))
      (front ++ replicate (length used) 0) (Z.of_nat (length front))
    = front ++ (g <$> used).
Proof.
  induction 1 as [|d used [Hf Hg] _ IH]; intros pre front; simpl.
  - done.
  - rewrite get_app_length, Hf, setV_app_length by done.
    replace (Z.of_nat (length pre) + 1) with (Z.of_nat (length (pre ++ [d])))
      by (rewrite length_app; simpl; lia).
    replace (Z.of_nat (length front) + 1) with (Z.of_nat (length (front ++ [g d])))
      by (rewrite length_app; simpl; lia).
    rewrite (cons_middle d pre used), (cons_middle (g d) front), !app_assoc, IH.
    by rewrite <- app_assoc.
Qed.

Lemma fillBytes_spec (x : Z) (n : nat) : forall front back,
  0 <= x < 256 ->
  fillBytes n (Some x) (front ++ replicate n 0 ++ back) (Z.of_nat (length front))
  = front ++ replicate n x ++ back.
Proof.
  induction n as [|n IH]; intros front back Hx; simpl; [done|].
  rewrite setV_app_length by done.
  replace (Z.of_nat (length front) + 1) with (Z.of_nat (length (front ++ [x])))
    by (rewrite length_app; simpl; lia).
  rewrite (cons_middle x front), app_assoc, IH by done. by rewrite <- app_assoc.
Qed.

Lemma repeatString_spec (zeroChar : list Z) (n : nat) : forall result,
  repeatString n zeroChar result = result ++ mjoin (replicate n zeroChar).
Proof.
  induction n as [|n IH]; intros result; simpl.
  - by rewrite app_nil_r.
  - by rewrite IH, <- app_assoc.
Qed.

Lemma mjoin_replicate_singleton (n : nat) (z : Z) :
  mjoin (replicate n [z]) = replicate n z.
Proof. induction n as [|n IH]; simpl; [done|]. by rewrite IH. Qed.

(** ** What the routines compute *)

Lemma buffer_notation (Bout : Z) (cap : nat) (V : Z) (bytes : list Z) (offset : Z) :
  1 < Bout -> 0 < V -> buffer Bout cap V bytes offset ->
  exists (off : nat) (used : list Z),
    offset = Z.of_nat off /\ bytes = replicate off 0 ++ used /\
    (off + length used = cap)%nat /\ notation Bout V used.
Proof.
  intros HBout HV (off & used & -> & -> & Hlen & Hoff & Hused & Hval & _ & Htop).
  exists off, used. split; [done|]. split; [done|]. split; [done|].
  split; [done|]. split; [|done].
  destruct used as [|d used]; [done|]. simpl.
  apply (valueOf_head Bout HBout d used Hused). rewrite Hval.
  specialize (Htop HV). simpl length in Htop.
  by replace (Z.of_nat (S (length used)) - 1) with (Z.of_nat (length used)) in Htop by lia.
Qed.

Lemma valueOf_pos (b : Z) (d : Z) (digits : list Z) :
  1 < b -> digitsIn b (d :: digits) -> d <> 0 -> 0 < valueOf b (d :: digits).
Proof.
  intros Hb Hd Hne. apply (valueOf_head b Hb d digits Hd) in Hne.
  pose proof (Z.pow_pos_nonneg b (Z.of_nat (length digits))). lia.
Qed.

Section Codec.
Variables (alphabet : list Z) (target : Target).
Hypothesis Hvalid : validAlphabet alphabet.
Hypothesis Hinst : instanceOf alphabet target.

Lemma symbolAt_symbols d :
  0 <= d < 58 -> symbolAt alphabet d (default 0 (alphabet !! Z.to_nat d)).
Proof.
  intros Hd. destruct (symbolAt_total alphabet Hvalid d Hd) as [c [? Hc]].
  rewrite Hc. by split.
Qed.

Lemma charAt_zero : charAt alphabet 0 = Some [(zero alphabet)].
Proof. apply symbolAt_charAt. apply (symbolAt_symbols 0). lia. Qed.

Lemma symbol_byte d : 0 <= d < 58 -> 0 <= default 0 (alphabet !! Z.to_nat d) < 256.
Proof.
  intros Hd. destruct (symbolAt_symbols d Hd) as [_ Hc].
  destruct Hvalid as (_ & _ & Hall). rewrite Forall_forall in Hall.
  apply list_elem_of_lookup_2, Hall, IsBase58CharCode_ranges in Hc. lia.
Qed.

Lemma symbol_not_zero d :
  0 <= d < 58 -> d <> 0 -> default 0 (alphabet !! Z.to_nat d) <> (zero alphabet).
Proof.
  intros Hd Hne Heq. pose proof (symbolAt_symbols d Hd) as Hs.
  pose proof (symbolAt_symbols 0 ltac:(lia)) as H0. fold (zero alphabet) in H0. rewrite Heq in Hs.
  by pose proof (symbolAt_inj alphabet Hvalid _ _ _ Hs H0).
Qed.

(** *** The two ways of writing the symbols out *)

Lemma string_tail (k : nat) (capacity : Z) (off : nat) (used : list Z) :
  digitsIn 58 used -> capacity = Z.of_nat (off + length used) ->
  emitString (Z.to_nat (capacity - Z.of_nat off))
    (fun charIndex => ToStringV (charAtV alphabet charIndex))
    (replicate off 0 ++ used) (Z.of_nat off)
    (if bool_decide (Z.of_nat k <> 0)
     then repeatString (Z.to_nat (Z.of_nat k)) (ToStringV (charAt alphabet 0)) []
     else [])
  = replicate k (zero alphabet) ++ symbols alphabet used.
Proof.
  intros Hused ->.
  replace (Z.to_nat (Z.of_nat (off + length used) - Z.of_nat off)) with (length used) by lia.
  rewrite <- (length_replicate off 0) at 2. rewrite emitString_spec. f_equal.
  - case_bool_decide as Hk.
    + rewrite Nat2Z.id, repeatString_spec, charAt_zero. simpl.
      apply mjoin_replicate_singleton.
    + by replace k with 0%nat by lia.
  - unfold symbols. induction Hused as [|d used Hd _ IH]; [done|].
    rewrite fmap_cons, <- IH. simpl.
    by rewrite (proj1 (symbolAt_charAt _ _ _) (symbolAt_symbols d Hd)).
Qed.

Lemma bytes_tail (k : nat) (capacity : Z) (off : nat) (used : list Z) :
  digitsIn 58 used -> capacity = Z.of_nat (off + length used) ->
  let size := capacity - Z.of_nat off + Z.of_nat k in
  emitBytes (Z.to_nat (size - Z.of_nat k))
    (fun charIndex => MapGet (BaseMap target) charIndex)
    (replicate off 0 ++ used) (Z.of_nat off)
    (if bool_decide (Z.of_nat k <> 0)
     then fillBytes (Z.to_nat (Z.of_nat k)) (MapGet (BaseMap target) (Some 0))
            (newUint8Array size) 0
     else newUint8Array size)
    (Z.of_nat k)
  = replicate k (zero alphabet) ++ symbols alphabet used.
Proof.
  intros Hused -> size.
  assert (Hsize : size = Z.of_nat (k + length used)) by (unfold size; lia).
  rewrite Hsize. unfold newUint8Array. rewrite !Nat2Z.id, replicate_add.
  replace (Z.to_nat (Z.of_nat (k + length used) - Z.of_nat k)) with (length used) by lia.
  assert (Hfill : (if bool_decide (Z.of_nat k <> 0)
                   then fillBytes k (MapGet (BaseMap target) (Some 0))
                          (replicate k 0 ++ replicate (length used) 0) 0
                   else replicate k 0 ++ replicate (length used) 0)
                  = replicate k (zero alphabet) ++ replicate (length used) 0).
  { case_bool_decide as Hk.
    - rewrite (proj2 (BaseMap_Some alphabet target Hvalid Hinst 0 (zero alphabet))
                 (symbolAt_symbols 0 ltac:(lia))).
      apply (fillBytes_spec (zero alphabet) k [] (replicate (length used) 0)).
      apply (symbol_byte 0). lia.
    - by replace k with 0%nat by lia. }
  rewrite Hfill.
  rewrite <- (length_replicate off 0) at 2. rewrite <- (length_replicate k (zero alphabet)) at 2.
  apply (emitBytes_spec _ (fun d => default 0 (alphabet !! Z.to_nat d))).
  eapply Forall_impl; [exact Hused|]. intros d Hd. split.
  - by apply (BaseMap_Some alphabet target Hvalid Hinst), symbolAt_symbols.
  - by apply symbol_byte.
Qed.

End Codec.

Lemma split_leading_zeros (l : list Z) :
  exists (k : nat) (rest : list Z), l = replicate k 0 ++ rest /\ canonical rest.
Proof.
  induction l as [|x l (k & rest & -> & Hc)].
  - by exists 0%nat, [].
  - destruct (decide (x = 0)) as [->|Hx].
    + by exists (S k), rest.
    + by exists 0%nat, (x :: replicate k 0 ++ rest).
Qed.

Lemma reads_digitsIn {A} (Bin : Z) (digit : A -> Completion Z) (f : Z -> A) (ds : list Z) :
  (forall d, 0 <= d < Bin -> digit (f d) = Return d) ->
  digitsIn Bin ds -> reads Bin digit (f <$> ds) ds.
Proof.
  intros Hf Hds. induction Hds as [|d ds Hd _ IH]; [constructor|].
  rewrite fmap_cons. constructor; [|done]. split; [by apply Hf|done].
Qed.

Section Encoders.
Variables (alphabet : list Z) (target : Target).
Hypothesis Hvalid : validAlphabet alphabet.
Hypothesis Hinst : instanceOf alphabet target.

Lemma encodeWork_spec (digit : Z -> Completion Z) (k : nat) (r : Z) (rest : list Z) :
  (forall d, 0 <= d < 256 -> digit d = Return d) ->
  r <> 0 -> digitsIn 256 (r :: rest) ->
  256 ^ Z.of_nat (length (r :: rest)) <= 58 ^ GetCapacity (Z.of_nat (length (r :: rest))) ->
  exists (off : nat) (used : list Z),
    run (fun b => bool_decide (b = 0)) GetCapacity digit encodeCarry
      (replicate k 0 ++ r :: rest)
    = Return (mkWork (Z.of_nat k) (Z.of_nat (off + length used))
                (replicate off 0 ++ used) (Z.of_nat off)) /\
    notation 58 (valueOf 256 (r :: rest)) used.
Proof.
  intros Hdigit Hr Hbytes Henough.
  pose proof (GetCapacity_nonneg (Z.of_nat (length (r :: rest))) ltac:(lia)) as Hnonneg.
  destruct (run_spec 256 58 encodeRound eq_refl eq_refl encodeRound_spec
              (fun b => bool_decide (b = 0)) GetCapacity digit
              (replicate k 0) (r :: rest) r rest (r :: rest))
    as (bytes' & offset' & Hrun & Hbuf).
  - apply Forall_replicate. by apply bool_decide_eq_true_2.
  - done.
  - by apply bool_decide_eq_false_2.
  - rewrite <- (list_fmap_id (r :: rest)) at 1. by apply reads_digitsIn.
  - done.
  - done.
  - apply buffer_notation in Hbuf as (off & used & -> & -> & Hlen & Hnot);
      [|done|by apply valueOf_pos].
    exists off, used. split; [|done].
    unfold encodeCarry. rewrite Hrun, length_replicate. do 2 f_equal. lia.
Qed.

Lemma asciiDigit_byte d : 0 <= d < 256 -> asciiDigit d = Return d.
Proof. intros Hd. unfold asciiDigit. by rewrite bool_decide_eq_false_2 by lia. Qed.

(** The four encoders on [k] zero bytes followed by bytes that start with a
    byte other than 0: [k] zero symbols, then the symbols of the base-58
    notation of the number that the bytes denote in base 256. *)
Theorem encoders_spec (k : nat) (r : Z) (rest : list Z) :
  r <> 0 -> digitsIn 256 (r :: rest) ->
  256 ^ Z.of_nat (length (r :: rest)) <= 58 ^ GetCapacity (Z.of_nat (length (r :: rest))) ->
  exists digits,
    notation 58 (valueOf 256 (r :: rest)) digits /\
    let source := replicate k 0 ++ r :: rest in
    let encoded := replicate k (zero alphabet) ++ symbols alphabet digits in
    EncodeBytesToString target source = Return encoded /\
    EncodeBytes target source = Return encoded /\
    Encode target source = Return encoded /\
    EncodeToBytes target source = Return encoded.
Proof.
  intros Hr Hbytes Henough.
  destruct (encodeWork_spec Return k r rest ltac:(done) Hr Hbytes Henough)
    as (off & used & Hwork & Hnot).
  destruct (encodeWork_spec asciiDigit k r rest asciiDigit_byte Hr Hbytes Henough)
    as (off' & used' & Hwork' & Hnot').
  assert (used' = used) as ->.
  { destruct Hnot as (? & ? & ?), Hnot' as (? & ? & ?).
    apply (canonical_unique 58); [done..|congruence]. }
  exists used. split; [done|]. intros source encoded. subst source encoded.
  assert (Hlen : bool_decide (Z.of_nat (length (replicate k 0 ++ r :: rest)) = 0) = false).
  { apply bool_decide_eq_false_2. rewrite length_app. simpl. lia. }
  destruct Hnot as (Hused & _ & _).
  unfold EncodeBytesToString, EncodeBytes, Encode, EncodeToBytes,
    TypedArrayLength, lengthOf, encodeBytesWork, encodeStringWork.
  rewrite Hlen, Hwork, Hwork'. simpl.
  rewrite (Alphabet_eq _ _ Hinst).
  rewrite (string_tail alphabet Hvalid k _ off used Hused eq_refl).
  rewrite (string_tail alphabet Hvalid k _ off' used Hused eq_refl).
  pose proof (bytes_tail alphabet target Hvalid Hinst k _ off used Hused eq_refl) as Hb.
  pose proof (bytes_tail alphabet target Hvalid Hinst k _ off' used Hused eq_refl) as Hb'.
  simpl in Hb, Hb'. rewrite Hb, Hb'. done.
Qed.

End Encoders.

Section Decoders.
Variables (alphabet : list Z) (target : Target).
Hypothesis Hvalid : validAlphabet alphabet.
Hypothesis Hinst : instanceOf alphabet target.

Lemma symbols_zeros k : symbols alphabet (replicate k 0) = replicate k (zero alphabet).
Proof. unfold symbols. by rewrite fmap_replicate. Qed.

Lemma base58Digit_symbol d :
  0 <= d < 58 ->
  base58Digit (BaseMapLookup target) (default 0 (alphabet !! Z.to_nat d)) = Return d.
Proof.
  intros Hd. unfold base58Digit.
  by rewrite (proj2 (BaseMapLookup_Some alphabet target Hvalid Hinst _ d)
                (symbolAt_symbols alphabet Hvalid d Hd)).
Qed.

Lemma decode_string_tail (k : nat) (off : nat) (used : list Z) :
  digitsIn 256 used ->
  emitString (Z.to_nat (Z.of_nat (off + length used) - Z.of_nat off)) StringFromCharCode
    (replicate off 0 ++ used) (Z.of_nat off)
    (repeatString (Z.to_nat (Z.of_nat k)) [0] [])
  = replicate k 0 ++ used.
Proof.
  intros Hused.
  replace (Z.to_nat (Z.of_nat (off + length used) - Z.of_nat off)) with (length used) by lia.
  rewrite <- (length_replicate off 0) at 2.
  rewrite emitString_spec, Nat2Z.id, repeatString_spec, mjoin_replicate_singleton.
  rewrite app_nil_l. f_equal.
  induction Hused as [|d used Hd _ IH]; [done|].
  rewrite bind_cons, IH. unfold StringFromCharCode.
  by rewrite Z.mod_small by lia.
Qed.

Lemma decode_bytes_tail (k : nat) (off : nat) (used : list Z) :
  digitsIn 256 used ->
  let size := Z.of_nat (off + length used) - Z.of_nat off + Z.of_nat k in
  emitBytes (Z.to_nat (size - Z.of_nat k)) (fun b => b)
    (replicate off 0 ++ used) (Z.of_nat off) (newUint8Array size) (Z.of_nat k)
  = replicate k 0 ++ used.
Proof.
  intros Hused size.
  assert (Hsize : size = Z.of_nat (k + length used)) by (unfold size; lia).
  rewrite Hsize. unfold newUint8Array. rewrite Nat2Z.id, replicate_add.
  replace (Z.to_nat (Z.of_nat (k + length used) - Z.of_nat k)) with (length used) by lia.
  rewrite <- (length_replicate off 0) at 2. rewrite <- (length_replicate k 0) at 2.
  rewrite (emitBytes_spec _ (fun d => d)).
  - by rewrite list_fmap_id.
  - eapply Forall_impl; [exact Hused|]. done.
Qed.

(** The string decoders on [k] zero symbols followed by the symbols of
    digits that start with a digit other than 0: [k] zero bytes, then the
    base-256 notation of the number that the digits denote in base 58. *)
Theorem string_decoders_spec (k : nat) (d : Z) (ds : list Z) :
  d <> 0 -> digitsIn 58 (d :: ds) ->
  exists bytes,
    notation 256 (valueOf 58 (d :: ds)) bytes /\
    let encoded := replicate k (zero alphabet) ++ symbols alphabet (d :: ds) in
    Decode target encoded = Return (replicate k 0 ++ bytes) /\
    DecodeToBytes target encoded = Return (replicate k 0 ++ bytes).
Proof.
  intros Hd Hds. pose proof Hds as [Hd58 _]%Forall_cons.
  destruct (run_spec 58 256 decodeRound eq_refl eq_refl decodeRound_spec
              (fun c => bool_decide (Some [c] = charAt alphabet 0)) GetCapacity
              (base58Digit (BaseMapLookup target))
              (replicate k (zero alphabet)) (symbols alphabet (d :: ds))
              (default 0 (alphabet !! Z.to_nat d)) (symbols alphabet ds) (d :: ds))
    as (bytes' & offset' & Hrun & Hbuf).
  - apply Forall_replicate. apply bool_decide_eq_true_2. by rewrite charAt_zero.
  - done.
  - apply bool_decide_eq_false_2. rewrite charAt_zero by done. intros [= Heq].
    by apply (symbol_not_zero alphabet Hvalid d).
  - apply reads_digitsIn; [apply base58Digit_symbol|done].
  - apply GetCapacity_enough_to_decode. lia.
  - apply GetCapacity_nonneg. lia.
  - apply buffer_notation in Hbuf as (off & used & -> & -> & Hlen & Hnot);
      [|done|by apply valueOf_pos].
    exists used. split; [done|]. intros encoded. subst encoded.
    assert (Hne : bool_decide
      (lengthOf (replicate k (zero alphabet) ++ symbols alphabet (d :: ds)) = 0) = false).
    { apply bool_decide_eq_false_2. unfold lengthOf. rewrite length_app. simpl. lia. }
    set (capacity := GetCapacity (Z.of_nat (length (symbols alphabet (d :: ds))))) in *.
    assert (Hcap : capacity = Z.of_nat (off + length used)).
    { pose proof (GetCapacity_nonneg (Z.of_nat (length (symbols alphabet (d :: ds))))
                    ltac:(lia)) as H.
      fold capacity in H. lia. }
    destruct Hnot as (Hused & _ & _).
    unfold Decode, DecodeToBytes, decodeStringWork, decodeCarry.
    rewrite Hne, (Alphabet_eq _ _ Hinst), Hrun, length_replicate, Hcap. simpl.
    rewrite (decode_string_tail k off used Hused).
    pose proof (decode_bytes_tail k off used Hused) as Hb. simpl in Hb. rewrite Hb.
    split; reflexivity.
Qed.

(** The byte decoders on the symbols of any digits of a positive number:
    the base-256 notation of the number.  Leading zero symbols count for
    nothing. *)
Theorem byte_decoders_spec (d : Z) (ds : list Z) :
  digitsIn 58 (d :: ds) -> 0 < valueOf 58 (d :: ds) ->
  58 ^ Z.of_nat (length (d :: ds)) <= 256 ^ GetInverseCapacity (Z.of_nat (length (d :: ds))) ->
  exists bytes,
    notation 256 (valueOf 58 (d :: ds)) bytes /\
    DecodeBytes target (symbols alphabet (d :: ds)) = Return bytes /\
    DecodeBytesToString target (symbols alphabet (d :: ds)) = Return bytes.
Proof.
  intros Hds Hpos Henough. pose proof Hds as [Hd58 _]%Forall_cons.
  assert (Hsymbols : length (symbols alphabet (d :: ds)) = length (d :: ds))
    by apply length_fmap.
  destruct (run_spec 58 256 decodeRound eq_refl eq_refl decodeRound_spec
              (fun b : Z => bool_decide (Some b = MapGet (BaseMapLookup target) (Some 0)))
              GetInverseCapacity (base58Digit (BaseMapLookup target))
              [] (symbols alphabet (d :: ds))
              (default 0 (alphabet !! Z.to_nat d)) (symbols alphabet ds) (d :: ds))
    as (bytes' & offset' & Hrun & Hbuf).
  - constructor.
  - done.
  - rewrite (BaseMapLookup_zero alphabet target Hvalid Hinst).
    by apply bool_decide_eq_false_2.
  - apply reads_digitsIn; [apply base58Digit_symbol|done].
  - by rewrite Hsymbols.
  - apply GetInverseCapacity_nonneg. lia.
  - apply buffer_notation in Hbuf as (off & used & -> & -> & Hlen & Hnot); [|done|done].
    exists used. split; [done|].
    assert (Hne : bool_decide
      (TypedArrayLength (symbols alphabet (d :: ds)) = 0) = false).
    { apply bool_decide_eq_false_2. unfold TypedArrayLength. simpl. lia. }
    set (capacity := GetInverseCapacity (Z.of_nat (length (symbols alphabet (d :: ds))))) in *.
    assert (Hcap : capacity = Z.of_nat (off + length used)).
    { pose proof (GetInverseCapacity_nonneg
                    (Z.of_nat (length (symbols alphabet (d :: ds)))) ltac:(lia)) as H.
      fold capacity in H. lia. }
    destruct Hnot as (Hused & _ & _).
    unfold DecodeBytes, DecodeBytesToString, decodeBytesWork, decodeCarry.
    rewrite app_nil_l in Hrun. rewrite Hne, Hrun, Hcap. simpl.
    pose proof (decode_string_tail 0 off used Hused) as Hs. simpl in Hs. rewrite Hs.
    pose proof (decode_bytes_tail 0 off used Hused) as Hb. simpl in Hb. rewrite Hb.
    split; reflexivity.
Qed.

End Decoders.

(** ** Round trips, and where they break *)


Lemma notation_nonempty (b V : Z) (digits : list Z) :
  0 < V -> notation b V digits -> exists d ds, digits = d :: ds /\ d <> 0.
Proof.
  intros HV (_ & Hc & Hval). destruct digits as [|d ds].
  - rewrite valueOf_nil in Hval. lia.
  - by exists d, ds.
Qed.

Lemma symbols_app (alphabet digits1 digits2 : list Z) :
  symbols alphabet (digits1 ++ digits2) = symbols alphabet digits1 ++ symbols alphabet digits2.
Proof. apply fmap_app. Qed.

(** On bytes that are all zero the buffer is empty, [offset] starts at -1
    and the output loop reads [bytes[-1]]. *)
Lemma run_zeros {A} (isZero : A -> bool) (getCapacity : Z -> Z)
    (digit : A -> Completion Z)
    (loop : nat -> list Z -> Z -> Z -> Z -> Completion (list Z * Z)) (zeros : list A) :
  Forall (fun x => isZero x = true) zeros ->
  run isZero getCapacity digit loop zeros
  = Return (mkWork (Z.of_nat (length zeros)) (getCapacity 0)
              (newUint8Array (getCapacity 0)) (getCapacity 0 - 1)).
Proof.
  intros Hz. unfold run.
  assert (Hcount : countLeading isZero zeros = Z.of_nat (length zeros)).
  { rewrite <- (countLeading_app isZero zeros [] Hz I). by rewrite app_nil_r. }
  by rewrite Hcount, Nat2Z.id, drop_all, Z.sub_diag.
Qed.

Lemma encodeBytesWork_zeros (k : nat) :
  encodeBytesWork (replicate (S k) 0) = Return (mkWork (Z.of_nat (S k)) 0 [] (-1)).
Proof.
  unfold encodeBytesWork. rewrite run_zeros.
  - by rewrite length_replicate.
  - apply Forall_replicate. by apply bool_decide_eq_true_2.
Qed.

(** X17: on [k + 1] zero bytes and nothing else the encoders of byte arrays
    write the [k + 1] zero symbols and then the value of [bytes[-1]]:
    [encodeBytesToString] appends the text [undefined], [encodeBytes] a
    byte 0. *)
Theorem encode_all_zeros (alphabet : list Z) (this : Target) (k : nat) :
  Base58Encoding alphabet = Return this ->
  encodeBytesToString this (replicate (S k) 0)
    = Return (replicate (S k) (zero alphabet) ++ lit "undefined") /\
  encodeBytes this (replicate (S k) 0) = Return (replicate (S k) (zero alphabet) ++ [0]).
Proof.
  intros [Hvalid Hinst]%Base58Encoding_Return.
  assert (Hne : bool_decide (TypedArrayLength (replicate (S k) 0) = 0) = false).
  { apply bool_decide_eq_false_2. unfold TypedArrayLength. simpl. lia. }
  unfold encodeBytesToString, encodeBytes, EncodeBytesToString, EncodeBytes.
  rewrite Hne, encodeBytesWork_zeros. cbn [mbind Completion_bind leadingZeros capacity bytes offset].
  rewrite (Alphabet_eq _ _ Hinst), bool_decide_eq_true_2 by lia.
  rewrite !Nat2Z.id. split.
  - rewrite repeatString_spec, (charAt_zero alphabet Hvalid). simpl ToStringV.
    by rewrite mjoin_replicate_singleton.
  - rewrite (proj2 (BaseMap_Some alphabet this Hvalid Hinst 0 (zero alphabet))
               (symbolAt_symbols alphabet Hvalid 0 ltac:(lia))).
    replace (0 - -1 + Z.of_nat (S k)) with (Z.of_nat (S k + 1)) by lia.
    unfold newUint8Array. rewrite !Nat2Z.id, replicate_add.
    assert (Hfill : fillBytes (S k) (Some (zero alphabet))
                      (replicate (S k) 0 ++ replicate 1 0) 0
                    = replicate (S k) (zero alphabet) ++ replicate 1 0).
    { apply (fillBytes_spec (zero alphabet) (S k) [] (replicate 1 0)).
      apply (symbol_byte alphabet Hvalid 0). lia. }
    rewrite Hfill.
    replace (Z.to_nat (Z.of_nat (S k + 1) - Z.of_nat (S k))) with 1%nat by lia.
    simpl emitBytes. unfold get. simpl. unfold MapGet.
    destruct Hinst as [_ Hs].
    assert (Hnone : BaseMap this !! (None : option Z) = None).
    { destruct (BaseMap this !! None) as [v|] eqn:Hv; [|done].
      apply (slots_baseMap _ _ _ _ _ Hs) in Hv as (j & [=] & _). }
    rewrite Hnone. unfold setV. simpl default.
    rewrite set_of_nat by lia. f_equal. apply list_insert_id.
    change (zero alphabet :: replicate k (zero alphabet) ++ [0])
      with (replicate (S k) (zero alphabet) ++ [0]).
    rewrite lookup_app_r by (by rewrite length_replicate).
    by rewrite length_replicate, Nat.sub_diag.
Qed.

(** ** The fuel is enough

    No routine is cut short by the fuel of its carry loop: on byte arrays,
    and on strings, the eight routines return or throw. *)

Lemma set_bytes (a : list Z) (i v : Z) :
  digitsIn 256 a -> digitsIn 256 (set a i v) /\ length (set a i v) = length a.
Proof.
  intros Ha. unfold set. destruct (i <? 0); [done|]. split; [|apply length_insert].
  apply Forall_insert; [done|]. by apply Z.mod_pos_bound.
Qed.

Lemma encodeRound_bounds (bytes : list Z) (carry index : Z) :
  digitsIn 256 bytes -> 0 <= carry <= 1145 ->
  let '(bytes', carry') := encodeRound bytes carry index in
  digitsIn 256 bytes' /\ 0 <= carry' <= 1145 /\ (index < 0 -> carry' <= carry `div` 58).
Proof.
  intros Hbytes Hcarry. unfold encodeRound, shl.
  assert (Hshl : 0 <= ToInt32 (Z.shiftl (ToInt32V (get bytes index)) 8) <= 65280 /\
                 (index < 0 -> ToInt32 (Z.shiftl (ToInt32V (get bytes index)) 8) = 0)).
  { unfold get. destruct (Z.ltb_spec index 0) as [Hneg|Hpos]; [done|].
    split; [|lia]. destruct (bytes !! Z.to_nat index) as [b|] eqn:Hb; [|done].
    unfold digitsIn in Hbytes. rewrite Forall_lookup in Hbytes.
    specialize (Hbytes _ _ Hb). simpl.
    rewrite (ToInt32_small b), Z.shiftl_mul_pow2 by lia. change (2 ^ 8) with 256.
    rewrite ToInt32_small; lia. }
  destruct Hshl as [Hshl Hout].
  set (s := carry + ToInt32 (Z.shiftl (ToInt32V (get bytes index)) 8)) in *.
  assert (Hs : 0 <= s <= 66425) by (unfold s; lia).
  rewrite Z.quot_div_nonneg by lia.
  assert (Hq : 0 <= s `div` 58 <= 1145).
  { split; [apply Z.div_pos; lia|].
    assert (s `div` 58 < 1146) by (apply Z.div_lt_upper_bound; lia). lia. }
  rewrite ToInt32_small by lia.
  split; [by apply set_bytes|]. split; [done|].
  intros Hneg. unfold s. rewrite (Hout Hneg). by rewrite Z.add_0_r.
Qed.

Lemma encodeCarry_returns fuel : forall bytes offset carry index,
  digitsIn 256 bytes -> -2 <= offset -> 0 <= carry <= 1145 ->
  -1 <= index \/ (index = -2 /\ carry <= 19) \/ (index = -3 /\ carry = 0) ->
  (Z.to_nat (index + 4) <= fuel)%nat ->
  exists bytes' index',
    encodeCarry fuel bytes offset carry index = Return (bytes', index') /\
    -3 <= index' /\ digitsIn 256 bytes'.
Proof.
  unfold encodeCarry.
  induction fuel as [|fuel IH]; intros bytes offset carry index Hbytes Hoff Hcarry Hidx Hfuel.
  { lia. }
  cbn [carryLoop].
  destruct (bool_decide (carry <> 0) || bool_decide (index >= offset)) eqn:Hcond.
  - assert (Hi : -2 <= index).
    { destruct Hidx as [?|[[-> _]|[-> ->]]]; [lia|lia|].
      rewrite bool_decide_eq_false_2 in Hcond by tauto.
      rewrite bool_decide_eq_false_2 in Hcond by lia. done. }
    pose proof (encodeRound_bounds bytes carry index Hbytes Hcarry) as Hround.
    destruct (encodeRound bytes carry index) as [bytes1 carry1].
    destruct Hround as (Hbytes1 & Hcarry1 & Hout).
    destruct (IH bytes1 offset carry1 (index - 1)) as (bytes' & index' & -> & ? & ?);
      [done|done|done| |lia|by exists bytes', index'].
    destruct (decide (0 <= index)) as [|Hneg]; [left; lia|].
    specialize (Hout ltac:(lia)).
    destruct (decide (index = -1)) as [->|].
    + right. left. split; [done|].
      assert (carry `div` 58 < 20) by (apply Z.div_lt_upper_bound; lia). lia.
    + right. right. assert (index = -2) as -> by lia. split; [done|].
      destruct Hidx as [?|[[_ Hc]|[? _]]]; [lia| |lia].
      assert (carry `div` 58 = 0) by (apply Z.div_small; lia). lia.
  - apply orb_false_iff in Hcond as [_ Hge%bool_decide_eq_false].
    exists bytes, index. split; [done|]. split; [|done].
    destruct Hidx as [?|[[-> _]|[-> _]]]; lia.
Qed.

Lemma convert_encode_total (digit : Z -> Completion Z) capacity units :
  Forall (fun u => forall d, digit u = Return d -> 0 <= d <= 255) units ->
  Forall (fun u => digit u <> Diverge) units ->
  forall bytes offset,
    0 <= capacity -> digitsIn 256 bytes -> -2 <= offset ->
    convert digit encodeCarry capacity units bytes offset <> Diverge.
Proof.
  intros Hdigit Hnd. induction Hdigit as [|u units Hu _ IH]; intros bytes offset Hcap Hbytes Hoff.
  { done. }
  apply Forall_cons in Hnd as [Hu' Hnd].
  simpl. destruct (digit u) as [d| |] eqn:Hd; [|done|done]. simpl.
  specialize (Hu d eq_refl).
  destruct (encodeCarry_returns (carryFuel capacity) bytes offset d (capacity - 1))
    as (bytes' & index' & -> & ? & ?); [done|done|lia|lia|unfold carryFuel; lia|].
  simpl. apply IH; [done|done|done|lia].
Qed.

Lemma convert_decode_total (baseMapLookup : gmap (option Z) Z) capacity units :
  forall bytes offset,
    0 <= capacity -> -1 <= offset ->
    convert (base58Digit baseMapLookup) decodeCarry capacity units bytes offset <> Diverge.
Proof.
  induction units as [|u units IH]; intros bytes offset Hcap Hoff; [done|].
  cbn [convert]. destruct (base58Digit baseMapLookup u) as [d|e|] eqn:Hd; [|done|].
  2: { unfold base58Digit in Hd. by destruct (MapGet baseMapLookup (Some u)). }
  rewrite bind_Return.
  destruct (decodeCarry_returns (carryFuel capacity) bytes offset d (capacity - 1))
    as (bytes' & index' & -> & ? & _); [done|lia|unfold carryFuel; lia|].
  rewrite bind_Return. apply IH; [done|lia].
Qed.

Lemma run_total {A} (isZero : A -> bool) (getCapacity : Z -> Z)
    (digit : A -> Completion Z)
    (loop : nat -> list Z -> Z -> Z -> Z -> Completion (list Z * Z)) (input : list A) :
  (forall n, 0 <= n -> 0 <= getCapacity n) ->
  (forall capacity k bytes offset,
     0 <= capacity -> digitsIn 256 bytes -> -1 <= offset ->
     convert digit loop capacity (drop k input) bytes offset <> Diverge) ->
  run isZero getCapacity digit loop input <> Diverge.
Proof.
  intros Hcap Hconv. unfold run.
  pose proof (countLeading_bound isZero input) as Hcount.
  set (capacity := getCapacity _).
  assert (0 <= capacity) by (apply Hcap; lia).
  destruct (convert _ _ _ _ _ _) as [[bytes' offset']| |] eqn:Hc; [done|done|].
  apply Hconv in Hc; [done|done| |lia].
  apply Forall_replicate. lia.
Qed.

(** X16: each of the eight conversion routines completes, with a result or
    with an exception, on every byte array [source] and on every string
    [string]: the carry loops leave the buffer after a bounded number of
    rounds, also when [offset] is below 0. *)
Theorem routines_complete (this : Target) (source string : list Z) :
  digitsIn 256 source -> Forall (fun c => 0 <= c) string ->
  EncodeBytes this source <> Diverge /\ EncodeBytesToString this source <> Diverge /\
  Encode this string <> Diverge /\ EncodeToBytes this string <> Diverge /\
  DecodeBytes this source <> Diverge /\ DecodeBytesToString this source <> Diverge /\
  Decode this string <> Diverge /\ DecodeToBytes this string <> Diverge.
Proof.
  intros Hsource Hstring.
  assert (Hbytes : encodeBytesWork source <> Diverge).
  { apply run_total; [apply GetCapacity_nonneg|]. intros capacity k bytes offset ? ? ?.
    apply convert_encode_total; [| |done|done|lia].
    - apply Forall_drop. eapply Forall_impl; [exact Hsource|].
      intros u Hu d [= <-]. simpl in Hu. lia.
    - apply Forall_drop, Forall_forall. done. }
  assert (Hstr : encodeStringWork string <> Diverge).
  { apply run_total; [apply GetCapacity_nonneg|]. intros capacity k bytes offset ? ? ?.
    apply convert_encode_total; [| |done|done|lia].
    - apply Forall_drop. eapply Forall_impl; [exact Hstring|].
      intros u Hu d. unfold asciiDigit. case_bool_decide; [done|]. intros [= <-].
      simpl in Hu. lia.
    - apply Forall_drop, Forall_forall. intros u _. unfold asciiDigit.
      by case_bool_decide. }
  assert (Hdb : decodeBytesWork this source <> Diverge).
  { apply run_total; [apply GetInverseCapacity_nonneg|]. intros capacity k bytes offset ? ? ?.
    by apply convert_decode_total. }
  assert (Hds : decodeStringWork this string <> Diverge).
  { apply run_total; [apply GetCapacity_nonneg|]. intros capacity k bytes offset ? ? ?.
    by apply convert_decode_total. }
  unfold EncodeBytes, EncodeBytesToString, Encode, EncodeToBytes,
    DecodeBytes, DecodeBytesToString, Decode, DecodeToBytes.
  destruct (encodeBytesWork source), (encodeStringWork string),
    (decodeBytesWork this source), (decodeStringWork this string); try done;
    repeat split; by case_bool_decide.
Qed.

(** * Further properties

    The rest of the interface: the string-mode pair, the mixed pairs, the
    text adapters, the BigInt codec, the slots and the messages of the
    constructor. *)

(** ** Every routine on one input

    [k] zero bytes followed by [n] bytes that start with a byte other than 0.
    The encoders need a buffer that holds every number of [n] bytes,
    [256 ^ n <= 58 ^ GetCapacity n]; the byte decoders, which count no
    leading zero, one that holds every number of as many digits as the
    encoding has symbols. *)
Lemma encode_then_decode (alphabet : list Z) (this : Target)
    (k : nat) (r : Z) (rest : list Z) :
  validAlphabet alphabet -> instanceOf alphabet this ->
  r <> 0 -> digitsIn 256 (r :: rest) ->
  256 ^ Z.of_nat (length (r :: rest)) <= 58 ^ GetCapacity (Z.of_nat (length (r :: rest))) ->
  exists digits,
    notation 58 (valueOf 256 (r :: rest)) digits /\
    let source := replicate k 0 ++ r :: rest in
    let encoded := replicate k (zero alphabet) ++ symbols alphabet digits in
    (EncodeBytesToString this source = Return encoded /\
     EncodeBytes this source = Return encoded /\
     Encode this source = Return encoded /\
     EncodeToBytes this source = Return encoded) /\
    (Decode this encoded = Return source /\
     DecodeToBytes this encoded = Return source) /\
    (58 ^ Z.of_nat (k + length digits)
       <= 256 ^ GetInverseCapacity (Z.of_nat (k + length digits)) ->
     DecodeBytes this encoded = Return (r :: rest) /\
     DecodeBytesToString this encoded = Return (r :: rest)).
Proof.
  intros Hvalid Hinst Hr Hrest Henough.
  destruct (encoders_spec alphabet this Hvalid Hinst k r rest Hr Hrest Henough)
    as (digits & Hdigits & Henc).
  exists digits. split; [exact Hdigits|]. cbv zeta in *. split; [exact Henc|].
  pose proof (valueOf_pos 256 r rest eq_refl Hrest Hr) as Hpos.
  destruct (notation_nonempty _ _ _ Hpos Hdigits) as (d & ds & -> & Hd).
  destruct Hdigits as (Hin & _ & Hval).
  assert (Hsame : forall bytes, notation 256 (valueOf 58 (d :: ds)) bytes -> bytes = r :: rest).
  { intros bytes (? & ? & Hval'). apply (canonical_unique 256); [done..|congruence]. }
  clear Henough Henc. split.
  - destruct (string_decoders_spec alphabet this Hvalid Hinst k d ds Hd Hin)
      as (bytes & Hnot & Hdec & Hdec').
    cbv zeta in *. rewrite Hdec, Hdec', (Hsame bytes Hnot). split; reflexivity.
  - intros Hfits.
    assert (Hall : exists e es, replicate k 0 ++ d :: ds = e :: es)
      by (destruct k; simpl; eauto).
    destruct Hall as (e & es & Hall).
    assert (Hlength : length (e :: es) = (k + length (d :: ds))%nat).
    { by rewrite <- Hall, length_app, length_replicate. }
    destruct (byte_decoders_spec alphabet this Hvalid Hinst e es)
      as (bytes & Hnot & Hdec & Hdec').
    { rewrite <- Hall. apply Forall_app. split; [|exact Hin]. apply Forall_replicate. lia. }
    { rewrite <- Hall, valueOf_zeros_app by reflexivity. lia. }
    { rewrite Hlength. exact Hfits. }
    clear Hfits.
    rewrite <- Hall, symbols_app, symbols_zeros in Hdec, Hdec'.
    rewrite <- Hall, valueOf_zeros_app in Hnot by reflexivity.
    rewrite Hdec, Hdec', (Hsame bytes Hnot). split; reflexivity.
Qed.

(** X1: [decodeToBytes(encodeBytesToString(b)) = b] for [k] zero bytes
    followed by [n] bytes that start with a byte other than 0, whenever the
    buffer of [GetCapacity(n)] cells holds every number of [n] bytes. *)
Theorem string_round_trip (alphabet : list Z) (this : Target)
    (k : nat) (r : Z) (rest : list Z) :
  Base58Encoding alphabet = Return this ->
  r <> 0 -> digitsIn 256 (r :: rest) ->
  256 ^ Z.of_nat (length (r :: rest)) <= 58 ^ GetCapacity (Z.of_nat (length (r :: rest))) ->
  (encoded ← encodeBytesToString this (replicate k 0 ++ r :: rest);
   decodeToBytes this encoded)
  = Return (replicate k 0 ++ r :: rest).
Proof.
  intros [Hvalid Hinst]%Base58Encoding_Return Hr Hrest Henough.
  destruct (encode_then_decode alphabet this k r rest Hvalid Hinst Hr Hrest Henough)
    as (digits & _ & (Henc & _) & (_ & Hdec) & _).
  clear Henough. unfold encodeBytesToString, decodeToBytes.
  rewrite Henc, bind_Return. exact Hdec.
Qed.

Lemma string_round_trip_witness :
  (encoded ← encodeBytesToString BASIC (replicate 2 0 ++ [7; 255]);
   decodeToBytes BASIC encoded)
  = Return (replicate 2 0 ++ [7; 255]).
Proof.
  apply (string_round_trip BASIC_alphabet BASIC 2 7 [255]).
  - apply BASIC_constructed.
  - lia.
  - repeat constructor; lia.
  - vm_compute. discriminate.
Defined.

(** X2: [decodeBytes(encodeBytes(b))] is [b] without its [k] leading zero
    bytes, whenever the two buffers are large enough: the one of
    [GetCapacity(n)] cells for the [n] remaining bytes, and the one of
    [GetInverseCapacity(m)] cells for the [m] symbols of the encoding ([k]
    zero symbols and the base-58 digits of the number). *)
Theorem byte_round_trip_drops_zeros (alphabet : list Z) (this : Target)
    (k : nat) (r : Z) (rest digits : list Z) :
  Base58Encoding alphabet = Return this ->
  r <> 0 -> digitsIn 256 (r :: rest) ->
  notation 58 (valueOf 256 (r :: rest)) digits ->
  256 ^ Z.of_nat (length (r :: rest)) <= 58 ^ GetCapacity (Z.of_nat (length (r :: rest))) ->
  58 ^ Z.of_nat (k + length digits) <= 256 ^ GetInverseCapacity (Z.of_nat (k + length digits)) ->
  (encoded ← encodeBytes this (replicate k 0 ++ r :: rest); decodeBytes this encoded)
  = Return (r :: rest).
Proof.
  intros [Hvalid Hinst]%Base58Encoding_Return Hr Hrest Hdigits Henough Hfits.
  destruct (encode_then_decode alphabet this k r rest Hvalid Hinst Hr Hrest Henough)
    as (digits' & Hdigits' & (_ & Henc & _) & _ & Hdec).
  assert (Hsame : digits' = digits).
  { destruct Hdigits as (? & ? & Hval), Hdigits' as (? & ? & Hval').
    apply (canonical_unique 58); [done..|congruence]. }
  subst digits'. destruct (Hdec Hfits) as [Hdec' _]. clear Henough Hfits Hdec.
  unfold encodeBytes, decodeBytes. rewrite Henc, bind_Return. exact Hdec'.
Qed.

Lemma byte_round_trip_drops_zeros_witness :
  (encoded ← encodeBytes BASIC (replicate 2 0 ++ [7; 255]); decodeBytes BASIC encoded)
  = Return [7; 255].
Proof.
  apply (byte_round_trip_drops_zeros BASIC_alphabet BASIC 2 7 [255] [35; 17]).
  - apply BASIC_constructed.
  - lia.
  - repeat constructor; lia.
  - split; [repeat constructor; lia|]. split; [simpl; lia|reflexivity].
  - vm_compute. discriminate.
  - vm_compute. discriminate.
Defined.

(** ** The string mode *)

(** X3: [decode(encode(s)) = s] for a string of [k] NUL characters followed
    by [n] characters below 256 that start with a character other than NUL,
    whenever the buffer of [GetCapacity(n)] cells holds every number of [n]
    bytes. *)
Theorem decode_encode (alphabet : list Z) (this : Target) (k : nat) (r : Z) (rest : list Z) :
  Base58Encoding alphabet = Return this ->
  r <> 0 -> digitsIn 256 (r :: rest) ->
  256 ^ Z.of_nat (length (r :: rest)) <= 58 ^ GetCapacity (Z.of_nat (length (r :: rest))) ->
  (encoded ← encode this (replicate k 0 ++ r :: rest); decode this encoded)
  = Return (replicate k 0 ++ r :: rest).
Proof.
  intros [Hvalid Hinst]%Base58Encoding_Return Hr Hrest Henough.
  destruct (encode_then_decode alphabet this k r rest Hvalid Hinst Hr Hrest Henough)
    as (digits & _ & (_ & _ & Henc & _) & (Hdec & _) & _).
  clear Henough. unfold encode, decode. rewrite Henc, bind_Return. exact Hdec.
Qed.

Lemma decode_encode_witness :
  (encoded ← encode BASIC (replicate 1 0 ++ lit "Ave"); decode BASIC encoded)
  = Return (replicate 1 0 ++ lit "Ave").
Proof.
  apply (decode_encode BASIC_alphabet BASIC 1 65 (lit "ve")).
  - apply BASIC_constructed.
  - lia.
  - repeat constructor; lia.
  - vm_compute. discriminate.
Defined.

(** X4: [decodeBytesToString(encodeToBytes(s))] is [s] without its [k]
    leading NUL characters (the byte decoders never count a zero symbol),
    whenever the two buffers are large enough, as for
    [decodeBytes(encodeBytes(b))]. *)
Theorem decodeBytesToString_encodeToBytes (alphabet : list Z) (this : Target)
    (k : nat) (r : Z) (rest digits : list Z) :
  Base58Encoding alphabet = Return this ->
  r <> 0 -> digitsIn 256 (r :: rest) ->
  notation 58 (valueOf 256 (r :: rest)) digits ->
  256 ^ Z.of_nat (length (r :: rest)) <= 58 ^ GetCapacity (Z.of_nat (length (r :: rest))) ->
  58 ^ Z.of_nat (k + length digits) <= 256 ^ GetInverseCapacity (Z.of_nat (k + length digits)) ->
  (encoded ← encodeToBytes this (replicate k 0 ++ r :: rest);
   decodeBytesToString this encoded)
  = Return (r :: rest).
Proof.
  intros [Hvalid Hinst]%Base58Encoding_Return Hr Hrest Hdigits Henough Hfits.
  destruct (encode_then_decode alphabet this k r rest Hvalid Hinst Hr Hrest Henough)
    as (digits' & Hdigits' & (_ & _ & _ & Henc) & _ & Hdec).
  assert (Hsame : digits' = digits).
  { destruct Hdigits as (? & ? & Hval), Hdigits' as (? & ? & Hval').
    apply (canonical_unique 58); [done..|congruence]. }
  subst digits'. destruct (Hdec Hfits) as [_ Hdec']. clear Henough Hfits Hdec.
  unfold encodeToBytes, decodeBytesToString. rewrite Henc, bind_Return. exact Hdec'.
Qed.

Lemma decodeBytesToString_encodeToBytes_witness :
  (encoded ← encodeToBytes BASIC (replicate 1 0 ++ [7; 255]);
   decodeBytesToString BASIC encoded)
  = Return [7; 255].
Proof.
  apply (decodeBytesToString_encodeToBytes BASIC_alphabet BASIC 1 7 [255] [35; 17]).
  - apply BASIC_constructed.
  - lia.
  - repeat constructor; lia.
  - split; [repeat constructor; lia|]. split; [simpl; lia|reflexivity].
  - vm_compute. discriminate.
  - vm_compute. discriminate.
Defined.

(** X5: on [k] zero bytes followed by [n] bytes that start with a byte other
    than 0, the four encoders write the same symbols, as characters or as
    character codes, whether the bytes come as an array or as a string,
    whenever the buffer of [GetCapacity(n)] cells holds every number of [n]
    bytes. *)
Theorem encoders_agree (alphabet : list Z) (this : Target) (k : nat) (r : Z) (rest : list Z) :
  Base58Encoding alphabet = Return this ->
  r <> 0 -> digitsIn 256 (r :: rest) ->
  256 ^ Z.of_nat (length (r :: rest)) <= 58 ^ GetCapacity (Z.of_nat (length (r :: rest))) ->
  let source := replicate k 0 ++ r :: rest in
  encode this source = encodeBytesToString this source /\
  encodeToBytes this source = encodeBytesToString this source /\
  encodeBytes this source = encodeBytesToString this source.
Proof.
  intros [Hvalid Hinst]%Base58Encoding_Return Hr Hrest Henough source.
  destruct (encode_then_decode alphabet this k r rest Hvalid Hinst Hr Hrest Henough)
    as (digits & _ & (H1 & H2 & H3 & H4) & _).
  clear Henough. subst source.
  unfold encode, encodeToBytes, encodeBytes, encodeBytesToString.
  rewrite H1, H2, H3, H4. repeat split; reflexivity.
Qed.

Lemma encoders_agree_witness :
  let source := replicate 1 0 ++ [7; 255] in
  encode BASIC source = encodeBytesToString BASIC source /\
  encodeToBytes BASIC source = encodeBytesToString BASIC source /\
  encodeBytes BASIC source = encodeBytesToString BASIC source.
Proof.
  apply (encoders_agree BASIC_alphabet BASIC 1 7 [255]).
  - apply BASIC_constructed.
  - lia.
  - repeat constructor; lia.
  - vm_compute. discriminate.
Defined.

(** X6: what the four encoders write for [k] zero bytes followed by [n]
    bytes that start with a byte other than 0, whenever the buffer of
    [GetCapacity(n)] cells holds every number of [n] bytes: [k] zero
    symbols, then the symbols of the base-58 notation (no leading zero
    digit) of the number the remaining bytes denote in base 256.  Every
    character written belongs to the alphabet. *)
Theorem encoders_write_notation (alphabet : list Z) (this : Target)
    (k : nat) (r : Z) (rest : list Z) :
  Base58Encoding alphabet = Return this ->
  r <> 0 -> digitsIn 256 (r :: rest) ->
  256 ^ Z.of_nat (length (r :: rest)) <= 58 ^ GetCapacity (Z.of_nat (length (r :: rest))) ->
  exists digits,
    notation 58 (valueOf 256 (r :: rest)) digits /\
    let source := replicate k 0 ++ r :: rest in
    let encoded := replicate k (zero alphabet) ++ symbols alphabet digits in
    Forall (fun c => c ∈ alphabet) encoded /\
    encodeBytesToString this source = Return encoded /\
    encodeBytes this source = Return encoded /\
    encode this source = Return encoded /\
    encodeToBytes this source = Return encoded.
Proof.
  intros [Hvalid Hinst]%Base58Encoding_Return Hr Hrest Henough.
  destruct (encoders_spec alphabet this Hvalid Hinst k r rest Hr Hrest Henough)
    as (digits & Hdigits & Henc).
  clear Henough.
  exists digits. split; [exact Hdigits|]. cbv zeta in *. split; [|exact Henc].
  assert (Hsym : forall d, 0 <= d < 58 -> default 0 (alphabet !! Z.to_nat d) ∈ alphabet).
  { intros d Hd. destruct (symbolAt_symbols alphabet Hvalid d Hd) as [_ Hlook].
    by apply list_elem_of_lookup_2 in Hlook. }
  apply Forall_app. split.
  - apply Forall_replicate. apply (Hsym 0). lia.
  - destruct Hdigits as (Hin & _). unfold symbols. apply Forall_fmap.
    eapply Forall_impl; [exact Hin|]. intros d Hd. by apply Hsym.
Qed.

Lemma encoders_write_notation_witness :
  exists digits,
    notation 58 (valueOf 256 [7; 255]) digits /\
    let source := replicate 1 0 ++ [7; 255] in
    let encoded := replicate 1 (zero BASIC_alphabet) ++ symbols BASIC_alphabet digits in
    Forall (fun c => c ∈ BASIC_alphabet) encoded /\
    encodeBytesToString BASIC source = Return encoded /\
    encodeBytes BASIC source = Return encoded /\
    encode BASIC source = Return encoded /\
    encodeToBytes BASIC source = Return encoded.
Proof.
  apply (encoders_write_notation BASIC_alphabet BASIC 1 7 [255]).
  - apply BASIC_constructed.
  - lia.
  - repeat constructor; lia.
  - vm_compute. discriminate.
Defined.

(** X7: what the string decoders return for [k] zero symbols followed by the
    symbols of digits that start with a digit other than 0: [k] zero bytes,
    then the base-256 notation of the number the digits denote in base 58. *)
Theorem string_decoders_read_notation (alphabet : list Z) (this : Target)
    (k : nat) (d : Z) (ds : list Z) :
  Base58Encoding alphabet = Return this ->
  d <> 0 -> digitsIn 58 (d :: ds) ->
  exists bytes,
    notation 256 (valueOf 58 (d :: ds)) bytes /\
    let encoded := replicate k (zero alphabet) ++ symbols alphabet (d :: ds) in
    decode this encoded = Return (replicate k 0 ++ bytes) /\
    decodeToBytes this encoded = Return (replicate k 0 ++ bytes).
Proof.
  intros [Hvalid Hinst]%Base58Encoding_Return Hd Hds.
  exact (string_decoders_spec alphabet this Hvalid Hinst k d ds Hd Hds).
Qed.

Lemma string_decoders_read_notation_witness :
  exists bytes,
    notation 256 (valueOf 58 [3; 0; 57]) bytes /\
    let encoded := replicate 2 (zero BASIC_alphabet) ++ symbols BASIC_alphabet [3; 0; 57] in
    decode BASIC encoded = Return (replicate 2 0 ++ bytes) /\
    decodeToBytes BASIC encoded = Return (replicate 2 0 ++ bytes).
Proof.
  apply (string_decoders_read_notation BASIC_alphabet BASIC 2 3 [0; 57]).
  - apply BASIC_constructed.
  - lia.
  - repeat constructor; lia.
Defined.

(** X8: the byte decoders on the symbols of any [n] digits, leading zero
    digits included, return the base-256 notation of the number the digits
    denote (for the number 0 that is the single byte 0), whenever the buffer
    of [GetInverseCapacity(n)] cells holds every number of [n] digits. *)
Theorem byte_decoders_read_value (alphabet : list Z) (this : Target) (d : Z) (ds : list Z) :
  Base58Encoding alphabet = Return this ->
  digitsIn 58 (d :: ds) ->
  58 ^ Z.of_nat (length (d :: ds)) <= 256 ^ GetInverseCapacity (Z.of_nat (length (d :: ds))) ->
  exists bytes,
    digitsIn 256 bytes /\ valueOf 256 bytes = valueOf 58 (d :: ds) /\
    (if bool_decide (valueOf 58 (d :: ds) = 0) then bytes = [0] else canonical bytes) /\
    decodeBytes this (symbols alphabet (d :: ds)) = Return bytes /\
    decodeBytesToString this (symbols alphabet (d :: ds)) = Return bytes.
Proof.
  intros [Hvalid Hinst]%Base58Encoding_Return Hds Henough.
  assert (Hsymbols : length (symbols alphabet (d :: ds)) = length (d :: ds))
    by apply length_fmap.
  destruct (run_spec 58 256 decodeRound eq_refl eq_refl decodeRound_spec
              (fun b : Z => bool_decide (Some b = MapGet (BaseMapLookup this) (Some 0)))
              GetInverseCapacity (base58Digit (BaseMapLookup this))
              [] (symbols alphabet (d :: ds))
              (default 0 (alphabet !! Z.to_nat d)) (symbols alphabet ds) (d :: ds))
    as (bytes' & offset' & Hrun & Hbuf).
  - constructor.
  - done.
  - rewrite (BaseMapLookup_zero alphabet this Hvalid Hinst).
    by apply bool_decide_eq_false_2.
  - apply reads_digitsIn; [by apply base58Digit_symbol|done].
  - by rewrite Hsymbols.
  - apply GetInverseCapacity_nonneg. lia.
  - clear Henough. pose proof (valueOf_bound 58 eq_refl (d :: ds) Hds) as [Hnonneg _].
    assert (Hshape : exists (off : nat) (used : list Z),
      offset' = Z.of_nat off /\ bytes' = replicate off 0 ++ used /\
      (off + length used)%nat = Z.to_nat (GetInverseCapacity
                                  (Z.of_nat (length (symbols alphabet (d :: ds))))) /\
      digitsIn 256 used /\ valueOf 256 used = valueOf 58 (d :: ds) /\
      (if bool_decide (valueOf 58 (d :: ds) = 0) then used = [0] else canonical used)).
    { case_bool_decide as Hzero.
      - destruct Hbuf as (off & used & -> & -> & Hlen & Hoff & Hused & Hval & Hone & _).
        exists off, used. repeat (split; [done|]).
        specialize (Hone Hzero).
        destruct used as [|x [|y used]]; cbn [length] in Hlen; [lia| |lia].
        rewrite Hzero in Hval. unfold valueOf in Hval. cbn [foldl] in Hval. f_equal. lia.
      - apply buffer_notation in Hbuf as (off & used & -> & -> & Hlen & Hin & Hcanon & Hval);
          [|done|lia].
        by exists off, used. }
    destruct Hshape as (off & used & -> & -> & Hlen & Hused & Hval & Hcase).
    exists used. repeat (split; [done|]).
    assert (Hne : bool_decide
      (TypedArrayLength (symbols alphabet (d :: ds)) = 0) = false).
    { apply bool_decide_eq_false_2. unfold TypedArrayLength. simpl. lia. }
    set (capacity := GetInverseCapacity (Z.of_nat (length (symbols alphabet (d :: ds))))) in *.
    assert (Hcap : capacity = Z.of_nat (off + length used)).
    { pose proof (GetInverseCapacity_nonneg
                    (Z.of_nat (length (symbols alphabet (d :: ds)))) ltac:(lia)) as H.
      fold capacity in H. lia. }
    unfold decodeBytes, decodeBytesToString, DecodeBytes, DecodeBytesToString,
      decodeBytesWork, decodeCarry.
    rewrite app_nil_l in Hrun. rewrite Hne, Hrun, Hcap. simpl.
    pose proof (decode_string_tail 0 off used Hused) as Hs. simpl in Hs. rewrite Hs.
    pose proof (decode_bytes_tail 0 off used Hused) as Hb. simpl in Hb. rewrite Hb.
    split; reflexivity.
Qed.

Lemma byte_decoders_read_value_witness :
  exists bytes,
    digitsIn 256 bytes /\ valueOf 256 bytes = valueOf 58 [0; 0; 5; 57] /\
    (if bool_decide (valueOf 58 [0; 0; 5; 57] = 0) then bytes = [0] else canonical bytes) /\
    decodeBytes BASIC (symbols BASIC_alphabet [0; 0; 5; 57]) = Return bytes /\
    decodeBytesToString BASIC (symbols BASIC_alphabet [0; 0; 5; 57]) = Return bytes.
Proof.
  apply (byte_decoders_read_value BASIC_alphabet BASIC 0 [0; 5; 57]).
  - apply BASIC_constructed.
  - repeat constructor; lia.
  - vm_compute. discriminate.
Defined.

(** X9: on a string of [k + 1] zero symbols and nothing else the string
    decoders allocate no buffer, leave [offset] at -1 and copy [bytes[-1]]
    to the output: [k + 2] zero bytes come back, one more than there are
    symbols. *)
Theorem decode_all_zero_symbols (alphabet : list Z) (this : Target) (k : nat) :
  Base58Encoding alphabet = Return this ->
  decode this (replicate (S k) (zero alphabet)) = Return (replicate (S (S k)) 0) /\
  decodeToBytes this (replicate (S k) (zero alphabet)) = Return (replicate (S (S k)) 0).
Proof.
  intros [Hvalid Hinst]%Base58Encoding_Return.
  assert (Hne : bool_decide (lengthOf (replicate (S k) (zero alphabet)) = 0) = false).
  { apply bool_decide_eq_false_2. unfold lengthOf. simpl. lia. }
  assert (Hwork : decodeStringWork this (replicate (S k) (zero alphabet))
                  = Return (mkWork (Z.of_nat (S k)) 0 [] (-1))).
  { unfold decodeStringWork. rewrite (Alphabet_eq _ _ Hinst), run_zeros.
    - by rewrite length_replicate.
    - apply Forall_replicate. apply bool_decide_eq_true_2. by rewrite charAt_zero. }
  unfold decode, decodeToBytes, Decode, DecodeToBytes.
  rewrite Hne, Hwork. cbn [mbind Completion_bind leadingZeros capacity bytes offset].
  rewrite !Nat2Z.id. split.
  - rewrite repeatString_spec, mjoin_replicate_singleton, app_nil_l.
    change (Z.to_nat (0 - -1)) with 1%nat. cbn [emitString].
    change (StringFromCharCode (get [] (-1))) with (replicate 1 0).
    rewrite <- replicate_add. do 2 f_equal. lia.
  - replace (0 - -1 + Z.of_nat (S k)) with (Z.of_nat (S (S k))) by lia.
    replace (Z.to_nat (Z.of_nat (S (S k)) - Z.of_nat (S k))) with 1%nat by lia.
    cbn [emitBytes]. change (get [] (-1)) with (@None Z).
    unfold newUint8Array, setV, set. rewrite Nat2Z.id.
    destruct (Z.ltb_spec (Z.of_nat (S k)) 0) as [|_]; [lia|].
    f_equal. apply list_eq. intros i. rewrite Nat2Z.id.
    destruct (decide (i = S k)) as [->|Hi].
    + rewrite list_lookup_insert_eq by (rewrite length_replicate; lia).
      symmetry. apply lookup_replicate_2. lia.
    + by rewrite list_lookup_insert_ne.
Qed.

Lemma decode_all_zero_symbols_witness :
  decode BASIC (replicate 3 (zero BASIC_alphabet)) = Return (replicate 4 0) /\
  decodeToBytes BASIC (replicate 3 (zero BASIC_alphabet)) = Return (replicate 4 0).
Proof.
  apply (decode_all_zero_symbols BASIC_alphabet BASIC 2). apply BASIC_constructed.
Defined.

Lemma encode_all_zeros_witness :
  encodeBytesToString BASIC (replicate 2 0)
    = Return (replicate 2 (zero BASIC_alphabet) ++ lit "undefined") /\
  encodeBytes BASIC (replicate 2 0) = Return (replicate 2 (zero BASIC_alphabet) ++ [0]).
Proof.
  apply (encode_all_zeros BASIC_alphabet BASIC 1). apply BASIC_constructed.
Defined.

(** ** Rejected input *)

(** The [for] loop of the string encoders stops with the exception at the
    first code unit above 0xff. *)
Lemma convert_encode_foreign capacity units : forall bytes offset,
  0 <= capacity -> digitsIn 256 bytes -> -2 <= offset ->
  Forall (fun c => 0 <= c) units ->
  (exists c, c ∈ units /\ 255 < c) ->
  convert asciiDigit encodeCarry capacity units bytes offset
  = Throw (RangeError "Invalid ASCII encoding").
Proof.
  induction units as [|u rest IH]; intros bytes offset Hcap Hbytes Hoff Hunits (c & Hc & Hbig).
  { by apply elem_of_nil in Hc. }
  apply Forall_cons in Hunits as [Hu Hrest].
  cbn [convert].
  destruct (asciiDigit u) as [d| |] eqn:Hd; unfold asciiDigit in Hd;
    case_bool_decide as Hwide; try discriminate; [|by injection Hd as <-].
  injection Hd as <-. rewrite bind_Return.
  destruct (encodeCarry_returns (carryFuel capacity) bytes offset u (capacity - 1))
    as (bytes' & index' & -> & ? & ?); [done|done|lia|lia|unfold carryFuel; lia|].
  rewrite bind_Return. apply IH; [done|done|lia|done|].
  exists c. split; [|done]. apply elem_of_cons in Hc as [->|Hc]; [lia|done].
Qed.

(** X10: a string with a code unit above 0xff makes [encode] and
    [encodeToBytes] throw a [RangeError]; nothing is returned. *)
Theorem encode_rejects_wide_character (this : Target) (string : list Z) :
  digitsIn 65536 string ->
  (exists c, c ∈ string /\ 255 < c) ->
  encode this string = Throw (RangeError "Invalid ASCII encoding") /\
  encodeToBytes this string = Throw (RangeError "Invalid ASCII encoding").
Proof.
  intros Hunits (c & Hc & Hbig).
  assert (Hlen : lengthOf string <> 0).
  { destruct string; [by apply elem_of_nil in Hc|]. unfold lengthOf. simpl. lia. }
  assert (Hwork : encodeStringWork string = Throw (RangeError "Invalid ASCII encoding")).
  { pose proof (countLeading_bound (fun c => bool_decide (c = 0)) string) as Hcount.
    unfold encodeStringWork, run. rewrite convert_encode_foreign; [done| | | | |].
    - apply GetCapacity_nonneg. lia.
    - apply Forall_replicate. lia.
    - pose proof (GetCapacity_nonneg
        (Z.of_nat (length string) - countLeading (fun c => bool_decide (c = 0)) string)).
      lia.
    - apply Forall_drop. eapply Forall_impl; [exact Hunits|]. simpl. lia.
    - exists c. split; [|done]. apply countLeading_drop; [done|].
      apply bool_decide_eq_false_2. lia. }
  unfold encode, encodeToBytes, Encode, EncodeToBytes.
  by rewrite (bool_decide_eq_false_2 _ Hlen), Hwork.
Qed.

Lemma encode_rejects_wide_character_witness :
  encode BASIC (lit "ab" ++ [0x416]) = Throw (RangeError "Invalid ASCII encoding") /\
  encodeToBytes BASIC (lit "ab" ++ [0x416]) = Throw (RangeError "Invalid ASCII encoding").
Proof.
  apply (encode_rejects_wide_character BASIC (lit "ab" ++ [0x416])).
  - repeat constructor; lia.
  - exists 0x416. split; [|lia]. apply (list_elem_of_lookup_2 _ 2%nat). reflexivity.
Defined.

(** X11: a byte that is not the code of a character of the alphabet makes
    [decodeBytes] and [decodeBytesToString] throw a [RangeError]; the byte 0
    is such a byte for every alphabet. *)
Theorem decodeBytes_rejects_foreign_byte
    (alphabet : list Z) (this : Target) (source : list Z) :
  Base58Encoding alphabet = Return this ->
  (exists b, b ∈ source /\ (b = 0 \/ b ∉ alphabet)) ->
  decodeBytes this source = Throw (RangeError "Invalid Base58 encoding") /\
  decodeBytesToString this source = Throw (RangeError "Invalid Base58 encoding").
Proof.
  intros [Hvalid Hinst]%Base58Encoding_Return (b & Hb & Hforeign).
  assert (Hout : b ∉ alphabet).
  { destruct Hforeign as [->|?]; [|done]. intros H0.
    destruct Hvalid as (_ & _ & Hall). rewrite Forall_forall in Hall.
    apply Hall in H0. discriminate. }
  assert (Hlen : TypedArrayLength source <> 0).
  { destruct source; [by apply elem_of_nil in Hb|]. unfold TypedArrayLength. simpl. lia. }
  assert (Hwork : decodeBytesWork this source = Throw (RangeError "Invalid Base58 encoding")).
  { pose proof (countLeading_bound
      (fun b => bool_decide (Some b = MapGet (BaseMapLookup this) (Some 0))) source) as Hcount.
    unfold decodeBytesWork, run.
    rewrite (convert_decode_foreign alphabet this Hvalid Hinst); [done| | |].
    - apply GetInverseCapacity_nonneg. lia.
    - match goal with |- -1 <= GetInverseCapacity ?n - 1 =>
        pose proof (GetInverseCapacity_nonneg n) end. lia.
    - exists b. split; [|done]. apply countLeading_drop; [done|].
      rewrite (BaseMapLookup_zero alphabet this Hvalid Hinst).
      by apply bool_decide_eq_false_2. }
  unfold decodeBytes, decodeBytesToString, DecodeBytes, DecodeBytesToString.
  by rewrite (bool_decide_eq_false_2 _ Hlen), Hwork.
Qed.

Lemma decodeBytes_rejects_foreign_byte_witness :
  decodeBytes BASIC [0x32; 0; 0x33] = Throw (RangeError "Invalid Base58 encoding") /\
  decodeBytesToString BASIC [0x32; 0; 0x33] = Throw (RangeError "Invalid Base58 encoding").
Proof.
  apply (decodeBytes_rejects_foreign_byte BASIC_alphabet BASIC [0x32; 0; 0x33]).
  - apply BASIC_constructed.
  - exists 0. split; [|by left]. apply (list_elem_of_lookup_2 _ 1%nat). reflexivity.
Defined.

(** ** The integer codec, digit by digit *)

Section IntegerDigits.
Variables (alphabet : jsstring) (target : Target).
Hypothesis Hvalid : validAlphabet alphabet.
Hypothesis Hinst : instanceOf alphabet target.

(** The loop of [EncodeInt] writes the base-58 notation of [carry] in front
    of [result]. *)
Lemma encodeIntLoop_digits fuel : forall carry result,
  0 <= carry < 2 ^ (Z.of_nat fuel - 1) ->
  exists digits,
    notation 58 carry digits /\
    encodeIntLoop fuel alphabet carry result = Return (symbols alphabet digits ++ result).
Proof.
  induction fuel as [|fuel IH]; intros carry result Hc.
  { simpl in Hc. lia. }
  cbn [encodeIntLoop]. destruct (decide (carry = 0)) as [->|Hz].
  { rewrite bool_decide_eq_false_2 by tauto. exists []. split; [|done].
    split; [constructor|]. by split. }
  rewrite bool_decide_eq_true_2 by done.
  rewrite Z.rem_mod_nonneg by lia.
  pose proof (Z.mod_pos_bound carry 58 eq_refl) as Hd.
  pose proof (Z.div_mod carry 58 ltac:(lia)) as Hdm.
  rewrite (proj1 (symbolAt_charAt _ _ _) (symbolAt_symbols alphabet Hvalid _ Hd)).
  cbn [ToStringV].
  assert (Hfuel : 0 < Z.of_nat fuel).
  { destruct fuel; [simpl in Hc|]; lia. }
  destruct (IH (carry `div` 58) ([default 0 (alphabet !! Z.to_nat (carry `mod` 58))] ++ result))
    as (digits & (Hin & Hcanon & Hval) & ->).
  { split; [apply Z.div_pos; lia|].
    apply Z.div_lt_upper_bound; [lia|].
    replace (Z.of_nat (S fuel) - 1) with (Z.succ (Z.of_nat fuel - 1)) in Hc by lia.
    rewrite Z.pow_succ_r in Hc by lia. lia. }
  exists (digits ++ [carry `mod` 58]). split.
  - split; [|split].
    + apply Forall_app. split; [done|]. by constructor.
    + destruct digits as [|d digits]; [|done]. simpl.
      rewrite valueOf_nil in Hval. lia.
    + rewrite valueOf_app, Hval. unfold valueOf at 1. cbn [foldl length]. lia.
  - by rewrite symbols_app, <- app_assoc.
Qed.

(** On a BigInt that is not negative, truncating division is the floor. *)
Lemma encodeBigIntLoop_nonneg fuel : forall carry result,
  0 <= carry ->
  encodeBigIntLoop fuel alphabet carry result = encodeIntLoop fuel alphabet carry result.
Proof.
  induction fuel as [|fuel IH]; intros carry result Hc; [done|].
  cbn [encodeBigIntLoop encodeIntLoop]. case_bool_decide; [|done].
  rewrite Z.quot_div_nonneg by lia. apply IH. apply Z.div_pos; lia.
Qed.

(** The loop of the integer decoders on the symbols of digits. *)
Lemma decodeIntLoop_symbols digits : forall result,
  digitsIn 58 digits ->
  decodeIntLoop (AlphabetLookup target) (symbols alphabet digits) result
  = Some (result * 58 ^ Z.of_nat (length digits) + valueOf 58 digits).
Proof.
  induction digits as [|d digits IH]; intros result Hin.
  { unfold valueOf. simpl. f_equal. lia. }
  apply Forall_cons in Hin as [Hd Hin].
  change (symbols alphabet (d :: digits))
    with (default 0 (alphabet !! Z.to_nat d) :: symbols alphabet digits).
  cbn [decodeIntLoop].
  rewrite (proj2 (AlphabetLookup_Some alphabet target Hvalid Hinst _ _)
             (symbolAt_symbols alphabet Hvalid d Hd)).
  rewrite IH by done. f_equal. rewrite valueOf_cons.
  cbn [length]. rewrite Nat2Z.inj_succ, Z.pow_succ_r by lia. lia.
Qed.

(** What is left of the symbols of digits once the leading zero symbols are
    skipped. *)
Lemma decodeIntLoop_skip (d : Z) (ds : list Z) :
  digitsIn 58 (d :: ds) ->
  let encodedInteger := symbols alphabet (d :: ds) in
  let leadingZeros :=
    countLeading (fun c => bool_decide (Some [c] = charAt alphabet 0)) encodedInteger in
  decodeIntLoop (AlphabetLookup target) (drop (Z.to_nat leadingZeros) encodedInteger) 0
  = Some (valueOf 58 (d :: ds)).
Proof.
  intros Hin encodedInteger leadingZeros. subst encodedInteger leadingZeros.
  destruct (split_leading_zeros (d :: ds)) as (k & rest & Heq & Hcanon).
  rewrite Heq in Hin |- *. apply Forall_app in Hin as [_ Hrest].
  rewrite symbols_app, symbols_zeros.
  rewrite (countLeading_app _ (replicate k (zero alphabet)) (symbols alphabet rest)).
  - rewrite Nat2Z.id, drop_app_length, decodeIntLoop_symbols by done.
    by rewrite valueOf_zeros_app.
  - apply Forall_replicate. apply bool_decide_eq_true_2. by rewrite charAt_zero.
  - destruct rest as [|r rest]; [done|]. apply Forall_cons in Hrest as [Hr _].
    apply bool_decide_eq_false_2. rewrite charAt_zero by done. intros [= Hsame].
    by apply (symbol_not_zero alphabet Hvalid r).
Qed.

Lemma EncodeInt_digits (n : Z) :
  0 < n ->
  exists digits,
    notation 58 n digits /\
    EncodeInt target n = Return (Some (symbols alphabet digits)) /\
    EncodeBigInt target n = Return (Some (symbols alphabet digits)).
Proof.
  intros Hn.
  destruct (encodeIntLoop_digits (digitFuel n) n []) as (digits & Hnot & Hloop).
  { apply digitFuel_enough. lia. }
  exists digits. split; [done|].
  unfold EncodeInt, EncodeBigInt.
  rewrite (Alphabet_eq _ _ Hinst), bool_decide_eq_false_2 by lia.
  rewrite Z.abs_eq, encodeBigIntLoop_nonneg, Hloop by lia.
  by rewrite app_nil_r.
Qed.

Lemma DecodeInt_symbols (d : Z) (ds : list Z) :
  digitsIn 58 (d :: ds) ->
  DecodeInt target (symbols alphabet (d :: ds)) = Return (Integer (valueOf 58 (d :: ds))) /\
  DecodeBigInt target (symbols alphabet (d :: ds)) = Return (valueOf 58 (d :: ds)).
Proof.
  intros Hin. pose proof (decodeIntLoop_skip d ds Hin) as Hloop. cbv zeta in Hloop.
  assert (Hne : bool_decide (lengthOf (symbols alphabet (d :: ds)) = 0) = false).
  { apply bool_decide_eq_false_2. unfold lengthOf. simpl. lia. }
  unfold DecodeInt, DecodeBigInt.
  by rewrite Hne, (Alphabet_eq _ _ Hinst), Hloop.
Qed.

End IntegerDigits.

(** X12: [decodeBigInt(encodeBigInt(n)) = n] for every BigInt [n] that is
    not negative, whatever its size. *)
Theorem decodeBigInt_encodeBigInt (alphabet : list Z) (this : Target) (n : Z) :
  Base58Encoding alphabet = Return this ->
  0 <= n ->
  exists s, encodeBigInt this n = Return (Some s) /\ decodeBigInt this s = Return n.
Proof.
  intros [Hvalid Hinst]%Base58Encoding_Return Hn.
  unfold encodeBigInt, decodeBigInt. rewrite bool_decide_eq_false_2 by lia.
  destruct (decide (n = 0)) as [->|Hpos].
  - exists (symbols alphabet [0]). split.
    + unfold EncodeBigInt. by rewrite (Alphabet_eq _ _ Hinst), (charAt_zero alphabet Hvalid).
    + apply (DecodeInt_symbols alphabet this Hvalid Hinst 0 []). repeat constructor; lia.
  - destruct (EncodeInt_digits alphabet this Hvalid Hinst n ltac:(lia))
      as (digits & Hnot & _ & Henc).
    exists (symbols alphabet digits). split; [done|].
    destruct (notation_nonempty 58 n digits ltac:(lia) Hnot) as (d & ds & -> & _).
    destruct Hnot as (Hin & _ & <-).
    by apply (DecodeInt_symbols alphabet this Hvalid Hinst d ds).
Qed.

Lemma decodeBigInt_encodeBigInt_witness :
  exists s, encodeBigInt BASIC (2 ^ 200 + 17) = Return (Some s) /\
            decodeBigInt BASIC s = Return (2 ^ 200 + 17).
Proof.
  apply (decodeBigInt_encodeBigInt BASIC_alphabet BASIC (2 ^ 200 + 17)).
  - apply BASIC_constructed.
  - lia.
Defined.

(** X13: for a positive integer [n], [encodeBigInt] returns the symbols of
    the base-58 notation of [n], most significant digit first and without a
    leading zero symbol; so does [encodeInt] when [n] is a safe integer. *)
Theorem integer_encoders_write_notation (alphabet : list Z) (this : Target) (n : Z) :
  Base58Encoding alphabet = Return this ->
  0 < n ->
  exists digits,
    notation 58 n digits /\
    encodeBigInt this n = Return (Some (symbols alphabet digits)) /\
    (n <= 2 ^ 53 - 1 -> encodeInt this (Integer n) = Return (Some (symbols alphabet digits))).
Proof.
  intros [Hvalid Hinst]%Base58Encoding_Return Hn.
  destruct (EncodeInt_digits alphabet this Hvalid Hinst n Hn) as (digits & Hnot & Hint & Hbig).
  exists digits. split; [done|]. split.
  - unfold encodeBigInt. by rewrite bool_decide_eq_false_2 by lia.
  - intros _. unfold encodeInt, Integer, inject_Z, ToIntegerOrInfinity. cbn [Qnum Qden].
    by rewrite Z.quot_1_r, bool_decide_eq_false_2 by lia.
Qed.

Lemma integer_encoders_write_notation_witness :
  exists digits,
    notation 58 2024 digits /\
    encodeBigInt BASIC 2024 = Return (Some (symbols BASIC_alphabet digits)) /\
    (2024 <= 2 ^ 53 - 1 ->
     encodeInt BASIC (Integer 2024) = Return (Some (symbols BASIC_alphabet digits))).
Proof.
  apply (integer_encoders_write_notation BASIC_alphabet BASIC 2024).
  - apply BASIC_constructed.
  - lia.
Defined.

(** X14: on the symbols of any digits, leading zero symbols included,
    [decodeBigInt] returns the number the digits denote in base 58; so does
    [decodeInt] when that number is a safe integer. *)
Theorem integer_decoders_read_value (alphabet : list Z) (this : Target) (d : Z) (ds : list Z) :
  Base58Encoding alphabet = Return this ->
  digitsIn 58 (d :: ds) ->
  decodeBigInt this (symbols alphabet (d :: ds)) = Return (valueOf 58 (d :: ds)) /\
  (valueOf 58 (d :: ds) <= 2 ^ 53 - 1 ->
   decodeInt this (symbols alphabet (d :: ds)) = Return (Integer (valueOf 58 (d :: ds)))).
Proof.
  intros [Hvalid Hinst]%Base58Encoding_Return Hin.
  destruct (DecodeInt_symbols alphabet this Hvalid Hinst d ds Hin) as [Hint Hbig].
  by split.
Qed.

Lemma integer_decoders_read_value_witness :
  decodeBigInt BASIC (symbols BASIC_alphabet [0; 0; 5; 57]) = Return (valueOf 58 [0; 0; 5; 57]) /\
  (valueOf 58 [0; 0; 5; 57] <= 2 ^ 53 - 1 ->
   decodeInt BASIC (symbols BASIC_alphabet [0; 0; 5; 57])
   = Return (Integer (valueOf 58 [0; 0; 5; 57]))).
Proof.
  apply (integer_decoders_read_value BASIC_alphabet BASIC 0 [0; 5; 57]).
  - apply BASIC_constructed.
  - repeat constructor; lia.
Defined.

Lemma routines_complete_witness :
  EncodeBytes BASIC [0; 44] <> Diverge /\
  EncodeBytesToString BASIC [0; 44] <> Diverge /\
  Encode BASIC [0x416; 0] <> Diverge /\ EncodeToBytes BASIC [0x416; 0] <> Diverge /\
  DecodeBytes BASIC [0; 44] <> Diverge /\
  DecodeBytesToString BASIC [0; 44] <> Diverge /\
  Decode BASIC [0x416; 0] <> Diverge /\ DecodeToBytes BASIC [0x416; 0] <> Diverge.
Proof.
  apply (routines_complete BASIC [0; 44] [0x416; 0]).
  - repeat constructor; lia.
  - repeat constructor; lia.
Defined.

(** ** The constructor *)

(** X18: the slots of an instance.  [[Alphabet]] is the string given to the
    constructor; [[AlphabetLookup]] sends each character of it to its
    position, [[BaseMap]] each position to the character code, and
    [[BaseMapLookup]] each character code to its position, and they hold
    nothing else; [undefined] is not a key of [[BaseMap]]. *)
Theorem constructor_slots (alphabet : list Z) (this : Target) :
  Base58Encoding alphabet = Return this ->
  Alphabet this = alphabet /\
  MapGet (BaseMap this) None = None /\
  forall (i c : Z),
    (MapGet (AlphabetLookup this) (Some [c]) = Some i <-> symbolAt alphabet i c) /\
    (MapGet (BaseMap this) (Some i) = Some c <-> symbolAt alphabet i c) /\
    (MapGet (BaseMapLookup this) (Some c) = Some i <-> symbolAt alphabet i c) /\
    (symbolAt alphabet i c -> 0 <= i < 58 /\ IsBase58CharCode (Some c) = true).
Proof.
  intros [Hvalid Hinst]%Base58Encoding_Return.
  split; [apply Hinst|]. split.
  - destruct Hinst as [_ Hs]. unfold MapGet.
    destruct (BaseMap this !! None) as [v|] eqn:Hv; [|done].
    by apply (slots_baseMap _ _ _ _ _ Hs) in Hv as (j & [=] & _).
  - intros i c.
    split; [apply (AlphabetLookup_Some alphabet this Hvalid Hinst)|].
    split; [apply (BaseMap_Some alphabet this Hvalid Hinst)|].
    split; [apply (BaseMapLookup_Some alphabet this Hvalid Hinst)|].
    intros Hsym. split; [by apply (symbolAt_range alphabet Hvalid i c)|].
    destruct Hvalid as (_ & _ & Hall). rewrite Forall_forall in Hall.
    apply Hall, symbolAt_elem. eauto.
Qed.

Lemma constructor_slots_witness :
  Alphabet BASIC = BASIC_alphabet /\
  MapGet (BaseMap BASIC) None = None /\
  forall (i c : Z),
    (MapGet (AlphabetLookup BASIC) (Some [c]) = Some i <-> symbolAt BASIC_alphabet i c) /\
    (MapGet (BaseMap BASIC) (Some i) = Some c <-> symbolAt BASIC_alphabet i c) /\
    (MapGet (BaseMapLookup BASIC) (Some c) = Some i <-> symbolAt BASIC_alphabet i c) /\
    (symbolAt BASIC_alphabet i c -> 0 <= i < 58 /\ IsBase58CharCode (Some c) = true).
Proof.
  apply (constructor_slots BASIC_alphabet BASIC). apply BASIC_constructed.
Defined.



(** ** Capacities *)

(** X20: for every length [n] up to 1024 the rounding of the product does
    no harm.  [GetCapacity(n)] is the ceiling of [n * log 256 / log 58] and
    [GetInverseCapacity(n)] the ceiling of [n * log 58 / log 256]; the first
    is the least number of base-58 digits that hold every number of [n]
    bytes, the second the least number of bytes that hold every number of
    [n] base-58 digits. *)
Theorem capacities_are_ceilings (n : Z) :
  0 <= n <= 1024 ->
  ((IZR (GetCapacity n) - 1 < IZR n * (ln 256 / ln 58) <= IZR (GetCapacity n))%R /\
   256 ^ n <= 58 ^ GetCapacity n /\
   forall j, 0 <= j < GetCapacity n -> 58 ^ j < 256 ^ n) /\
  ((IZR (GetInverseCapacity n) - 1 < IZR n * (ln 58 / ln 256)
    <= IZR (GetInverseCapacity n))%R /\
   58 ^ n <= 256 ^ GetInverseCapacity n /\
   forall j, 0 <= j < GetInverseCapacity n -> 256 ^ j < 58 ^ n).
Proof.
  intros Hn. split.
  - split; [|by apply GetCapacity_least].
    rewrite (GetCapacity_exact n Hn).
    apply (ceil_log_ratio_is_ceiling 256 58); [done|done|done|lia].
  - split; [|by apply GetInverseCapacity_least].
    rewrite (GetInverseCapacity_exact n Hn).
    apply (ceil_log_ratio_is_ceiling 58 256); [done|done|done|lia].
Qed.

Lemma capacities_are_ceilings_witness :
  ((IZR (GetCapacity 26) - 1 < 26 * (ln 256 / ln 58) <= IZR (GetCapacity 26))%R /\
   256 ^ 26 <= 58 ^ GetCapacity 26 /\
   forall j, 0 <= j < GetCapacity 26 -> 58 ^ j < 256 ^ 26) /\
  ((IZR (GetInverseCapacity 26) - 1 < 26 * (ln 58 / ln 256)
    <= IZR (GetInverseCapacity 26))%R /\
   58 ^ 26 <= 256 ^ GetInverseCapacity 26 /\
   forall j, 0 <= j < GetInverseCapacity 26 -> 256 ^ j < 58 ^ 26).
Proof.
  apply (capacities_are_ceilings 26). lia.
Defined.

(** ** Text *)

(** X21: [decodeText(encodeText(text))] is [UTF8Decode] of the bytes that
    [UTF8Encode] made of [text] (hence [text] as soon as [UTF8Decode] undoes
    [UTF8Encode]), when those bytes are [k] zero bytes followed by [n] bytes
    that start with a byte other than 0 and the buffer of [GetCapacity(n)]
    cells holds every number of [n] bytes. *)
Theorem decodeText_encodeText
    (UTF8Encode : list Z -> Completion (list Z)) (UTF8Decode : list Z -> Completion (list Z))
    (alphabet : list Z) (this : Target) (text : list Z) (k : nat) (r : Z) (rest : list Z) :
  Base58Encoding alphabet = Return this ->
  UTF8Encode text = Return (replicate k 0 ++ r :: rest) ->
  r <> 0 -> digitsIn 256 (r :: rest) ->
  256 ^ Z.of_nat (length (r :: rest)) <= 58 ^ GetCapacity (Z.of_nat (length (r :: rest))) ->
  (encoded ← EncodeText UTF8Encode this text; DecodeText UTF8Decode this encoded)
  = UTF8Decode (replicate k 0 ++ r :: rest).
Proof.
  intros [Hvalid Hinst]%Base58Encoding_Return Hutf Hr Hrest Henough.
  unfold EncodeText, DecodeText. rewrite Hutf, bind_Return.
  destruct (encode_then_decode alphabet this k r rest Hvalid Hinst Hr Hrest Henough)
    as (digits & _ & (Henc & _) & (_ & Hdec) & _).
  clear Henough. by rewrite Henc, bind_Return, Hdec, bind_Return.
Qed.

Lemma decodeText_encodeText_witness :
  (encoded ← EncodeText UTF8.encode BASIC wolf; DecodeText UTF8.decode BASIC encoded)
  = UTF8.decode (replicate 0 0 ++ [0xf0; 0x9f; 0x90; 0xba]).
Proof.
  apply (decodeText_encodeText UTF8.encode UTF8.decode BASIC_alphabet BASIC
           wolf 0 0xf0 [0x9f; 0x90; 0xba]).
  - apply BASIC_constructed.
  - vm_compute. reflexivity.
  - lia.
  - repeat constructor; lia.
  - vm_compute. discriminate.
Defined.

(** X22: [decodeBytesToText(encodeTextToBytes(text))] is [UTF8Decode] of the
    bytes of [text] without their [k] leading zero bytes (a text that starts
    with NUL characters comes back without them), whenever the two buffers
    are large enough, as for [decodeBytes(encodeBytes(b))]. *)
Theorem decodeBytesToText_encodeTextToBytes
    (UTF8Encode : list Z -> Completion (list Z)) (UTF8Decode : list Z -> Completion (list Z))
    (alphabet : list Z) (this : Target) (text : list Z)
    (k : nat) (r : Z) (rest digits : list Z) :
  Base58Encoding alphabet = Return this ->
  UTF8Encode text = Return (replicate k 0 ++ r :: rest) ->
  r <> 0 -> digitsIn 256 (r :: rest) ->
  notation 58 (valueOf 256 (r :: rest)) digits ->
  256 ^ Z.of_nat (length (r :: rest)) <= 58 ^ GetCapacity (Z.of_nat (length (r :: rest))) ->
  58 ^ Z.of_nat (k + length digits) <= 256 ^ GetInverseCapacity (Z.of_nat (k + length digits)) ->
  (encoded ← EncodeTextToBytes UTF8Encode this text;
   DecodeBytesToText UTF8Decode this encoded)
  = UTF8Decode (r :: rest).
Proof.
  intros [Hvalid Hinst]%Base58Encoding_Return Hutf Hr Hrest Hdigits Henough Hfits.
  unfold EncodeTextToBytes, DecodeBytesToText. rewrite Hutf, bind_Return.
  destruct (encode_then_decode alphabet this k r rest Hvalid Hinst Hr Hrest Henough)
    as (digits' & Hdigits' & (_ & Henc & _) & _ & Hdec).
  assert (Hsame : digits' = digits).
  { destruct Hdigits as (? & ? & Hval), Hdigits' as (? & ? & Hval').
    apply (canonical_unique 58); [done..|congruence]. }
  subst digits'. destruct (Hdec Hfits) as [Hdec' _]. clear Henough Hfits Hdec.
  by rewrite Henc, bind_Return, Hdec', bind_Return.
Qed.

Lemma decodeBytesToText_encodeTextToBytes_witness :
  (encoded ← EncodeTextToBytes UTF8.encode BASIC (0 :: lit "Ave");
   DecodeBytesToText UTF8.decode BASIC encoded)
  = UTF8.decode (lit "Ave").
Proof.
  apply (decodeBytesToText_encodeTextToBytes UTF8.encode UTF8.decode BASIC_alphabet BASIC
           (0 :: lit "Ave") 1 65 (lit "ve") [21; 57; 18; 5]).
  - apply BASIC_constructed.
  - vm_compute. reflexivity.
  - lia.
  - repeat constructor; lia.
  - split; [repeat constructor; lia|]. split; [simpl; lia|reflexivity].
  - vm_compute. discriminate.
  - vm_compute. discriminate.
Defined.

(** ** Strings of NUL characters *)

Lemma encodeStringWork_zeros (k : nat) :
  encodeStringWork (replicate (S k) 0) = Return (mkWork (Z.of_nat (S k)) 0 [] (-1)).
Proof.
  unfold encodeStringWork. rewrite run_zeros.
  - by rewrite length_replicate.
  - apply Forall_replicate. by apply bool_decide_eq_true_2.
Qed.

(** X23: on a string of [k + 1] NUL characters and nothing else the string
    encoders behave as the encoders of byte arrays do on zero bytes: after
    the [k + 1] zero symbols [encode] appends the text [undefined] and
    [encodeToBytes] a byte 0. *)
Theorem encode_all_NUL (alphabet : list Z) (this : Target) (k : nat) :
  Base58Encoding alphabet = Return this ->
  encode this (replicate (S k) 0)
    = Return (replicate (S k) (zero alphabet) ++ lit "undefined") /\
  encodeToBytes this (replicate (S k) 0) = Return (replicate (S k) (zero alphabet) ++ [0]).
Proof.
  intros [Hvalid Hinst]%Base58Encoding_Return.
  assert (Hne : bool_decide (lengthOf (replicate (S k) 0) = 0) = false).
  { apply bool_decide_eq_false_2. unfold lengthOf. simpl. lia. }
  unfold encode, encodeToBytes, Encode, EncodeToBytes.
  rewrite Hne, encodeStringWork_zeros. cbn [mbind Completion_bind leadingZeros capacity bytes offset].
  rewrite (Alphabet_eq _ _ Hinst), bool_decide_eq_true_2 by lia.
  rewrite !Nat2Z.id. split.
  - rewrite repeatString_spec, (charAt_zero alphabet Hvalid). simpl ToStringV.
    by rewrite mjoin_replicate_singleton.
  - rewrite (proj2 (BaseMap_Some alphabet this Hvalid Hinst 0 (zero alphabet))
               (symbolAt_symbols alphabet Hvalid 0 ltac:(lia))).
    replace (0 - -1 + Z.of_nat (S k)) with (Z.of_nat (S k + 1)) by lia.
    unfold newUint8Array. rewrite !Nat2Z.id, replicate_add.
    assert (Hfill : fillBytes (S k) (Some (zero alphabet))
                      (replicate (S k) 0 ++ replicate 1 0) 0
                    = replicate (S k) (zero alphabet) ++ replicate 1 0).
    { apply (fillBytes_spec (zero alphabet) (S k) [] (replicate 1 0)).
      apply (symbol_byte alphabet Hvalid 0). lia. }
    rewrite Hfill.
    replace (Z.to_nat (Z.of_nat (S k + 1) - Z.of_nat (S k))) with 1%nat by lia.
    simpl emitBytes. unfold get. simpl. unfold MapGet.
    destruct Hinst as [_ Hs].
    assert (Hnone : BaseMap this !! (None : option Z) = None).
    { destruct (BaseMap this !! None) as [v|] eqn:Hv; [|done].
      apply (slots_baseMap _ _ _ _ _ Hs) in Hv as (j & [=] & _). }
    rewrite Hnone. unfold setV. simpl default.
    rewrite set_of_nat by lia. f_equal. apply list_insert_id.
    change (zero alphabet :: replicate k (zero alphabet) ++ [0])
      with (replicate (S k) (zero alphabet) ++ [0]).
    rewrite lookup_app_r by (by rewrite length_replicate).
    by rewrite length_replicate, Nat.sub_diag.
Qed.

Lemma encode_all_NUL_witness :
  encode BASIC (replicate 2 0)
    = Return (replicate 2 (zero BASIC_alphabet) ++ lit "undefined") /\
  encodeToBytes BASIC (replicate 2 0) = Return (replicate 2 (zero BASIC_alphabet) ++ [0]).
Proof.
  apply (encode_all_NUL BASIC_alphabet BASIC 1). apply BASIC_constructed.
Defined.
